(** * Credal network propagation and Dempster-Shafer combination

    A shallow embedding of [credal.py] and [dempster_shafer.py].

    Numbers: Python floats are modelled by exact rationals [Q]; the two
    sentinels [float('inf')] and [float('-inf')] that the bound
    accumulators start from are modelled by [None] in an [option Q].
    The properties stated over [Q] are those that do not depend on
    rounding: which operations are performed, in which order, and the order
    and sign facts that monotone rounding keeps. Where rounding decides,
    modules [CredalBinary64] and [DempsterShaferBinary64] state the same
    program over binary64.
    Dictionaries: a Python [dict] is modelled by the list of its items in
    insertion order (an association list whose keys are pairwise distinct).
    Exceptions: a computation that may raise returns a [result].
    Printing: of all the trace output only the line
    "Computing marginal for node ..." is kept, as a log of node names. *)

From Stdlib Require Import List String Bool ZArith QArith Qminmax Lia Lqa.
From Stdlib Require Import Permutation.
From Corelib Require PrimFloat.
From Stdlib Require Floats.
Import ListNotations.

Local Open Scope string_scope.
Local Open Scope list_scope.
Local Open Scope Q_scope.

(** ** Exceptions *)

Inductive exn : Type :=
| KeyError
| StopIteration
| ZeroDivisionError
| ValueError (msg : string).

Inductive result (A : Type) : Type :=
| OK (a : A)
| Raise (e : exn).

Arguments OK {A} a.
Arguments Raise {A} e.

Definition bind {A B} (c : result A) (f : A -> result B) : result B :=
  match c with
  | OK a => f a
  | Raise e => Raise e
  end.

Notation "x <- c ;; k" := (bind c (fun x => k))
  (at level 61, c at next level, right associativity).
Notation "' pat <- c ;; k" := (bind c (fun x => match x with pat => k end))
  (at level 61, pat pattern, c at next level, right associativity).

(** The value of a computation that did not raise. *)
Definition get_ok {A} (default : A) (c : result A) : A :=
  match c with
  | OK a => a
  | Raise _ => default
  end.

(** A [for] loop whose body may raise, threading the loop state. *)
Fixpoint foldM {A S} (body : S -> A -> result S) (xs : list A) (s : S)
  : result S :=
  match xs with
  | [] => OK s
  | x :: xs' => s' <- body s x ;; foldM body xs' s'
  end.

(** A list comprehension whose element expression may raise. *)
Fixpoint mapM {A B} (f : A -> result B) (xs : list A) : result (list B) :=
  match xs with
  | [] => OK []
  | x :: xs' => y <- f x ;; ys <- mapM f xs' ;; OK (y :: ys)
  end.

(** ** Dictionaries as insertion-ordered item lists *)

Section Dict.
Context {K V : Type} (eqb : K -> K -> bool).

Definition keys (d : list (K * V)) : list K := map fst d.
Definition values (d : list (K * V)) : list V := map snd d.

Fixpoint dict_get (d : list (K * V)) (k : K) : option V :=
  match d with
  | [] => None
  | (k', v) :: d' => if eqb k' k then Some v else dict_get d' k
  end.

(** [d[k]]: raises [KeyError] when the key is absent. *)
Definition getitem (d : list (K * V)) (k : K) : result V :=
  match dict_get d k with
  | Some v => OK v
  | None => Raise KeyError
  end.

(** [d[k] = v]: overwrite in place, or append a new item. *)
Fixpoint setitem (d : list (K * V)) (k : K) (v : V) : list (K * V) :=
  match d with
  | [] => [(k, v)]
  | (k', v') :: d' =>
      if eqb k' k then (k', v) :: d' else (k', v') :: setitem d' k v
  end.
End Dict.

Definition state := string.

Fixpoint tuple_eqb (a b : list state) : bool :=
  match a, b with
  | [], [] => true
  | x :: a', y :: b' => String.eqb x y && tuple_eqb a' b'
  | _, _ => false
  end.

(** [itertools.product]: the rightmost position varies fastest. *)
Fixpoint product {A} (pools : list (list A)) : list (list A) :=
  match pools with
  | [] => [[]]
  | pool :: rest =>
      flat_map (fun x => map (cons x) (product rest)) pool
  end.

(** ** Float operations used by the programs *)

(** [sum(xs)]: left to right from 0. *)
Definition py_sum (xs : list Q) : Q := fold_left Qplus xs 0.

(** [x > 0]. *)
Definition gt0 (x : Q) : bool :=
  match 0 ?= x with Lt => true | _ => false end.

(** [x < 1]. *)
Definition lt1 (x : Q) : bool :=
  match x ?= 1 with Lt => true | _ => false end.

(** [a / b]: raises [ZeroDivisionError] on a zero divisor. *)
Definition py_div (a b : Q) : result Q :=
  if Qeq_bool b 0 then Raise ZeroDivisionError else OK (a / b).

(** * credal.py *)

Module Credal.

Definition interval : Type := Q * Q.
(** state -> (low, high) *)
Definition marginal : Type := list (state * interval).
(** parent assignment -> (state -> (low, high)) *)
Definition table : Type := list (list state * marginal).

(** [CredalNode]. The [children] back-references, which [add_node] fills in
    and nothing reads, are left out; a parent object shared by several
    children appears as the same value under each of them. *)
Unset Elimination Schemes.
Inductive CredalNode : Type :=
  mkNode (name : string) (parents : list CredalNode) (credal_table : table).
Set Elimination Schemes.

Definition name (n : CredalNode) : string :=
  match n with mkNode nm _ _ => nm end.
Definition parents (n : CredalNode) : list CredalNode :=
  match n with mkNode _ ps _ => ps end.
Definition credal_table (n : CredalNode) : table :=
  match n with mkNode _ _ t => t end.

(** Lines 64-67: one chosen corner, divided by its total when the total is
    positive. *)
Definition normalize (extreme_dict : list (state * Q))
  : result (list (state * Q)) :=
  let total := py_sum (values extreme_dict) in
  if gt0 total
  then mapM (fun '(s, v) => q <- py_div v total ;; OK (s, q)) extreme_dict
  else OK extreme_dict.

(** Lines 60-69: the extreme points of one parent marginal, every choice of
    the low or the high endpoint per state. *)
Definition extreme_points (pm : marginal) : result (list (list (state * Q))) :=
  let states := keys pm in
  mapM (fun choice => normalize (combine states choice))
       (product (map (fun '(l, u) => [l; u]) (values pm))).

(** Lines 78-80: the product of the chosen weights along an assignment. *)
Definition joint_prob (parent_extremes_combo : list (list (state * Q)))
           (parent_assignment : list state) : result Q :=
  foldM (fun prob '(d, st) => w <- getitem String.eqb d st ;; OK (prob * w))
        (combine parent_extremes_combo parent_assignment) 1.

(** The two accumulators: [None] is the untouched sentinel. *)
Definition bounds : Type :=
  (list (state * option Q) * list (state * option Q))%type.

(** Lines 85-87: one state of the node under one parent assignment. *)
Definition update_bounds (credal_entry : marginal) (prob : Q)
           (b : bounds) (st : state) : result bounds :=
  let '(lower_bounds, upper_bounds) := b in
  '(low, high) <- getitem String.eqb credal_entry st ;;
  lb <- getitem String.eqb lower_bounds st ;;
  let lower_bounds :=
    setitem String.eqb lower_bounds st
      (Some (match lb with
             | Some v => Qmin v (prob * low)
             | None => prob * low
             end)) in
  ub <- getitem String.eqb upper_bounds st ;;
  let upper_bounds :=
    setitem String.eqb upper_bounds st
      (Some (match ub with
             | Some v => Qmax v (prob * high)
             | None => prob * high
             end)) in
  OK (lower_bounds, upper_bounds).

(** Lines 78-87: one joint parent assignment. *)
Definition visit_assignment (credal_table : table) (node_states : list state)
           (parent_extremes_combo : list (list (state * Q)))
           (b : bounds) (parent_assignment : list state) : result bounds :=
  prob <- joint_prob parent_extremes_combo parent_assignment ;;
  credal_entry <- getitem tuple_eqb credal_table parent_assignment ;;
  foldM (update_bounds credal_entry prob) node_states b.

(** Lines 77-87: all joint assignments under one combination of extremes. *)
Definition visit_combo (credal_table : table) (node_states : list state)
           (b : bounds) (parent_extremes_combo : list (list (state * Q)))
  : result bounds :=
  foldM (visit_assignment credal_table node_states parent_extremes_combo)
        (product (map keys parent_extremes_combo)) b.

(** Line 53: [list(next(iter(credal_table.values())).keys())]. *)
Definition first_entry_states (credal_table : table) : result (list state) :=
  match credal_table with
  | [] => Raise StopIteration
  | (_, entry) :: _ => OK (keys entry)
  end.

(** Lines 93-104: untouched bounds fall back to 0 and 1. *)
Definition finalize (node_states : list state) (b : bounds)
  : result marginal :=
  let '(lower_bounds, upper_bounds) := b in
  mapM (fun s =>
          lb <- getitem String.eqb lower_bounds s ;;
          ub <- getitem String.eqb upper_bounds s ;;
          OK (s, (match lb with Some v => v | None => 0 end,
                  match ub with Some v => v | None => 1 end)))
       node_states.

(** Lines 55-56: both accumulators start untouched. *)
Definition initial_bounds (node_states : list state) : bounds :=
  (map (fun s => (s, @None Q)) node_states,
   map (fun s => (s, @None Q)) node_states).

(** Lines 52-104: the marginal of a node from its parents' marginals. *)
Definition node_marginal (credal_table : table)
           (parent_marginals : list marginal) : result marginal :=
  node_states <- first_entry_states credal_table ;;
  parent_extreme_options <- mapM extreme_points parent_marginals ;;
  b <- foldM (visit_combo credal_table node_states)
             (product parent_extreme_options)
             (initial_bounds node_states) ;;
  finalize node_states b.

(** [compute_marginal_extreme]: the log of the nodes whose computation was
    started, in order, and the marginal or the exception. *)
Fixpoint compute_marginal_extreme (node : CredalNode)
  : list string * result marginal :=
  match node with
  | mkNode nm ps tbl =>
      match ps with
      | [] =>
          ([nm],
           entry <- getitem tuple_eqb tbl [] ;;
           OK (map (fun '(st, (low, high)) => (st, (low, high))) entry))
      | _ :: _ =>
          let '(log, r) :=
            (fix all_parents (l : list CredalNode)
               : list string * result (list marginal) :=
               match l with
               | [] => ([], OK [])
               | p :: l' =>
                   match compute_marginal_extreme p with
                   | (log1, Raise e) => (log1, Raise e)
                   | (log1, OK pm) =>
                       let '(log2, r2) := all_parents l' in
                       (log1 ++ log2, pms <- r2 ;; OK (pm :: pms))
                   end
               end) ps in
          (nm :: log, parent_marginals <- r ;; node_marginal tbl parent_marginals)
      end
  end.

(** [CredalNetwork]: the registry, name -> node. *)
Definition CredalNetwork : Type := list (string * CredalNode).

Definition add_node (nodes : CredalNetwork) (node : CredalNode)
  : CredalNetwork :=
  setitem String.eqb nodes (name node) node.

(** [propagate]: every registered node in registry order. *)
Fixpoint propagate_from (nodes : list CredalNode)
         (marginals : list (string * marginal))
  : list string * result (list (string * marginal)) :=
  match nodes with
  | [] => ([], OK marginals)
  | node :: rest =>
      match compute_marginal_extreme node with
      | (log1, Raise e) => (log1, Raise e)
      | (log1, OK m) =>
          let '(log2, r) :=
            propagate_from rest (setitem String.eqb marginals (name node) m) in
          (log1 ++ log2, r)
      end
  end.

Definition propagate (nodes : CredalNetwork)
  : list string * result (list (string * marginal)) :=
  propagate_from (values nodes) [].

(** The result alone. *)
Definition marginal_of (node : CredalNode) : result marginal :=
  snd (compute_marginal_extreme node).

(** ** The medical-diagnosis network of [medical_diagnosis_example] *)

Definition flu : CredalNode :=
  mkNode "Flu" []
    [([], [("Present", (5#100, 1#10)); ("Absent", (9#10, 95#100))])].

Definition cold : CredalNode :=
  mkNode "Cold" []
    [([], [("Present", (1#10, 2#10)); ("Absent", (8#10, 9#10))])].

Definition fever : CredalNode :=
  mkNode "Fever" [flu; cold]
    [(["Present"; "Present"],
       [("Present", (9#10, 1)); ("Absent", (0, 1#10))]);
     (["Present"; "Absent"],
       [("Present", (8#10, 95#100)); ("Absent", (5#100, 2#10))]);
     (["Absent"; "Present"],
       [("Present", (7#10, 85#100)); ("Absent", (15#100, 3#10))]);
     (["Absent"; "Absent"],
       [("Present", (0, 1#10)); ("Absent", (9#10, 1))])].

Definition cough : CredalNode :=
  mkNode "Cough" [flu; cold]
    [(["Present"; "Present"],
       [("Present", (8#10, 95#100)); ("Absent", (5#100, 2#10))]);
     (["Present"; "Absent"],
       [("Present", (6#10, 8#10)); ("Absent", (2#10, 4#10))]);
     (["Absent"; "Present"],
       [("Present", (5#10, 7#10)); ("Absent", (3#10, 5#10))]);
     (["Absent"; "Absent"],
       [("Present", (0, 1#10)); ("Absent", (9#10, 1))])].

(** Fever with its own table widened at the ('Absent', 'Absent') entry. *)
Definition fever_own_wide : CredalNode :=
  mkNode "Fever" [flu; cold]
    [(["Present"; "Present"],
       [("Present", (9#10, 1)); ("Absent", (0, 1#10))]);
     (["Present"; "Absent"],
       [("Present", (8#10, 95#100)); ("Absent", (5#100, 2#10))]);
     (["Absent"; "Present"],
       [("Present", (7#10, 85#100)); ("Absent", (15#100, 3#10))]);
     (["Absent"; "Absent"],
       [("Present", (0, 2#10)); ("Absent", (8#10, 1))])].

(** ** A chain A -> B -> C whose intervals are all points *)

Definition chain_A : CredalNode :=
  mkNode "A" [] [([], [("x", (1#2, 1#2)); ("y", (1#2, 1#2))])].

Definition chain_B : CredalNode :=
  mkNode "B" [chain_A]
    [(["x"], [("t", (1, 1)); ("f", (0, 0))]);
     (["y"], [("t", (0, 0)); ("f", (1, 1))])].

Definition chain_C : CredalNode :=
  mkNode "C" [chain_B]
    [(["t"], [("u", (1, 1)); ("v", (0, 0))]);
     (["f"], [("u", (0, 0)); ("v", (1, 1))])].

Definition medical_network : CredalNetwork :=
  add_node (add_node (add_node (add_node [] flu) cold) fever) cough.

(** ** Notions used to state the properties *)

(** The marginals of a parent list, as the list comprehension of line 50
    computes them: left to right, stopping at the first exception. *)
Fixpoint parent_marginals_of (ps : list CredalNode)
  : list string * result (list marginal) :=
  match ps with
  | [] => ([], OK [])
  | p :: l' =>
      match compute_marginal_extreme p with
      | (log1, Raise e) => (log1, Raise e)
      | (log1, OK pm) =>
          let '(log2, r2) := parent_marginals_of l' in
          (log1 ++ log2, pms <- r2 ;; OK (pm :: pms))
      end
  end.

(** How often a node named [nm] occurs in the ancestry of [node], counted
    once per path of parent links. *)
Fixpoint occurrences (nm : string) (node : CredalNode) : nat :=
  match node with
  | mkNode nm' ps _ =>
      ((if String.eqb nm nm' then 1 else 0) +
       (fix sum_over (l : list CredalNode) : nat :=
          match l with
          | [] => 0
          | p :: l' => occurrences nm p + sum_over l'
          end) ps)%nat
  end.

Fixpoint occurrences_in (nm : string) (l : list CredalNode) : nat :=
  match l with
  | [] => 0%nat
  | p :: l' => (occurrences nm p + occurrences_in nm l')%nat
  end.

(** How often a name occurs in a log. *)
Definition count (nm : string) (log : list string) : nat :=
  List.length (filter (String.eqb nm) log).

(** The state set of a node: the keys of the entry its marginal is built
    from (the root entry, or the first entry of the table). *)
Definition states_of (node : CredalNode) : list state :=
  match node with
  | mkNode _ [] tbl =>
      match dict_get tuple_eqb tbl [] with
      | Some entry => keys entry
      | None => []
      end
  | mkNode _ (_ :: _) tbl =>
      match tbl with
      | [] => []
      | (_, entry) :: _ => keys entry
      end
  end.

Definition valid_interval (iv : interval) : Prop :=
  0 <= fst iv /\ fst iv <= snd iv /\ snd iv <= 1.

Definition valid_entry (entry : marginal) : Prop :=
  forall s iv, In (s, iv) entry -> valid_interval iv.

Definition valid_table (tbl : table) : Prop :=
  forall k entry, In (k, entry) tbl -> valid_entry entry.

(** Full coverage: every joint assignment of the given parent state sets has
    an entry, and every entry gives every state of the node. *)
Definition covers (tbl : table) (parent_states : list (list state))
           (node_states : list state) : Prop :=
  forall a, In a (product parent_states) ->
    exists entry, dict_get tuple_eqb tbl a = Some entry /\
      forall s, In s node_states ->
        exists iv, dict_get String.eqb entry s = Some iv.

(** Valid input: valid intervals and full coverage, at the node and at all
    its ancestors. *)
Fixpoint valid_node (node : CredalNode) : Prop :=
  match node with
  | mkNode _ ps tbl =>
      valid_table tbl /\
      match ps with
      | [] => exists entry, dict_get tuple_eqb tbl [] = Some entry
      | _ :: _ =>
          tbl <> [] /\
          covers tbl (map states_of ps) (states_of node)
      end /\
      (fix all_valid (l : list CredalNode) : Prop :=
         match l with
         | [] => True
         | p :: l' => valid_node p /\ all_valid l'
         end) ps
  end.

Fixpoint valid_nodes (l : list CredalNode) : Prop :=
  match l with
  | [] => True
  | p :: l' => valid_node p /\ valid_nodes l'
  end.

(** [widens_entry e e']: the same states, every interval of [e'] at least
    as wide as the one of [e]. *)
Definition widens_entry (e e' : marginal) : Prop :=
  Forall2 (fun x x' =>
             fst x = fst x' /\
             fst (snd x') <= fst (snd x) /\ snd (snd x) <= snd (snd x'))
          e e'.

Definition widens_table (t t' : table) : Prop :=
  Forall2 (fun x x' => fst x = fst x' /\ widens_entry (snd x) (snd x')) t t'.

(** [widens n n']: the same network, every interval of every table of [n']
    at least as wide as in [n]. *)
Fixpoint widens (n n' : CredalNode) : Prop :=
  match n, n' with
  | mkNode nm ps tbl, mkNode nm' ps' tbl' =>
      nm = nm' /\ widens_table tbl tbl' /\
      (fix all_widen (l l' : list CredalNode) : Prop :=
         match l, l' with
         | [], [] => True
         | p :: l1, p' :: l1' => widens p p' /\ all_widen l1 l1'
         | _, _ => False
         end) ps ps'
  end.

Fixpoint widens_all (l l' : list CredalNode) : Prop :=
  match l, l' with
  | [], [] => True
  | p :: l1, p' :: l1' => widens p p' /\ widens_all l1 l1'
  | _, _ => False
  end.

(** The weight an extreme distribution gives a state, and the joint
    probability of lines 78-80 as a plain product. *)
Definition weight (d : list (state * Q)) (s : state) : Q :=
  match dict_get String.eqb d s with
  | Some w => w
  | None => 0
  end.

Definition prob_pure (combo : list (list (state * Q))) (a : list state) : Q :=
  fold_left (fun p '(d, st) => p * weight d st) (combine combo a) 1.

Definition sumQ (xs : list Q) : Q := fold_right Qplus 0 xs.

(** The extreme points with plain division. *)
Definition norm_pure (d : list (state * Q)) : list (state * Q) :=
  let total := py_sum (values d) in
  if gt0 total then map (fun '(s, v) => (s, v / total)) d else d.

Definition extremes_pure (pm : marginal) : list (list (state * Q)) :=
  map (fun choice => norm_pure (combine (keys pm) choice))
      (product (map (fun '(l, u) => [l; u]) (values pm))).

Definition entry_at (tbl : table) (a : list state) : marginal :=
  match dict_get tuple_eqb tbl a with
  | Some e => e
  | None => []
  end.

Definition low_at (e : marginal) (s : state) : Q :=
  match dict_get String.eqb e s with
  | Some (l, _) => l
  | None => 0
  end.

Definition high_at (e : marginal) (s : state) : Q :=
  match dict_get String.eqb e s with
  | Some (_, h) => h
  | None => 0
  end.

(** Everything the loops of lines 75-87 visit: the joint probability and
    the table entry of every assignment under every combination. *)
Definition visits (tbl : table) (pms : list marginal) : list (Q * marginal) :=
  flat_map (fun combo =>
              map (fun a => (prob_pure combo a, entry_at tbl a))
                  (product (map keys combo)))
           (product (map extremes_pure pms)).

Definition lowvals (tbl : table) (pms : list marginal) (s : state) : list Q :=
  map (fun x => fst x * low_at (snd x) s) (visits tbl pms).

Definition highvals (tbl : table) (pms : list marginal) (s : state) : list Q :=
  map (fun x => fst x * high_at (snd x) s) (visits tbl pms).

(** The least of the values, or 0 when there is none. *)
Definition low_spec (vals : list Q) (l : Q) : Prop :=
  (vals = [] /\ l = 0) \/ (In l vals /\ forall x, In x vals -> l <= x).

(** The greatest of the values, or 1 when there is none. *)
Definition high_spec (vals : list Q) (h : Q) : Prop :=
  (vals = [] /\ h = 1) \/ (In h vals /\ forall x, In x vals -> x <= h).

(** One visit of lines 84-87: every state of the node. *)
Definition visit_item (node_states : list state) (b : bounds)
           (x : Q * marginal) : result bounds :=
  foldM (update_bounds (snd x) (fst x)) node_states b.

(** An accumulator against the values seen so far. *)
Definition min_acc (vals : list Q) (o : option Q) : Prop :=
  match o with
  | None => vals = []
  | Some v => In v vals /\ forall x, In x vals -> v <= x
  end.

Definition max_acc (vals : list Q) (o : option Q) : Prop :=
  match o with
  | None => vals = []
  | Some v => In v vals /\ forall x, In x vals -> x <= v
  end.

(** A table entry whose intervals are all points, and the point
    distribution it stands for. *)
Definition degenerate_entry (e : marginal) : Prop :=
  forall s l h, In (s, (l, h)) e -> l == h.

Definition degenerate_table (tbl : table) : Prop :=
  forall k e, In (k, e) tbl -> degenerate_entry e.

Fixpoint degenerate_node (node : CredalNode) : Prop :=
  match node with
  | mkNode _ ps tbl =>
      degenerate_table tbl /\
      (fix all_degenerate (l : list CredalNode) : Prop :=
         match l with
         | [] => True
         | p :: l' => degenerate_node p /\ all_degenerate l'
         end) ps
  end.

Definition point_dist (e : marginal) : list (state * Q) :=
  map (fun x => (fst x, fst (snd x))) e.

(** Ordinary forward propagation of point probabilities: a root has the
    probabilities of its entry; any other node sums, over the joint parent
    assignments, the product of the parents' probabilities times the
    conditional probability of the table. *)
Fixpoint forward (node : CredalNode) : list (state * Q) :=
  match node with
  | mkNode _ ps tbl =>
      match ps with
      | [] => point_dist (entry_at tbl [])
      | _ :: _ =>
          let pds :=
            (fix all_forward (l : list CredalNode) : list (list (state * Q)) :=
               match l with
               | [] => []
               | p :: l' => forward p :: all_forward l'
               end) ps in
          map (fun s =>
                 (s, sumQ (map (fun a => prob_pure pds a
                                         * low_at (entry_at tbl a) s)
                               (product (map keys pds)))))
              (states_of node)
      end
  end.

(** A three-node chain: a root, its only child, and that child's only
    child. *)
Definition is_chain (A B C : CredalNode) : Prop :=
  parents A = [] /\ parents B = [A] /\ parents C = [B].

(** The joint parent assignments that the loops of lines 75-77 run through,
    when the computation gets that far. *)
Definition enumerated_assignments (node : CredalNode)
  : result (list (list state)) :=
  parent_marginals <- snd (parent_marginals_of (parents node)) ;;
  _ <- first_entry_states (credal_table node) ;;
  parent_extreme_options <- mapM extreme_points parent_marginals ;;
  OK (flat_map (fun combo => product (map keys combo))
               (product parent_extreme_options)).

End Credal.

(** * dempster_shafer.py *)

Module DempsterShafer.

(** A focal element is a tuple of labels; a mass function maps focal
    elements to weights. *)
Definition focal : Type := list string.
Definition mass : Type := list (focal * Q).

Definition mem (x : string) (xs : list string) : bool :=
  existsb (String.eqb x) xs.

(** [sorted(...)] on strings, by insertion. *)
Fixpoint insert_sorted (x : string) (xs : list string) : list string :=
  match xs with
  | [] => [x]
  | y :: ys => if String.leb x y then x :: xs else y :: insert_sorted x ys
  end.

Definition sorted (xs : list string) : list string :=
  fold_right insert_sorted [] xs.

(** [set(k)]: the distinct labels of a tuple. *)
Fixpoint distinct (xs : list string) : list string :=
  match xs with
  | [] => []
  | x :: xs' => if mem x xs' then distinct xs' else x :: distinct xs'
  end.

(** [tuple(sorted(set(k1) & set(k2)))]. *)
Definition intersect (k1 k2 : focal) : focal :=
  sorted (filter (fun x => mem x k2) (distinct k1)).

(** [combined.get(k, 0.0)]. *)
Definition get_or_zero (d : mass) (k : focal) : Q :=
  match dict_get tuple_eqb d k with
  | Some v => v
  | None => 0
  end.

(** Lines 26-30: one pair of focal elements. *)
Definition combine_step (acc : mass * Q) (p : (focal * Q) * (focal * Q))
  : mass * Q :=
  let '(combined, conflict) := acc in
  let '((k1, v1), (k2, v2)) := p in
  let i := intersect k1 k2 in
  match i with
  | [] => (combined, conflict + v1 * v2)
  | _ :: _ =>
      (setitem tuple_eqb combined i (get_or_zero combined i + v1 * v2),
       conflict)
  end.

(** Lines 22-30: the unnormalized combination and the conflict mass. *)
Definition accumulate (m1 m2 : mass) : mass * Q :=
  fold_left combine_step (list_prod m1 m2) ([], 0).

Definition total_conflict_msg : string :=
  "Total conflict: cannot combine (K = 1).".

(** [combine_mass]: Dempster's rule. *)
Definition combine_mass (m1 m2 : mass) : result mass :=
  let '(combined, conflict) := accumulate m1 m2 in
  if lt1 conflict
  then mapM (fun '(k, v) => q <- py_div v (1 - conflict) ;; OK (k, q))
            combined
  else Raise (ValueError total_conflict_msg).

(** [marginalize_mass]. *)
Definition marginalize_mass (m : mass) (target_vars : list string) : mass :=
  fold_left
    (fun marginalized '(subset, w) =>
       let proj := filter (fun v => mem v target_vars) subset in
       setitem tuple_eqb marginalized proj (get_or_zero marginalized proj + w))
    m [].

(** [belief]: the mass of the focal elements included in [A]. *)
Definition belief (m : mass) (A : list string) : Q :=
  fold_left
    (fun bel '(subset, w) =>
       if forallb (fun x => mem x A) subset then bel + w else bel)
    m 0.

(** [plausibility]: the mass of the focal elements that meet [A]. *)
Definition plausibility (m : mass) (A : list string) : Q :=
  fold_left
    (fun pl '(subset, w) =>
       if existsb (fun x => mem x A) subset then pl + w else pl)
    m 0.

(** The local [propagate] of [medical_diagnosis_example]: the symptom mass
    scaled by the belief that the disease is present. *)
Definition propagate (m_disease m_symptom : mass) (disease_present : string)
  : mass :=
  let scale := belief m_disease [disease_present] in
  fold_left (fun propagated '(subset, w) =>
               setitem tuple_eqb propagated subset (w * scale))
            m_symptom [].

Definition m_flu : mass :=
  [(["Flu"], 1#10); (["No Flu"], 8#10); (["Flu"; "No Flu"], 1#10)].
Definition m_cold : mass :=
  [(["Cold"], 2#10); (["No Cold"], 7#10); (["Cold"; "No Cold"], 1#10)].
Definition m_fever_given_flu : mass :=
  [(["Fever"], 7#10); (["No Fever"], 2#10); (["Fever"; "No Fever"], 1#10)].

(** ** Notions used to state the properties *)

Definition nonneg_mass (m : mass) : Prop :=
  forall k v, In (k, v) m -> 0 <= v.

(** A mass function: non-negative weights that sum to 1. *)
Definition valid_mass (m : mass) : Prop :=
  nonneg_mass m /\ py_sum (values m) == 1.

(** No mass on the empty focal element. *)
Definition no_empty_mass (m : mass) : Prop :=
  forall v, In ([], v) m -> v == 0.

(** The product of the two weights of a pair of items. *)
Definition pair_weight (p : (focal * Q) * (focal * Q)) : Q :=
  snd (fst p) * snd (snd p).

End DempsterShafer.

(** * credal.py over binary64

    The same functions with Python's floats as IEEE 754 binary64 numbers
    (the kernel's primitive floats), to evaluate the program where rounding
    decides. [float('inf')] and [float('-inf')] are the floats themselves.
    Sums are taken left to right from 0; on one or two values this is also
    what a compensated [sum] returns. *)

Module CredalBinary64.
Import PrimFloat.

Definition interval : Type := (float * float)%type.
Definition marginal : Type := list (state * interval).
Definition table : Type := list (list state * marginal).

Unset Elimination Schemes.
Inductive CredalNode : Type :=
  mkNode (name : string) (parents : list CredalNode) (credal_table : table).
Set Elimination Schemes.

Definition name (n : CredalNode) : string :=
  match n with mkNode nm _ _ => nm end.
Definition parents (n : CredalNode) : list CredalNode :=
  match n with mkNode _ ps _ => ps end.
Definition credal_table (n : CredalNode) : table :=
  match n with mkNode _ _ t => t end.

(** [sum(xs)]. *)
Definition py_sum (xs : list float) : float := fold_left add xs zero.

(** [a / b]: raises [ZeroDivisionError] on a zero divisor. *)
Definition py_div (a b : float) : result float :=
  if eqb b zero then Raise ZeroDivisionError else OK (div a b).

(** [min(a, b)] and [max(a, b)]: the first argument unless the second is
    strictly smaller (larger). *)
Definition py_min (a b : float) : float := if ltb b a then b else a.
Definition py_max (a b : float) : float := if ltb a b then b else a.

(** Lines 64-67. *)
Definition normalize (extreme_dict : list (state * float))
  : result (list (state * float)) :=
  let total := py_sum (values extreme_dict) in
  if ltb zero total
  then mapM (fun '(s, v) => q <- py_div v total ;; OK (s, q)) extreme_dict
  else OK extreme_dict.

(** Lines 60-69. *)
Definition extreme_points (pm : marginal)
  : result (list (list (state * float))) :=
  let states := keys pm in
  mapM (fun choice => normalize (combine states choice))
       (product (map (fun '(l, u) => [l; u]) (values pm))).

(** Lines 78-80. *)
Definition joint_prob (parent_extremes_combo : list (list (state * float)))
           (parent_assignment : list state) : result float :=
  foldM (fun prob '(d, st) => w <- getitem String.eqb d st ;; OK (mul prob w))
        (combine parent_extremes_combo parent_assignment) one.

Definition bounds : Type :=
  (list (state * float) * list (state * float))%type.

(** Lines 85-87. *)
Definition update_bounds (credal_entry : marginal) (prob : float)
           (b : bounds) (st : state) : result bounds :=
  let '(lower_bounds, upper_bounds) := b in
  '(low, high) <- getitem String.eqb credal_entry st ;;
  lb <- getitem String.eqb lower_bounds st ;;
  let lower_bounds :=
    setitem String.eqb lower_bounds st
      (if negb (eqb lb infinity) then py_min lb (mul prob low)
       else mul prob low) in
  ub <- getitem String.eqb upper_bounds st ;;
  let upper_bounds :=
    setitem String.eqb upper_bounds st
      (if negb (eqb ub neg_infinity) then py_max ub (mul prob high)
       else mul prob high) in
  OK (lower_bounds, upper_bounds).

(** Lines 78-87. *)
Definition visit_assignment (credal_table : table) (node_states : list state)
           (parent_extremes_combo : list (list (state * float)))
           (b : bounds) (parent_assignment : list state) : result bounds :=
  prob <- joint_prob parent_extremes_combo parent_assignment ;;
  credal_entry <- getitem tuple_eqb credal_table parent_assignment ;;
  foldM (update_bounds credal_entry prob) node_states b.

(** Lines 77-87. *)
Definition visit_combo (credal_table : table) (node_states : list state)
           (b : bounds) (parent_extremes_combo : list (list (state * float)))
  : result bounds :=
  foldM (visit_assignment credal_table node_states parent_extremes_combo)
        (product (map keys parent_extremes_combo)) b.

(** Line 53. *)
Definition first_entry_states (credal_table : table) : result (list state) :=
  match credal_table with
  | [] => Raise StopIteration
  | (_, entry) :: _ => OK (keys entry)
  end.

(** Lines 93-104. *)
Definition finalize (node_states : list state) (b : bounds)
  : result marginal :=
  let '(lower_bounds, upper_bounds) := b in
  mapM (fun s =>
          lb <- getitem String.eqb lower_bounds s ;;
          ub <- getitem String.eqb upper_bounds s ;;
          OK (s, (if eqb lb infinity then zero else lb,
                  if eqb ub neg_infinity then one else ub)))
       node_states.

(** Lines 55-56. *)
Definition initial_bounds (node_states : list state) : bounds :=
  (map (fun s => (s, infinity)) node_states,
   map (fun s => (s, neg_infinity)) node_states).

(** Lines 52-104. *)
Definition node_marginal (credal_table : table)
           (parent_marginals : list marginal) : result marginal :=
  node_states <- first_entry_states credal_table ;;
  parent_extreme_options <- mapM extreme_points parent_marginals ;;
  b <- foldM (visit_combo credal_table node_states)
             (product parent_extreme_options)
             (initial_bounds node_states) ;;
  finalize node_states b.

(** [compute_marginal_extreme], the marginal or the exception. *)
Fixpoint compute_marginal_extreme (node : CredalNode) : result marginal :=
  match node with
  | mkNode nm ps tbl =>
      match ps with
      | [] =>
          entry <- getitem tuple_eqb tbl [] ;;
          OK (map (fun '(st, (low, high)) => (st, (low, high))) entry)
      | _ :: _ =>
          parent_marginals <-
            (fix all_parents (l : list CredalNode)
               : result (list marginal) :=
               match l with
               | [] => OK []
               | p :: l' =>
                   pm <- compute_marginal_extreme p ;;
                   pms <- all_parents l' ;;
                   OK (pm :: pms)
               end) ps ;;
          node_marginal tbl parent_marginals
      end
  end.

(** ** Valid tables and widening, as checks *)

Definition valid_interval (iv : interval) : bool :=
  leb zero (fst iv) && leb (fst iv) (snd iv) && leb (snd iv) one.

Definition valid_table (tbl : table) : bool :=
  forallb (fun x => forallb (fun y => valid_interval (snd y)) (snd x)) tbl.

Fixpoint valid_tables (node : CredalNode) : bool :=
  match node with
  | mkNode _ ps tbl =>
      valid_table tbl &&
      (fix all_valid (l : list CredalNode) : bool :=
         match l with
         | [] => true
         | p :: l' => valid_tables p && all_valid l'
         end) ps
  end.

Fixpoint same_shape {A B} (f : A -> B -> bool) (xs : list A) (ys : list B)
  : bool :=
  match xs, ys with
  | [], [] => true
  | x :: xs', y :: ys' => f x y && same_shape f xs' ys'
  | _, _ => false
  end.

(** The same states, every interval of [e'] at least as wide. *)
Definition widens_entry (e e' : marginal) : bool :=
  same_shape (fun x x' =>
                String.eqb (fst x) (fst x') &&
                leb (fst (snd x')) (fst (snd x)) &&
                leb (snd (snd x)) (snd (snd x')))
             e e'.

Definition widens_table (t t' : table) : bool :=
  same_shape (fun x x' =>
                tuple_eqb (fst x) (fst x') && widens_entry (snd x) (snd x'))
             t t'.

Fixpoint widens (n n' : CredalNode) : bool :=
  match n, n' with
  | mkNode nm ps tbl, mkNode nm' ps' tbl' =>
      String.eqb nm nm' && widens_table tbl tbl' &&
      (fix all_widen (l l' : list CredalNode) : bool :=
         match l, l' with
         | [], [] => true
         | p :: l1, p' :: l1' => widens p p' && all_widen l1 l1'
         | _, _ => false
         end) ps ps'
  end.

(** ** A parent whose widening narrows its child *)

(** 1 - 2^-53 and 1.5 * 2^-53. *)
Definition just_below_one : float := 0x1.fffffffffffffp-1%float.
Definition tiny : float := 0x1.8p-53%float.

Definition parent_narrow : CredalNode :=
  mkNode "P" []
    [([], [("s", (just_below_one, just_below_one)); ("t", (tiny, tiny))])].

Definition parent_wide : CredalNode :=
  mkNode "P" []
    [([], [("s", (0.5%float, one)); ("t", (tiny, tiny))])].

Definition child_table : table :=
  [(["s"], [("c", (one, one))]);
   (["t"], [("c", (zero, zero))])].

Definition child_narrow : CredalNode := mkNode "N" [parent_narrow] child_table.
Definition child_wide : CredalNode := mkNode "N" [parent_wide] child_table.

End CredalBinary64.

(** * dempster_shafer.py over binary64

    [combine_mass] with Python's floats as binary64 numbers: the products,
    the two running sums, the test [conflict < 1] and the division by
    [1 - conflict] are the floating-point operations, in the order the
    source performs them. *)

Module DempsterShaferBinary64.
Import PrimFloat.

Definition focal : Type := DempsterShafer.focal.
Definition mass : Type := list (focal * float).

(** [combined.get(k, 0.0)]. *)
Definition get_or_zero (d : mass) (k : focal) : float :=
  match dict_get tuple_eqb d k with
  | Some v => v
  | None => zero
  end.

(** Lines 26-30: one pair of focal elements. *)
Definition combine_step (acc : mass * float)
           (p : (focal * float) * (focal * float)) : mass * float :=
  let '(combined, conflict) := acc in
  let '((k1, v1), (k2, v2)) := p in
  let i := DempsterShafer.intersect k1 k2 in
  match i with
  | [] => (combined, add conflict (mul v1 v2))
  | _ :: _ =>
      (setitem tuple_eqb combined i (add (get_or_zero combined i) (mul v1 v2)),
       conflict)
  end.

(** Lines 22-30: the unnormalized combination and the conflict mass. *)
Definition accumulate (m1 m2 : mass) : mass * float :=
  fold_left combine_step (list_prod m1 m2) ([], zero).

(** [combine_mass]: Dempster's rule. *)
Definition combine_mass (m1 m2 : mass) : result mass :=
  let '(combined, conflict) := accumulate m1 m2 in
  if ltb conflict one
  then mapM (fun '(k, v) =>
               q <- CredalBinary64.py_div v (sub one conflict) ;; OK (k, q))
            combined
  else Raise (ValueError DempsterShafer.total_conflict_msg).

(** The masses of lines 89-90. *)
Definition m_flu : mass :=
  [(["Flu"], 0x1.999999999999ap-4%float);
   (["No Flu"], 0x1.999999999999ap-1%float);
   (["Flu"; "No Flu"], 0x1.999999999999ap-4%float)].
Definition m_cold : mass :=
  [(["Cold"], 0x1.999999999999ap-3%float);
   (["No Cold"], 0x1.6666666666666p-1%float);
   (["Cold"; "No Cold"], 0x1.999999999999ap-4%float)].

(** ** What Dempster's rule is to compute *)

(** The product of the two weights of a pair of items. *)
Definition pair_weight (p : (focal * float) * (focal * float)) : float :=
  mul (snd (fst p)) (snd (snd p)).

(** The intersection of the two focal elements of a pair of items. *)
Definition meet (p : (focal * float) * (focal * float)) : focal :=
  DempsterShafer.intersect (fst (fst p)) (fst (snd p)).

Definition is_empty (k : focal) : bool :=
  match k with [] => true | _ :: _ => false end.

(** The conflict: the products of the pairs with an empty intersection,
    added one by one to 0.0 in the order of
    [product(m1.items(), m2.items())]. *)
Definition conflict_mass (m1 m2 : mass) : float :=
  fold_left add
    (map pair_weight (filter (fun p => is_empty (meet p)) (list_prod m1 m2)))
    zero.

(** The products of the pairs whose intersection is [k], added one by one
    to 0.0 in the same order. *)
Definition mass_on (k : focal) (m1 m2 : mass) : float :=
  fold_left add
    (map pair_weight (filter (fun p => tuple_eqb (meet p) k) (list_prod m1 m2)))
    zero.

(** [k] is the non-empty intersection of some pair. *)
Definition focal_of (k : focal) (m1 m2 : mass) : bool :=
  negb (is_empty k)
  && existsb (fun p => tuple_eqb (meet p) k) (list_prod m1 m2).

End DempsterShaferBinary64.

Import Credal.

(** * Properties *)

(** ** The exception monad and the loops *)

Lemma bind_OK {A B} (c : result A) (f : A -> result B) (b : B) :
  bind c f = OK b -> exists a, c = OK a /\ f a = OK b.
Proof. destruct c as [a|e]; simpl; [eauto | discriminate]. Qed.

Ltac inv_bind H :=
  let a := fresh "a" in
  let Ha := fresh "Ha" in
  apply bind_OK in H; destruct H as [a [Ha H]].

Lemma foldM_app {A S} (body : S -> A -> result S) xs ys s :
  foldM body (xs ++ ys) s = (s' <- foldM body xs s ;; foldM body ys s').
Proof.
  revert s; induction xs as [|x xs IH]; intros s; simpl; [reflexivity|].
  destruct (body s x); simpl; [apply IH | reflexivity].
Qed.

Lemma foldM_flat_map {A B S} (body : S -> B -> result S) (f : A -> list B)
      xs s :
  foldM body (flat_map f xs) s = foldM (fun s x => foldM body (f x) s) xs s.
Proof.
  revert s; induction xs as [|x xs IH]; intros s; simpl; [reflexivity|].
  rewrite foldM_app. destruct (foldM body (f x) s); simpl; auto.
Qed.

Lemma foldM_map {A B S} (body : S -> B -> result S) (f : A -> B) xs s :
  foldM body (map f xs) s = foldM (fun s x => body s (f x)) xs s.
Proof.
  revert s; induction xs as [|x xs IH]; intros s; simpl; [reflexivity|].
  destruct (body s (f x)); simpl; auto.
Qed.

Lemma foldM_ext_in {A S} (f g : S -> A -> result S) xs s :
  (forall s x, In x xs -> f s x = g s x) -> foldM f xs s = foldM g xs s.
Proof.
  revert s; induction xs as [|x xs IH]; intros s H; simpl; [reflexivity|].
  rewrite (H s x (or_introl eq_refl)).
  destruct (g s x); simpl; [apply IH; intros; apply H; right; assumption|].
  reflexivity.
Qed.

(** A loop whose body can only raise [e], and does raise it at one of the
    elements whatever the state, raises [e]. *)
Lemma foldM_raises {A S} (body : S -> A -> result S) (e : exn) xs x s :
  (forall s y, (exists s', body s y = OK s') \/ body s y = Raise e) ->
  In x xs -> (forall s, body s x = Raise e) ->
  foldM body xs s = Raise e.
Proof.
  intros Hall Hin Hx. revert s.
  induction xs as [|y xs IH]; intros s; [destruct Hin|].
  simpl. destruct Hin as [->|Hin].
  - rewrite Hx. reflexivity.
  - destruct (Hall s y) as [[s' ->]| ->]; simpl; auto.
Qed.

Lemma foldM_only_raises {A S} (body : S -> A -> result S) (e : exn) xs s :
  (forall s y, (exists s', body s y = OK s') \/ body s y = Raise e) ->
  (exists s', foldM body xs s = OK s') \/ foldM body xs s = Raise e.
Proof.
  intros Hall. revert s.
  induction xs as [|y xs IH]; intros s; simpl; [left; eauto|].
  destruct (Hall s y) as [[s' ->]| ->]; simpl; auto.
Qed.

Lemma mapM_OK_Forall2 {A B} (f : A -> result B) xs ys :
  mapM f xs = OK ys -> Forall2 (fun x y => f x = OK y) xs ys.
Proof.
  revert ys; induction xs as [|x xs IH]; intros ys H; simpl in H.
  - injection H as <-. constructor.
  - inv_bind H. inv_bind H. injection H as <-. constructor; auto.
Qed.

Lemma mapM_total {A B} (f : A -> result B) xs :
  (forall x, In x xs -> exists y, f x = OK y) ->
  exists ys, mapM f xs = OK ys.
Proof.
  induction xs as [|x xs IH]; intros H; simpl; [eauto|].
  destruct (H x (or_introl eq_refl)) as [y ->]. simpl.
  destruct IH as [ys ->]; [intros; apply H; right; assumption|].
  simpl. eauto.
Qed.

Lemma mapM_pure {A B} (f : A -> result B) (g : A -> B) xs :
  (forall x, In x xs -> f x = OK (g x)) -> mapM f xs = OK (map g xs).
Proof.
  induction xs as [|x xs IH]; intros H; simpl; [reflexivity|].
  rewrite (H x (or_introl eq_refl)). simpl.
  rewrite IH; [reflexivity | intros; apply H; right; assumption].
Qed.

(** ** Dictionaries *)

Lemma tuple_eqb_eq a b : tuple_eqb a b = true <-> a = b.
Proof.
  revert b; induction a as [|x a IH]; intros [|y b]; simpl;
    try (split; [discriminate | discriminate || congruence]);
    try (split; congruence).
  rewrite andb_true_iff, String.eqb_eq, IH. split.
  - intros [-> ->]; reflexivity.
  - intros H; injection H; auto.
Qed.

Lemma tuple_eqb_refl a : tuple_eqb a a = true.
Proof. apply tuple_eqb_eq; reflexivity. Qed.

Section DictFacts.
Context {K V : Type} (eqb : K -> K -> bool).
Hypothesis eqb_eq : forall a b, eqb a b = true <-> a = b.

Lemma eqb_refl' a : eqb a a = true.
Proof. apply eqb_eq; reflexivity. Qed.

Lemma eqb_neq a b : a <> b -> eqb a b = false.
Proof.
  intros H. destruct (eqb a b) eqn:E; [|reflexivity].
  apply eqb_eq in E. contradiction.
Qed.

Lemma dict_get_In (d : list (K * V)) k v :
  dict_get eqb d k = Some v -> In (k, v) d.
Proof.
  induction d as [|[k' v'] d IH]; simpl; [discriminate|].
  destruct (eqb k' k) eqn:E.
  - apply eqb_eq in E. subst. intros H; injection H as ->. left; reflexivity.
  - intros H; right; auto.
Qed.

Lemma dict_get_keys (d : list (K * V)) k :
  In k (keys d) -> exists v, dict_get eqb d k = Some v.
Proof.
  induction d as [|[k' v'] d IH]; simpl; [intros []|].
  intros H. destruct (eqb k' k) eqn:E; [eauto|].
  destruct H as [H|H]; [subst; rewrite eqb_refl' in E; discriminate|auto].
Qed.

Lemma dict_get_None (d : list (K * V)) k :
  dict_get eqb d k = None -> ~ In k (keys d).
Proof.
  intros H Hin. apply dict_get_keys in Hin. destruct Hin as [v Hv].
  congruence.
Qed.

Lemma dict_get_Some_keys (d : list (K * V)) k v :
  dict_get eqb d k = Some v -> In k (keys d).
Proof.
  intros H. apply dict_get_In in H. apply (in_map fst) in H. exact H.
Qed.

Lemma get_set_same (d : list (K * V)) k v :
  dict_get eqb (setitem eqb d k v) k = Some v.
Proof.
  induction d as [|[k' v'] d IH]; simpl.
  - rewrite eqb_refl'. reflexivity.
  - destruct (eqb k' k) eqn:E; simpl; rewrite E; auto.
Qed.

Lemma get_set_other (d : list (K * V)) k k' v :
  k <> k' -> dict_get eqb (setitem eqb d k v) k' = dict_get eqb d k'.
Proof.
  intros Hne. induction d as [|[k0 v0] d IH]; simpl.
  - rewrite eqb_neq; auto.
  - destruct (eqb k0 k) eqn:E; simpl.
    + apply eqb_eq in E. subst k0. rewrite eqb_neq; auto.
    + destruct (eqb k0 k'); auto.
Qed.

Lemma keys_setitem_present (d : list (K * V)) k v :
  In k (keys d) -> keys (setitem eqb d k v) = keys d.
Proof.
  induction d as [|[k0 v0] d IH]; simpl; [intros []|].
  intros H. destruct (eqb k0 k) eqn:E; simpl; [reflexivity|].
  f_equal. apply IH. destruct H as [H|H]; [|assumption].
  subst. rewrite eqb_refl' in E. discriminate.
Qed.
End DictFacts.

Lemma In_product {A} (pools : list (list A)) (xs : list A) :
  In xs (product pools) <-> Forall2 (fun x pool => In x pool) xs pools.
Proof.
  revert xs; induction pools as [|pool rest IH]; intros xs; simpl.
  - split.
    + intros [<-|[]]. constructor.
    + intros H; inversion H; left; reflexivity.
  - rewrite in_flat_map. split.
    + intros [x [Hx Hin]]. apply in_map_iff in Hin.
      destruct Hin as [ys [<- Hys]]. constructor; [assumption|].
      apply IH; assumption.
    + intros H; inversion H as [|x pool' ys rest' Hx Hys]; subst.
      exists x. split; [assumption|]. apply in_map. apply IH; assumption.
Qed.

(** ** The structure of [compute_marginal_extreme] *)

Section NodeInduction.
Variable P : CredalNode -> Prop.
Hypothesis step : forall nm ps tbl, Forall P ps -> P (mkNode nm ps tbl).

Fixpoint CredalNode_ind (n : CredalNode) : P n :=
  match n with
  | mkNode nm ps tbl =>
      step nm ps tbl
        ((fix all (l : list CredalNode) : Forall P l :=
            match l with
            | [] => Forall_nil P
            | p :: l' => Forall_cons p (CredalNode_ind p) (all l')
            end) ps)
  end.
End NodeInduction.

Lemma compute_unfold nm ps tbl :
  compute_marginal_extreme (mkNode nm ps tbl) =
  match ps with
  | [] =>
      ([nm],
       entry <- getitem tuple_eqb tbl [] ;;
       OK (map (fun '(st, (low, high)) => (st, (low, high))) entry))
  | _ :: _ =>
      let '(log, r) := parent_marginals_of ps in
      (nm :: log, parent_marginals <- r ;; node_marginal tbl parent_marginals)
  end.
Proof. destruct ps; reflexivity. Qed.

Lemma occurrences_unfold nm nm' ps tbl :
  occurrences nm (mkNode nm' ps tbl) =
  ((if String.eqb nm nm' then 1 else 0) + occurrences_in nm ps)%nat.
Proof.
  simpl. f_equal. induction ps as [|p ps IH]; simpl; congruence.
Qed.

Lemma valid_node_unfold nm ps tbl :
  valid_node (mkNode nm ps tbl) <->
  valid_table tbl /\
  match ps with
  | [] => exists entry, dict_get tuple_eqb tbl [] = Some entry
  | _ :: _ =>
      tbl <> [] /\ covers tbl (map states_of ps) (states_of (mkNode nm ps tbl))
  end /\
  valid_nodes ps.
Proof.
  assert (E : forall l,
    (fix all_valid (l : list CredalNode) : Prop :=
       match l with
       | [] => True
       | p :: l' => valid_node p /\ all_valid l'
       end) l <-> valid_nodes l).
  { induction l as [|p l IH]; simpl; tauto. }
  simpl. rewrite E. tauto.
Qed.

Lemma widens_unfold nm ps tbl nm' ps' tbl' :
  widens (mkNode nm ps tbl) (mkNode nm' ps' tbl') <->
  nm = nm' /\ widens_table tbl tbl' /\ widens_all ps ps'.
Proof.
  assert (E : forall l l',
    (fix all_widen (l l' : list CredalNode) : Prop :=
       match l, l' with
       | [], [] => True
       | p :: l1, p' :: l1' => widens p p' /\ all_widen l1 l1'
       | _, _ => False
       end) l l' <-> widens_all l l').
  { induction l as [|p l IH]; intros [|p' l']; simpl; try tauto.
    all: try (rewrite IH; tauto). }
  simpl. rewrite E. tauto.
Qed.

Lemma copy_entry (entry : marginal) :
  map (fun '(st, (low, high)) => (st, (low, high))) entry = entry.
Proof.
  induction entry as [|[st [l h]] e IH]; simpl; [reflexivity|].
  rewrite IH. reflexivity.
Qed.

(** ** Rational arithmetic *)

Lemma gt0_true x : gt0 x = true <-> 0 < x.
Proof.
  unfold gt0. rewrite Qlt_alt. destruct (0 ?= x); split; congruence.
Qed.

Lemma gt0_false x : gt0 x = false <-> x <= 0.
Proof.
  split; intros H.
  - apply Qnot_lt_le. intros Hlt. apply gt0_true in Hlt. congruence.
  - destruct (gt0 x) eqn:E; [|reflexivity].
    apply gt0_true in E. apply Qlt_not_le in E. contradiction.
Qed.

Lemma lt1_true x : lt1 x = true <-> x < 1.
Proof.
  unfold lt1. rewrite Qlt_alt. destruct (x ?= 1); split; congruence.
Qed.

Lemma lt1_false x : lt1 x = false <-> 1 <= x.
Proof.
  split; intros H.
  - apply Qnot_lt_le. intros Hlt. apply lt1_true in Hlt. congruence.
  - destruct (lt1 x) eqn:E; [|reflexivity].
    apply lt1_true in E. apply Qlt_not_le in E. contradiction.
Qed.

Lemma py_div_pos a b : 0 < b -> py_div a b = OK (a / b).
Proof.
  intros H. unfold py_div.
  destruct (Qeq_bool b 0) eqn:E; [|reflexivity].
  apply Qeq_bool_iff in E. rewrite E in H. apply Qlt_irrefl in H. contradiction.
Qed.

Lemma fold_left_Qplus xs a : fold_left Qplus xs a == a + sumQ xs.
Proof.
  revert a; induction xs as [|x xs IH]; intros a; simpl.
  - ring.
  - rewrite IH. ring.
Qed.

Lemma py_sum_sumQ xs : py_sum xs == sumQ xs.
Proof. unfold py_sum. rewrite fold_left_Qplus. ring. Qed.

Lemma sumQ_nonneg xs : (forall x, In x xs -> 0 <= x) -> 0 <= sumQ xs.
Proof.
  induction xs as [|x xs IH]; intros H; simpl; [apply Qle_refl|].
  assert (0 <= x) by (apply H; left; reflexivity).
  assert (0 <= sumQ xs) by (apply IH; intros; apply H; right; assumption).
  lra.
Qed.

Lemma sumQ_zero xs :
  (forall x, In x xs -> 0 <= x) -> sumQ xs == 0 ->
  forall x, In x xs -> x == 0.
Proof.
  induction xs as [|y xs IH]; intros Hnn Hs x Hin; [destruct Hin|].
  simpl in Hs.
  assert (0 <= y) by (apply Hnn; left; reflexivity).
  assert (0 <= sumQ xs)
    by (apply sumQ_nonneg; intros; apply Hnn; right; assumption).
  destruct Hin as [<-|Hin]; [lra|].
  apply IH; auto; [intros; apply Hnn; right; assumption | lra].
Qed.

Lemma sumQ_app xs ys : sumQ (xs ++ ys) == sumQ xs + sumQ ys.
Proof.
  induction xs as [|x xs IH]; simpl; [ring | rewrite IH; ring].
Qed.

(** ** Extreme points never fail *)

Lemma normalize_total d : exists d', normalize d = OK d'.
Proof.
  unfold normalize. destruct (gt0 (py_sum (values d))) eqn:E; [|eauto].
  apply gt0_true in E. apply mapM_total. intros [s v] _.
  rewrite py_div_pos by assumption. simpl. eauto.
Qed.

Lemma extreme_points_total pm : exists exts, extreme_points pm = OK exts.
Proof.
  unfold extreme_points. apply mapM_total. intros choice _.
  apply normalize_total.
Qed.

Lemma values_combine {A B} (xs : list A) (ys : list B) :
  List.length xs = List.length ys -> values (combine xs ys) = ys.
Proof.
  revert ys; induction xs as [|x xs IH]; intros [|y ys] H; simpl in *;
    try discriminate; [reflexivity|].
  f_equal. apply IH. lia.
Qed.

Lemma keys_combine {A B} (xs : list A) (ys : list B) :
  List.length xs = List.length ys -> keys (combine xs ys) = xs.
Proof.
  revert ys; induction xs as [|x xs IH]; intros [|y ys] H; simpl in *;
    try discriminate; [reflexivity|].
  f_equal. apply IH. lia.
Qed.

Lemma corner_length (pm : marginal) choice :
  In choice (product (map (fun '(l, u) => [l; u]) (values pm))) ->
  List.length choice = List.length pm.
Proof.
  intros H. apply In_product in H. apply Forall2_length in H.
  unfold values in H. rewrite !length_map in H. exact H.
Qed.

(** ** Joint probabilities *)

Lemma joint_prob_from combo a acc :
  Forall2 (fun d s => In s (keys d)) combo a ->
  foldM (fun prob '(d, st) => w <- getitem String.eqb d st ;; OK (prob * w))
        (combine combo a) acc
  = OK (fold_left (fun p '(d, st) => p * weight d st) (combine combo a) acc).
Proof.
  intros H. revert acc. induction H as [|d s combo a Hs H IH]; intros acc.
  - reflexivity.
  - simpl. unfold getitem, weight.
    destruct (dict_get_keys String.eqb String.eqb_eq d s Hs) as [w ->].
    simpl. apply IH.
Qed.

Lemma joint_prob_pure combo a :
  Forall2 (fun d s => In s (keys d)) combo a ->
  joint_prob combo a = OK (prob_pure combo a).
Proof. apply joint_prob_from. Qed.

Lemma enumerated_assignment_keys (combo : list (list (state * Q)))
      (a : list state) :
  In a (product (map keys combo)) ->
  Forall2 (fun d s => In s (keys d)) combo a.
Proof.
  intros H. apply In_product in H.
  remember (map (@keys state Q) combo) as ks eqn:E. revert combo E.
  induction H as [|s k a ks Hs H IH]; intros [|d combo] E;
    simpl in E; try discriminate; [constructor|].
  injection E as -> ->. constructor; auto.
Qed.

Lemma prob_from_zero l acc :
  acc == 0 ->
  fold_left (fun p '(d, st) => p * weight d st) l acc == 0.
Proof.
  revert acc; induction l as [|[d s] l IH]; intros acc H; simpl; [exact H|].
  apply IH. rewrite H. ring.
Qed.

Lemma prob_zero_factor combo a d acc :
  Forall2 (fun d s => In s (keys d)) combo a ->
  In d combo -> (forall s, weight d s == 0) ->
  fold_left (fun p '(d, st) => p * weight d st) (combine combo a) acc == 0.
Proof.
  intros H. revert acc. induction H as [|d0 s combo a Hs H IH];
    intros acc Hin Hz; [destruct Hin|].
  simpl. destruct Hin as [->|Hin].
  - apply prob_from_zero. rewrite Hz. ring.
  - apply IH; assumption.
Qed.

Lemma weight_In d s : weight d s = 0 \/ In (weight d s) (values d).
Proof.
  unfold weight. destruct (dict_get String.eqb d s) as [w|] eqn:E; [|auto].
  right. apply (dict_get_In String.eqb String.eqb_eq) in E.
  apply (in_map snd) in E. exact E.
Qed.

(** ** The call log *)

Lemma count_app nm l1 l2 :
  count nm (l1 ++ l2) = (count nm l1 + count nm l2)%nat.
Proof. unfold count. rewrite filter_app, length_app. reflexivity. Qed.

Lemma parents_log nm ps :
  Forall (fun p => forall m, snd (compute_marginal_extreme p) = OK m ->
                   count nm (fst (compute_marginal_extreme p))
                   = occurrences nm p) ps ->
  forall pms, snd (parent_marginals_of ps) = OK pms ->
  count nm (fst (parent_marginals_of ps)) = occurrences_in nm ps.
Proof.
  induction 1 as [|p ps Hp Hps IH]; intros pms H; [reflexivity|].
  simpl in *. destruct (compute_marginal_extreme p) as [log1 [pm|e]];
    [|discriminate].
  destruct (parent_marginals_of ps) as [log2 [pms2|e]]; [|discriminate].
  simpl in *. rewrite count_app, (Hp pm eq_refl), (IH pms2 eq_refl).
  reflexivity.
Qed.

Lemma compute_log nm node :
  forall m, snd (compute_marginal_extreme node) = OK m ->
  count nm (fst (compute_marginal_extreme node)) = occurrences nm node.
Proof.
  induction node as [nm' ps tbl IH] using CredalNode_ind. intros m H.
  rewrite occurrences_unfold. rewrite compute_unfold in *.
  destruct ps as [|p ps].
  { unfold count. simpl. destruct (String.eqb nm nm'); reflexivity. }
  pose proof (parents_log nm (p :: ps) IH) as Hl.
  destruct (parent_marginals_of (p :: ps)) as [log [pms|e]];
    [|discriminate].
  simpl in Hl |- *. change (nm' :: log) with ([nm'] ++ log).
  rewrite count_app, (Hl pms eq_refl). unfold count. simpl.
  destruct (String.eqb nm nm'); reflexivity.
Qed.

Lemma propagate_from_log nm nodes :
  forall acc m, snd (propagate_from nodes acc) = OK m ->
  count nm (fst (propagate_from nodes acc)) = occurrences_in nm nodes.
Proof.
  induction nodes as [|node rest IH]; intros acc m H; [reflexivity|].
  simpl in *. pose proof (compute_log nm node) as Hn.
  destruct (compute_marginal_extreme node) as [log1 [mg|e]]; [|discriminate].
  specialize (IH (setitem String.eqb acc (name node) mg)).
  destruct (propagate_from rest _) as [log2 r]. simpl in *.
  rewrite count_app, (Hn mg eq_refl), (IH m H). reflexivity.
Qed.

(** ** Which exceptions the enumeration can raise *)

Lemma getitem_cases {K V} (eqb : K -> K -> bool) (d : list (K * V)) k :
  (exists v, getitem eqb d k = OK v) \/ getitem eqb d k = Raise KeyError.
Proof. unfold getitem. destruct (dict_get eqb d k); eauto. Qed.

Lemma joint_prob_cases combo a :
  (exists p, joint_prob combo a = OK p) \/ joint_prob combo a = Raise KeyError.
Proof.
  unfold joint_prob. apply foldM_only_raises. intros p [d st].
  destruct (getitem_cases String.eqb d st) as [[w ->]| ->]; simpl; eauto.
Qed.

Lemma update_bounds_cases entry prob b st :
  (exists b', update_bounds entry prob b st = OK b')
  \/ update_bounds entry prob b st = Raise KeyError.
Proof.
  unfold update_bounds. destruct b as [lo hi].
  destruct (getitem_cases String.eqb entry st) as [[[l h] ->]| ->];
    simpl; [|auto].
  destruct (getitem_cases String.eqb lo st) as [[x ->]| ->]; simpl; [|auto].
  destruct (getitem_cases String.eqb hi st) as [[y ->]| ->]; simpl; eauto.
Qed.

Lemma visit_assignment_cases tbl ns combo b a :
  (exists b', visit_assignment tbl ns combo b a = OK b')
  \/ visit_assignment tbl ns combo b a = Raise KeyError.
Proof.
  unfold visit_assignment.
  destruct (joint_prob_cases combo a) as [[p ->]| ->]; simpl; [|auto].
  destruct (getitem_cases tuple_eqb tbl a) as [[e ->]| ->]; simpl; [|auto].
  apply foldM_only_raises. intros. apply update_bounds_cases.
Qed.

Lemma visit_combo_cases tbl ns b combo :
  (exists b', visit_combo tbl ns b combo = OK b')
  \/ visit_combo tbl ns b combo = Raise KeyError.
Proof.
  unfold visit_combo. apply foldM_only_raises. intros.
  apply visit_assignment_cases.
Qed.

Lemma visit_assignment_missing tbl ns combo b a :
  dict_get tuple_eqb tbl a = None ->
  visit_assignment tbl ns combo b a = Raise KeyError.
Proof.
  intros H. unfold visit_assignment.
  destruct (joint_prob_cases combo a) as [[p ->]| ->]; simpl; [|reflexivity].
  unfold getitem. rewrite H. reflexivity.
Qed.

(** ** Root nodes *)

(** C6 — a node with an empty parent list gets as its marginal exactly its
    credal-table entry keyed by the empty tuple, every (low, high) pair
    unchanged. *)
Theorem root_marginal_is_table_entry (node : CredalNode) (entry : marginal) :
  parents node = [] ->
  dict_get tuple_eqb (credal_table node) [] = Some entry ->
  marginal_of node = OK entry.
Proof.
  destruct node as [nm ps tbl]. simpl. intros -> H.
  unfold marginal_of. rewrite compute_unfold. simpl.
  unfold getitem. rewrite H. simpl. rewrite copy_entry. reflexivity.
Qed.

Lemma root_marginal_is_table_entry_witness :
  marginal_of flu
  = OK [("Present", (5#100, 1#10)); ("Absent", (9#10, 95#100))].
Proof.
  apply (root_marginal_is_table_entry flu); reflexivity.
Defined.

(** ** The medical-diagnosis network *)

(** C1, as stated, fails: the lower bound computed for Fever 'Present' is
    not strictly positive. *)
Lemma fever_present_lower_not_positive :
  ~ (exists all m lo hi,
        snd (propagate medical_network) = OK all /\
        dict_get String.eqb all "Fever" = Some m /\
        dict_get String.eqb m "Present" = Some (lo, hi) /\
        0 < lo /\ hi < 1).
Proof.
  intros (all & m & lo & hi & H1 & H2 & H3 & H4 & _).
  vm_compute in H1. injection H1 as <-.
  vm_compute in H2. injection H2 as <-.
  vm_compute in H3. injection H3 as <- <-.
  vm_compute in H4. discriminate.
Qed.

(** C1, amended — full propagation of the medical-diagnosis network gives
    Fever 'Present' the bounds [0, 0.1615]: they lie within [0, 1] and the
    upper bound is strictly below 1, but the lower bound is exactly 0. *)
Theorem fever_present_bounds :
  exists all m lo hi,
    snd (propagate medical_network) = OK all /\
    dict_get String.eqb all "Fever" = Some m /\
    dict_get String.eqb m "Present" = Some (lo, hi) /\
    lo == 0 /\ hi == 1615 # 10000 /\ lo < hi /\ hi < 1.
Proof.
  do 4 eexists. split; [vm_compute; reflexivity|].
  split; [vm_compute; reflexivity|].
  split; [vm_compute; reflexivity|].
  repeat split; vm_compute; reflexivity.
Qed.

(** ** No memoization *)

(** C3, as stated, fails: in one propagation of the medical-diagnosis
    network the marginal of Flu is computed three times. *)
Lemma flu_computed_three_times :
  ~ (forall (net : CredalNetwork) (nm : string),
        (count nm (fst (propagate net)) <= 1)%nat).
Proof.
  intros H. specialize (H medical_network "Flu").
  vm_compute in H. lia.
Qed.

(** C3, amended — within one [propagate] call that completes, a node is
    computed once for every path of parent links that leads to it from a
    registered node (itself included): nothing is memoized. *)
Theorem propagate_computes_once_per_path
        (net : CredalNetwork) (nm : string) (m : list (string * marginal)) :
  snd (propagate net) = OK m ->
  count nm (fst (propagate net)) = occurrences_in nm (values net).
Proof. unfold propagate. apply propagate_from_log. Qed.

Lemma propagate_computes_once_per_path_witness :
  count "Flu" (fst (propagate medical_network)) = 3%nat.
Proof.
  rewrite (propagate_computes_once_per_path medical_network "Flu"
             (match snd (propagate medical_network) with
              | OK m => m
              | Raise _ => []
              end)).
  - reflexivity.
  - vm_compute. reflexivity.
Defined.

(** ** Missing table entries *)

(** C7 — when the enumeration of a non-root node reaches a joint parent
    assignment that the node's table lacks, the computation raises
    [KeyError]; no marginal is returned. *)
Theorem missing_entry_raises_KeyError
        (node : CredalNode) (a : list state) (l : list (list state)) :
  parents node <> [] ->
  enumerated_assignments node = OK l ->
  In a l ->
  dict_get tuple_eqb (credal_table node) a = None ->
  marginal_of node = Raise KeyError.
Proof.
  destruct node as [nm ps tbl]. simpl. intros Hps He Hin Hmiss.
  unfold marginal_of. rewrite compute_unfold.
  destruct ps as [|p0 ps0]; [contradiction|].
  unfold enumerated_assignments in He. simpl parents in He.
  simpl credal_table in He.
  destruct (parent_marginals_of (p0 :: ps0)) as [log r]. simpl in *.
  inv_bind He. inv_bind He. inv_bind He. injection He as <-. subst r.
  simpl. unfold node_marginal. rewrite Ha0. simpl. rewrite Ha1. simpl.
  apply in_flat_map in Hin. destruct Hin as [combo [Hc Ha']].
  rewrite (foldM_raises _ KeyError _ combo); [reflexivity | | exact Hc |].
  - intros. apply visit_combo_cases.
  - intros s. unfold visit_combo.
    apply (foldM_raises _ KeyError _ a); [| exact Ha' |].
    + intros. apply visit_assignment_cases.
    + intros. apply visit_assignment_missing. exact Hmiss.
Qed.

Lemma missing_entry_raises_KeyError_witness :
  marginal_of (mkNode "Fever" [flu] [(["Present"], [("Present", (9#10, 1))])])
  = Raise KeyError.
Proof.
  eapply (missing_entry_raises_KeyError _ ["Absent"]).
  - discriminate.
  - vm_compute. reflexivity.
  - simpl. right. left. reflexivity.
  - reflexivity.
Defined.

(** ** Degenerate corners *)

Lemma corner_nonneg (pm : marginal) choice :
  (forall s iv, In (s, iv) pm -> 0 <= fst iv /\ 0 <= snd iv) ->
  In choice (product (map (fun '(l, u) => [l; u]) (values pm))) ->
  forall x, In x choice -> 0 <= x.
Proof.
  intros Hnn H. apply In_product in H. unfold values in H.
  rewrite map_map in H. remember (map _ pm) as pools eqn:E.
  revert pm Hnn E. induction H as [|c pool choice pools Hc H IH];
    intros pm Hnn E x Hx; [destruct Hx|].
  destruct pm as [|[s [l u]] pm]; simpl in E; [discriminate|].
  injection E as -> ->.
  destruct Hx as [<-|Hx].
  - destruct (Hnn s (l, u) (or_introl eq_refl)) as [Hl Hu]. simpl in *.
    destruct Hc as [<-|[<-|[]]]; assumption.
  - apply (IH pm); auto. intros s' iv Hin. apply (Hnn s' iv). right; exact Hin.
Qed.

(** C8 — for a parent marginal with non-negative bounds the enumeration of
    extreme points never divides by zero: it raises nothing, a corner whose
    coordinates sum to 0 is kept as it is, without division, and such a
    corner gives probability 0 to every joint parent assignment. *)
Theorem degenerate_corner_never_divided (pm : marginal) :
  (forall s iv, In (s, iv) pm -> 0 <= fst iv /\ 0 <= snd iv) ->
  (exists exts, extreme_points pm = OK exts) /\
  forall choice,
    In choice (product (map (fun '(l, u) => [l; u]) (values pm))) ->
    py_sum choice == 0 ->
    normalize (combine (keys pm) choice) = OK (combine (keys pm) choice) /\
    forall combo a,
      In (combine (keys pm) choice) combo ->
      In a (product (map keys combo)) ->
      exists p, joint_prob combo a = OK p /\ p == 0.
Proof.
  intros Hnn. split; [apply extreme_points_total|].
  intros choice Hc Hs.
  assert (Hlen : List.length (keys pm) = List.length choice).
  { unfold keys. rewrite length_map. symmetry. apply corner_length; exact Hc. }
  split.
  - unfold normalize. rewrite values_combine by exact Hlen.
    assert (E : gt0 (py_sum choice) = false).
    { apply gt0_false. rewrite Hs. apply Qle_refl. }
    rewrite E. reflexivity.
  - intros combo a Hd Ha.
    pose proof (enumerated_assignment_keys combo a Ha) as Hk.
    exists (prob_pure combo a). split; [apply joint_prob_pure; exact Hk|].
    unfold prob_pure.
    apply (prob_zero_factor combo a (combine (keys pm) choice)); auto.
    intros s.
    assert (Hz : forall x, In x choice -> x == 0).
    { apply sumQ_zero.
      - apply (corner_nonneg pm); assumption.
      - rewrite <- py_sum_sumQ. exact Hs. }
    destruct (weight_In (combine (keys pm) choice) s) as [-> | Hin].
    + reflexivity.
    + rewrite values_combine in Hin by exact Hlen. apply Hz; exact Hin.
Qed.

Lemma degenerate_corner_never_divided_witness :
  exists exts,
    extreme_points [("Present", (0, 1#2)); ("Absent", (0, 1#2))] = OK exts.
Proof.
  apply (degenerate_corner_never_divided
           [("Present", (0, 1#2)); ("Absent", (0, 1#2))]).
  intros s iv [H|[H|[]]]; injection H as <- <-; simpl;
    split; discriminate.
Defined.

(** * Dempster-Shafer *)

Module DSFacts.
Import DempsterShafer.

Lemma sum_setitem (d : mass) i y :
  sumQ (values (setitem tuple_eqb d i y))
  == sumQ (values d) - get_or_zero d i + y.
Proof.
  unfold get_or_zero, values.
  induction d as [|[k v] d IH]; simpl.
  - ring.
  - destruct (tuple_eqb k i); simpl.
    + unfold focal, state in *. ring.
    + rewrite IH. unfold focal, state in *. ring.
Qed.

Lemma In_setitem (d : mass) i y k v :
  In (k, v) (setitem tuple_eqb d i y) -> v = y \/ In (k, v) d.
Proof.
  induction d as [|[k0 v0] d IH]; simpl.
  - intros [H|[]]. injection H as _ <-. left; reflexivity.
  - destruct (tuple_eqb k0 i); simpl.
    + intros [H|H]; [injection H as _ <-; left; reflexivity | right; right; exact H].
    + intros [H|H]; [right; left; exact H|].
      destruct (IH H); [left | right; right]; assumption.
Qed.

Lemma get_or_zero_nonneg (d : mass) i :
  nonneg_mass d -> 0 <= get_or_zero d i.
Proof.
  intros H. unfold get_or_zero.
  destruct (dict_get tuple_eqb d i) as [v|] eqn:E; [|apply Qle_refl].
  apply (dict_get_In tuple_eqb tuple_eqb_eq) in E. exact (H i v E).
Qed.

(** One step of the accumulation adds the product of the two weights to
    the combined mass or to the conflict, and keeps both non-negative. *)
Lemma combine_step_inv c k p c' k' :
  combine_step (c, k) p = (c', k') ->
  nonneg_mass c -> 0 <= k -> 0 <= pair_weight p ->
  sumQ (values c') + k' == sumQ (values c) + k + pair_weight p
  /\ nonneg_mass c' /\ 0 <= k'.
Proof.
  destruct p as [[k1 v1] [k2 v2]]. unfold pair_weight. simpl.
  intros H Hc Hk Hp.
  destruct (intersect k1 k2) as [|x i].
  - injection H as <- <-. repeat split; [ring | exact Hc | lra].
  - injection H as <- <-. repeat split; [rewrite sum_setitem; ring | | exact Hk].
    intros k0 v0 Hin. apply In_setitem in Hin. destruct Hin as [->|Hin].
    + pose proof (get_or_zero_nonneg c (x :: i) Hc). lra.
    + exact (Hc k0 v0 Hin).
Qed.

Lemma accumulate_inv l : forall c k c' k',
  fold_left combine_step l (c, k) = (c', k') ->
  nonneg_mass c -> 0 <= k -> (forall p, In p l -> 0 <= pair_weight p) ->
  sumQ (values c') + k' == sumQ (values c) + k + sumQ (map pair_weight l)
  /\ nonneg_mass c' /\ 0 <= k'.
Proof.
  induction l as [|p l IH]; intros c k c' k' H Hc Hk Hl.
  - simpl in *. injection H as <- <-.
    repeat split; [ring | exact Hc | exact Hk].
  - change (fold_left combine_step (p :: l) (c, k))
      with (fold_left combine_step l (combine_step (c, k) p)) in H.
    change (sumQ (map pair_weight (p :: l)))
      with (pair_weight p + sumQ (map pair_weight l)).
    destruct (combine_step (c, k) p) as [c1 k1] eqn:E.
    destruct (combine_step_inv c k p c1 k1 E Hc Hk) as (E1 & Hc1 & Hk1).
    { apply Hl. left; reflexivity. }
    destruct (IH c1 k1 c' k' H Hc1 Hk1) as (E2 & Hc' & Hk').
    { intros. apply Hl. right; assumption. }
    repeat split; [|exact Hc' | exact Hk'].
    rewrite E2, E1. ring.
Qed.

Lemma sum_pairs_row (x : focal * Q) (m2 : mass) :
  sumQ (map pair_weight (map (pair x) m2)) == snd x * sumQ (values m2).
Proof.
  induction m2 as [|y m2 IH]; simpl.
  - ring.
  - unfold pair_weight at 1. simpl. rewrite IH. ring.
Qed.

Lemma sumQ_map_app {A} (f : A -> Q) xs ys :
  sumQ (map f (xs ++ ys)) == sumQ (map f xs) + sumQ (map f ys).
Proof. rewrite map_app. apply sumQ_app. Qed.

Lemma sum_pairs (m1 m2 : mass) :
  sumQ (map pair_weight (list_prod m1 m2))
  == sumQ (values m1) * sumQ (values m2).
Proof.
  induction m1 as [|x m1 IH]; simpl.
  - ring.
  - rewrite sumQ_map_app, sum_pairs_row, IH. ring.
Qed.

Lemma pair_weight_nonneg (m1 m2 : mass) p :
  nonneg_mass m1 -> nonneg_mass m2 -> In p (list_prod m1 m2) ->
  0 <= pair_weight p.
Proof.
  intros H1 H2 Hin. destruct p as [[k1 v1] [k2 v2]].
  apply in_prod_iff in Hin. destruct Hin as [Ha Hb].
  unfold pair_weight. simpl.
  apply Qmult_le_0_compat; [exact (H1 k1 v1 Ha) | exact (H2 k2 v2 Hb)].
Qed.

(** The conflict and the combined mass share out the total mass 1. *)
Lemma accumulate_total (m1 m2 : mass) :
  valid_mass m1 -> valid_mass m2 ->
  sumQ (values (fst (accumulate m1 m2))) + snd (accumulate m1 m2) == 1
  /\ nonneg_mass (fst (accumulate m1 m2))
  /\ 0 <= snd (accumulate m1 m2).
Proof.
  intros [Hn1 Hs1] [Hn2 Hs2]. unfold accumulate.
  destruct (fold_left combine_step (list_prod m1 m2) ([], 0)) as [c k] eqn:E.
  destruct (accumulate_inv _ _ _ _ _ E) as (E1 & Hc & Hk).
  - intros k0 v0 [].
  - apply Qle_refl.
  - intros p Hp. apply (pair_weight_nonneg m1 m2); assumption.
  - simpl. repeat split; [|exact Hc | exact Hk].
    rewrite E1, sum_pairs. simpl.
    rewrite <- !py_sum_sumQ, Hs1, Hs2. ring.
Qed.

Lemma conflict_le_1 (m1 m2 : mass) :
  valid_mass m1 -> valid_mass m2 -> snd (accumulate m1 m2) <= 1.
Proof.
  intros H1 H2. destruct (accumulate_total m1 m2 H1 H2) as (E & Hc & Hk).
  assert (0 <= sumQ (values (fst (accumulate m1 m2)))).
  { apply sumQ_nonneg. intros x Hx. unfold values in Hx.
    apply in_map_iff in Hx. destruct Hx as [[k0 v0] [<- Hin]].
    exact (Hc k0 v0 Hin). }
  lra.
Qed.

Lemma normalize_combined (c : mass) (k : Q) :
  k < 1 ->
  mapM (fun '(f, v) => q <- py_div v (1 - k) ;; OK (f, q)) c
  = OK (map (fun '(f, v) => (f, v / (1 - k))) c).
Proof.
  intros H. apply mapM_pure. intros [f v] _.
  rewrite py_div_pos by lra. reflexivity.
Qed.

Lemma m_flu_valid : valid_mass m_flu.
Proof.
  split.
  - intros k v [H|[H|[H|[]]]]; injection H as _ <-; discriminate.
  - vm_compute. reflexivity.
Defined.

(** ** Belief and plausibility *)

Lemma belief_le_plausibility_from (m : mass) (A : list string) :
  nonneg_mass m -> no_empty_mass m ->
  forall bel pl, bel <= pl ->
  fold_left
    (fun bel '(subset, w) =>
       if forallb (fun x => mem x A) subset then bel + w else bel) m bel
  <=
  fold_left
    (fun pl '(subset, w) =>
       if existsb (fun x => mem x A) subset then pl + w else pl) m pl.
Proof.
  induction m as [|[subset w] m IH]; intros Hn He bel pl Hle; simpl;
    [exact Hle|].
  assert (Hw : 0 <= w) by (apply (Hn subset w); left; reflexivity).
  apply IH.
  - intros k v Hin. apply (Hn k v). right; exact Hin.
  - intros v Hin. apply He. right; exact Hin.
  - destruct subset as [|x subset].
    + simpl. assert (w == 0) by (apply He; left; reflexivity). lra.
    + simpl forallb. simpl existsb.
      destruct (mem x A); simpl.
      * destruct (forallb (fun x0 => mem x0 A) subset); lra.
      * destruct (existsb (fun x0 => mem x0 A) subset); lra.
Qed.

(** C10 — a mass function with non-negative weights and no mass on the
    empty tuple has belief(A) <= plausibility(A) for every A; with positive
    mass on the empty tuple, which marginalization can produce, the
    inequality can fail. *)
Theorem belief_le_plausibility :
  (forall (m : mass) (A : list string),
      nonneg_mass m -> no_empty_mass m ->
      belief m A <= plausibility m A) /\
  (exists (m : mass) (target_vars A : list string),
      valid_mass m /\ no_empty_mass m /\
      0 < get_or_zero (marginalize_mass m target_vars) [] /\
      ~ belief (marginalize_mass m target_vars) A
        <= plausibility (marginalize_mass m target_vars) A).
Proof.
  split.
  - intros m A Hn He. unfold belief, plausibility.
    apply belief_le_plausibility_from; auto. apply Qle_refl.
  - exists [(["Flu"], 1)], ["Cold"], ["Cold"].
    split; [split|split; [|split]].
    + intros k v [H|[]]. injection H as _ <-. discriminate.
    + vm_compute. reflexivity.
    + intros v [H|[]]. discriminate.
    + vm_compute. reflexivity.
    + vm_compute. intros H. apply H. reflexivity.
Qed.

Lemma belief_le_plausibility_witness :
  belief m_flu ["Flu"] <= plausibility m_flu ["Flu"].
Proof.
  apply (proj1 belief_le_plausibility m_flu ["Flu"]).
  - exact (proj1 m_flu_valid).
  - intros v [H|[H|[H|[]]]]; discriminate.
Defined.

End DSFacts.

(** * The marginal of a node as a minimum and a maximum *)

Lemma normalize_pure d : normalize d = OK (norm_pure d).
Proof.
  unfold normalize, norm_pure.
  destruct (gt0 (py_sum (values d))) eqn:E; [|reflexivity].
  apply gt0_true in E. apply mapM_pure. intros [s v] _.
  rewrite py_div_pos by exact E. reflexivity.
Qed.

Lemma extreme_points_pure pm : extreme_points pm = OK (extremes_pure pm).
Proof.
  unfold extreme_points, extremes_pure. apply mapM_pure. intros.
  apply normalize_pure.
Qed.

Lemma all_extreme_points_pure pms :
  mapM extreme_points pms = OK (map extremes_pure pms).
Proof. apply mapM_pure. intros. apply extreme_points_pure. Qed.

Lemma keys_norm_pure d : keys (norm_pure d) = keys d.
Proof.
  unfold norm_pure. destruct (gt0 _); [|reflexivity].
  unfold keys. rewrite map_map. apply map_ext. intros [s v]. reflexivity.
Qed.

Lemma extreme_keys pm d : In d (extremes_pure pm) -> keys d = keys pm.
Proof.
  unfold extremes_pure. intros H. apply in_map_iff in H.
  destruct H as [choice [<- Hc]]. rewrite keys_norm_pure.
  apply keys_combine. unfold keys. rewrite length_map. symmetry.
  apply corner_length. exact Hc.
Qed.

Lemma combo_keys pms combo :
  In combo (product (map extremes_pure pms)) ->
  map keys combo = map keys pms.
Proof.
  intros H. apply In_product in H.
  remember (map extremes_pure pms) as opts eqn:E. revert pms E.
  induction H as [|d opt combo opts Hd H IH]; intros [|pm pms] E;
    simpl in E; try discriminate; [reflexivity|].
  injection E as -> ->. simpl. f_equal; [|apply IH; reflexivity].
  apply extreme_keys. exact Hd.
Qed.

(** Under full coverage the loops are one pass over [visits]. *)
Lemma loops_flatten tbl pms ns b :
  (forall a, In a (product (map keys pms)) ->
             exists e, dict_get tuple_eqb tbl a = Some e) ->
  foldM (visit_combo tbl ns) (product (map extremes_pure pms)) b
  = foldM (visit_item ns) (visits tbl pms) b.
Proof.
  intros Hcov. unfold visits. rewrite foldM_flat_map.
  apply foldM_ext_in. intros s combo Hc.
  unfold visit_combo. rewrite foldM_map. apply foldM_ext_in.
  intros s' a Ha. unfold visit_assignment, visit_item. simpl.
  rewrite joint_prob_pure by (apply enumerated_assignment_keys; exact Ha).
  simpl. rewrite (combo_keys pms combo Hc) in Ha.
  destruct (Hcov a Ha) as [e He]. unfold getitem, entry_at. rewrite He.
  reflexivity.
Qed.

Lemma foldM_prefix {A S} (I : list A -> S -> Prop)
      (body : S -> A -> result S) xs :
  (forall pre x s, I pre s -> In x xs ->
                   exists s', body s x = OK s' /\ I (pre ++ [x]) s') ->
  forall pre s, I pre s ->
  exists sf, foldM body xs s = OK sf /\ I (pre ++ xs) sf.
Proof.
  induction xs as [|x xs IH]; intros Hstep pre s Hs; simpl.
  - exists s. rewrite app_nil_r. auto.
  - destruct (Hstep pre x s Hs (or_introl eq_refl)) as [s' [-> Hs']]. simpl.
    destruct (IH (fun pre x s H Hin => Hstep pre x s H (or_intror Hin))
                 (pre ++ [x]) s' Hs') as [sf [Hf Hsf]].
    exists sf. split; [exact Hf|]. rewrite <- app_assoc in Hsf. exact Hsf.
Qed.

(** The accumulators after one more value. *)

Lemma Qmin_cases v x : Qmin v x = v \/ Qmin v x = x.
Proof.
  unfold Qmin, GenericMinMax.gmin. destruct (v ?= x); auto.
Qed.

Lemma Qmax_cases v x : Qmax v x = v \/ Qmax v x = x.
Proof.
  unfold Qmax, GenericMinMax.gmax. destruct (v ?= x); auto.
Qed.

Lemma min_acc_step vals o x :
  min_acc vals o \/ min_acc (vals ++ [x]) o ->
  min_acc (vals ++ [x])
          (Some (match o with Some v => Qmin v x | None => x end)).
Proof.
  intros H. destruct o as [v|]; simpl.
  - assert (Hv : In v (vals ++ [x]) /\ forall y, In y vals -> v <= y).
    { destruct H as [[Hin Hle]|[Hin Hle]].
      - split; [apply in_or_app; left; exact Hin | exact Hle].
      - split; [exact Hin|]. intros y Hy. apply Hle. apply in_or_app; auto. }
    destruct Hv as [Hin Hle]. split.
    + destruct (Qmin_cases v x) as [-> | ->]; [exact Hin|].
      apply in_or_app. right. left. reflexivity.
    + intros y Hy. apply in_app_or in Hy. destruct Hy as [Hy|[<-|[]]].
      * eapply Qle_trans; [apply Q.le_min_l | apply Hle; exact Hy].
      * apply Q.le_min_r.
  - split.
    + apply in_or_app. right. left. reflexivity.
    + intros y Hy. apply in_app_or in Hy. destruct Hy as [Hy|[<-|[]]].
      * simpl in H. destruct H as [H|H]; [subst vals; destruct Hy|].
        destruct vals; discriminate.
      * apply Qle_refl.
Qed.

Lemma max_acc_step vals o x :
  max_acc vals o \/ max_acc (vals ++ [x]) o ->
  max_acc (vals ++ [x])
          (Some (match o with Some v => Qmax v x | None => x end)).
Proof.
  intros H. destruct o as [v|]; simpl.
  - assert (Hv : In v (vals ++ [x]) /\ forall y, In y vals -> y <= v).
    { destruct H as [[Hin Hle]|[Hin Hle]].
      - split; [apply in_or_app; left; exact Hin | exact Hle].
      - split; [exact Hin|]. intros y Hy. apply Hle. apply in_or_app; auto. }
    destruct Hv as [Hin Hle]. split.
    + destruct (Qmax_cases v x) as [-> | ->]; [exact Hin|].
      apply in_or_app. right. left. reflexivity.
    + intros y Hy. apply in_app_or in Hy. destruct Hy as [Hy|[<-|[]]].
      * eapply Qle_trans; [apply Hle; exact Hy | apply Q.le_max_l].
      * apply Q.le_max_r.
  - split.
    + apply in_or_app. right. left. reflexivity.
    + intros y Hy. apply in_app_or in Hy. destruct Hy as [Hy|[<-|[]]].
      * simpl in H. destruct H as [H|H]; [subst vals; destruct Hy|].
        destruct vals; discriminate.
      * apply Qle_refl.
Qed.

(** One state of the node: only its own two accumulators change. *)
Lemma update_bounds_spec (e : marginal) (p : Q)
      (lower upper : list (state * option Q)) (st : state) (l h : Q)
      (lo hi : option Q) :
  dict_get String.eqb e st = Some (l, h) ->
  dict_get String.eqb lower st = Some lo ->
  dict_get String.eqb upper st = Some hi ->
  update_bounds e p (lower, upper) st
  = OK (setitem String.eqb lower st
          (Some (match lo with Some v => Qmin v (p * l) | None => p * l end)),
        setitem String.eqb upper st
          (Some (match hi with Some v => Qmax v (p * h) | None => p * h end))).
Proof.
  intros He Hlo Hhi. unfold update_bounds. cbv beta iota.
  unfold getitem, marginal, interval, state in *. rewrite He. cbn [bind]. rewrite Hlo. cbn [bind].
  rewrite Hhi. cbn [bind]. reflexivity.
Qed.

Section VisitItem.
Variable ns : list state.
Variable lows highs : state -> list Q.
Variable p : Q.
Variable e : marginal.
Hypothesis e_covers :
  forall s, In s ns -> exists iv, dict_get String.eqb e s = Some iv.

(** The accumulators while the states in [done] have been given the new
    value and the others not yet. *)
Definition during (done : list state) (b : bounds) : Prop :=
  forall s, In s ns ->
    exists lo hi,
      dict_get String.eqb (fst b) s = Some lo /\
      dict_get String.eqb (snd b) s = Some hi /\
      (In s done ->
       min_acc (lows s ++ [p * low_at e s]) lo /\
       max_acc (highs s ++ [p * high_at e s]) hi) /\
      (~ In s done -> min_acc (lows s) lo /\ max_acc (highs s) hi).

Lemma update_bounds_during done b st :
  In st ns -> during done b ->
  exists b', update_bounds e p b st = OK b' /\ during (done ++ [st]) b'.
Proof.
  intros Hst Hb. destruct b as [lower upper].
  destruct (Hb st Hst) as (lo & hi & Hlo & Hhi & Hin & Hout).
  destruct (e_covers st Hst) as [[l h] He]. simpl in Hlo, Hhi.
  eexists. split;
    [exact (update_bounds_spec e p lower upper st l h lo hi He Hlo Hhi)|].
  intros s Hs. simpl fst. simpl snd.
  destruct (string_dec st s) as [<-|Hne].
  - rewrite !(get_set_same String.eqb String.eqb_eq).
    do 2 eexists. split; [reflexivity|]. split; [reflexivity|].
    assert (El : low_at e st = l) by (unfold low_at; rewrite He; reflexivity).
    assert (Eh : high_at e st = h)
      by (unfold high_at; rewrite He; reflexivity).
    rewrite El, Eh in *. split.
    + intros _. destruct (in_dec string_dec st done) as [Hd|Hd].
      * destruct (Hin Hd). split;
          [apply min_acc_step | apply max_acc_step]; right; assumption.
      * destruct (Hout Hd). split;
          [apply min_acc_step | apply max_acc_step]; left; assumption.
    + intros Hn. exfalso. apply Hn. apply in_or_app. right. left. reflexivity.
  - rewrite !(get_set_other String.eqb String.eqb_eq) by exact Hne.
    destruct (Hb s Hs) as (lo' & hi' & Hlo' & Hhi' & Hin' & Hout').
    exists lo', hi'. split; [exact Hlo'|]. split; [exact Hhi'|].
    split.
    + intros Hd. apply Hin'. apply in_app_or in Hd.
      destruct Hd as [Hd|[Hd|[]]]; [exact Hd | contradiction].
    + intros Hd. apply Hout'. intros Hd'. apply Hd. apply in_or_app.
      left. exact Hd'.
Qed.

Lemma visit_item_during b :
  during [] b ->
  exists b', visit_item ns b (p, e) = OK b' /\ during ns b'.
Proof.
  intros Hb. unfold visit_item. simpl.
  destruct (foldM_prefix during (update_bounds e p) ns) with
    (pre := @nil state) (s := b) as [b' [Hf Hb']].
  - intros pre st s Hs Hin. apply update_bounds_during; assumption.
  - exact Hb.
  - exists b'. split; [exact Hf | exact Hb'].
Qed.
End VisitItem.

(** The accumulators against the visits made so far. *)
Definition accumulated (ns : list state) (pre : list (Q * marginal))
           (b : bounds) : Prop :=
  forall s, In s ns ->
    exists lo hi,
      dict_get String.eqb (fst b) s = Some lo /\
      dict_get String.eqb (snd b) s = Some hi /\
      min_acc (map (fun x => fst x * low_at (snd x) s) pre) lo /\
      max_acc (map (fun x => fst x * high_at (snd x) s) pre) hi.

Lemma visit_item_accumulated ns pre b x :
  (forall s, In s ns -> exists iv, dict_get String.eqb (snd x) s = Some iv) ->
  accumulated ns pre b ->
  exists b', visit_item ns b x = OK b' /\ accumulated ns (pre ++ [x]) b'.
Proof.
  intros Hcov Hb. destruct x as [p e]. simpl in Hcov.
  destruct (visit_item_during ns
              (fun s => map (fun x => fst x * low_at (snd x) s) pre)
              (fun s => map (fun x => fst x * high_at (snd x) s) pre)
              p e Hcov b) as [b' [Hf Hb']].
  - intros s Hs. destruct (Hb s Hs) as (lo & hi & Hlo & Hhi & Hmin & Hmax).
    exists lo, hi. split; [exact Hlo|]. split; [exact Hhi|].
    split; [intros []|intros _; split; assumption].
  - exists b'. split; [exact Hf|]. intros s Hs.
    destruct (Hb' s Hs) as (lo & hi & Hlo & Hhi & Hin & _).
    exists lo, hi. split; [exact Hlo|]. split; [exact Hhi|].
    rewrite !map_app. simpl. exact (Hin Hs).
Qed.

Lemma initial_accumulated ns : accumulated ns [] (initial_bounds ns).
Proof.
  intros s Hs. exists None, None. unfold initial_bounds. simpl.
  assert (E : dict_get String.eqb (map (fun s0 => (s0, @None Q)) ns) s
              = Some None).
  { induction ns as [|s0 ns IH]; [destruct Hs|]. simpl.
    destruct (String.eqb s0 s) eqn:E; [reflexivity|].
    apply IH. destruct Hs as [->|Hs]; [|exact Hs].
    rewrite String.eqb_refl in E. discriminate. }
  rewrite E. repeat split; reflexivity.
Qed.

Lemma all_visits_accumulated ns items :
  (forall x, In x items ->
     forall s, In s ns -> exists iv, dict_get String.eqb (snd x) s = Some iv) ->
  exists b, foldM (visit_item ns) items (initial_bounds ns) = OK b
            /\ accumulated ns items b.
Proof.
  intros Hcov.
  destruct (foldM_prefix (accumulated ns) (visit_item ns) items) with
    (pre := @nil (Q * marginal)) (s := initial_bounds ns) as [b [Hf Hb]].
  - intros pre x s Hs Hin. apply visit_item_accumulated; auto.
  - apply initial_accumulated.
  - exists b. split; [exact Hf | exact Hb].
Qed.

Lemma finalize_accumulated ns items b :
  accumulated ns items b ->
  exists m, finalize ns b = OK m /\ keys m = ns /\
    forall s l h, In (s, (l, h)) m ->
      low_spec (map (fun x => fst x * low_at (snd x) s) items) l /\
      high_spec (map (fun x => fst x * high_at (snd x) s) items) h.
Proof.
  intros Hb. destruct b as [lower upper]. unfold finalize.
  set (g := fun s =>
              (s, (match dict_get String.eqb lower s with
                   | Some (Some v) => v | _ => 0 end,
                   match dict_get String.eqb upper s with
                   | Some (Some v) => v | _ => 1 end))).
  exists (map g ns). split; [|split].
  - apply mapM_pure. intros s Hs.
    destruct (Hb s Hs) as (lo & hi & Hlo & Hhi & _). simpl in Hlo, Hhi.
    unfold getitem, g. rewrite Hlo, Hhi. reflexivity.
  - unfold keys. rewrite map_map. simpl. apply map_id.
  - intros s l h Hin. apply in_map_iff in Hin.
    destruct Hin as [s' [E Hs]]. unfold g in E. injection E as -> <- <-.
    destruct (Hb s Hs) as (lo & hi & Hlo & Hhi & Hmin & Hmax).
    simpl in Hlo, Hhi. rewrite Hlo, Hhi. split.
    + destruct lo as [v|]; simpl in Hmin; [right | left]; auto.
    + destruct hi as [v|]; simpl in Hmax; [right | left]; auto.
Qed.

(** The marginal of a non-root node, under full coverage: for every state
    the least scaled low and the greatest scaled high among the visits. *)
Lemma node_marginal_spec tbl pms ns :
  first_entry_states tbl = OK ns ->
  covers tbl (map keys pms) ns ->
  exists m, node_marginal tbl pms = OK m /\ keys m = ns /\
    forall s l h, In (s, (l, h)) m ->
      low_spec (lowvals tbl pms s) l /\ high_spec (highvals tbl pms s) h.
Proof.
  intros Hns Hcov. unfold node_marginal. rewrite Hns. simpl.
  rewrite all_extreme_points_pure. simpl.
  rewrite loops_flatten.
  2:{ intros a Ha. destruct (Hcov a Ha) as [e [He _]]. eauto. }
  destruct (all_visits_accumulated ns (visits tbl pms)) as [b [Hf Hb]].
  - intros [p e] Hin s Hs. simpl. unfold visits in Hin.
    apply in_flat_map in Hin. destruct Hin as [combo [Hc Hin]].
    apply in_map_iff in Hin. destruct Hin as [a [E Ha]].
    injection E as _ <-. rewrite (combo_keys pms combo Hc) in Ha.
    destruct (Hcov a Ha) as [e [He Hall]]. unfold entry_at. rewrite He.
    apply Hall. exact Hs.
  - rewrite Hf. simpl. apply (finalize_accumulated ns (visits tbl pms) b Hb).
Qed.

(** * Bound ordering *)

Lemma le_sumQ xs v :
  (forall x, In x xs -> 0 <= x) -> In v xs -> v <= sumQ xs.
Proof.
  induction xs as [|x xs IH]; intros Hnn Hin; [destruct Hin|].
  simpl. assert (0 <= x) by (apply Hnn; left; reflexivity).
  assert (0 <= sumQ xs)
    by (apply sumQ_nonneg; intros; apply Hnn; right; assumption).
  destruct Hin as [<-|Hin]; [lra|].
  assert (v <= sumQ xs) by (apply IH; auto; intros; apply Hnn; right; auto).
  lra.
Qed.

Lemma weight_scaled (d : list (state * Q)) (t : Q) (s : state) :
  weight (map (fun '(s, v) => (s, v / t)) d) s == weight d s / t.
Proof.
  unfold weight. induction d as [|[s0 v0] d IH]; simpl.
  - unfold Qdiv. ring.
  - destruct (String.eqb s0 s); [reflexivity | exact IH].
Qed.

Lemma weight_norm_range (d : list (state * Q)) (s : state) :
  (forall v, In v (values d) -> 0 <= v) ->
  0 <= weight (norm_pure d) s /\ weight (norm_pure d) s <= 1.
Proof.
  intros Hnn. unfold norm_pure.
  destruct (gt0 (py_sum (values d))) eqn:E.
  - apply gt0_true in E. rewrite weight_scaled.
    assert (Hw : 0 <= weight d s /\ weight d s <= py_sum (values d)).
    { destruct (weight_In d s) as [-> | Hin].
      - split; [apply Qle_refl | apply Qlt_le_weak; exact E].
      - split; [apply Hnn; exact Hin|].
        rewrite py_sum_sumQ. apply le_sumQ; assumption. }
    destruct Hw as [H0 H1]. split.
    + apply Qle_shift_div_l; [exact E | lra].
    + apply Qle_shift_div_r; [exact E | lra].
  - apply gt0_false in E.
    assert (Hz : weight d s == 0).
    { destruct (weight_In d s) as [-> | Hin]; [reflexivity|].
      apply (sumQ_zero (values d)); auto.
      pose proof (sumQ_nonneg (values d) Hnn).
      rewrite py_sum_sumQ in E. lra. }
    rewrite Hz. split; [apply Qle_refl | discriminate].
Qed.

Lemma corner_values_nonneg (pm : marginal) choice :
  valid_entry pm ->
  In choice (product (map (fun '(l, u) => [l; u]) (values pm))) ->
  forall v, In v (values (combine (keys pm) choice)) -> 0 <= v.
Proof.
  intros Hv Hc v Hin. rewrite values_combine in Hin.
  - apply (corner_nonneg pm choice); auto.
    intros s iv Hs. destruct (Hv s iv Hs) as (H0 & H1 & H2).
    split; [exact H0 | lra].
  - unfold keys. rewrite length_map. symmetry. apply corner_length. exact Hc.
Qed.

Lemma extreme_weight_range (pm : marginal) d s :
  valid_entry pm -> In d (extremes_pure pm) ->
  0 <= weight d s /\ weight d s <= 1.
Proof.
  intros Hv Hd. unfold extremes_pure in Hd. apply in_map_iff in Hd.
  destruct Hd as [choice [<- Hc]]. apply weight_norm_range.
  apply (corner_values_nonneg pm choice Hv Hc).
Qed.

Lemma prob_range_from l acc :
  (forall d s, In (d, s) l -> 0 <= weight d s /\ weight d s <= 1) ->
  0 <= acc /\ acc <= 1 ->
  0 <= fold_left (fun p '(d, st) => p * weight d st) l acc /\
  fold_left (fun p '(d, st) => p * weight d st) l acc <= 1.
Proof.
  revert acc. induction l as [|[d s] l IH]; intros acc Hw Hacc; simpl;
    [exact Hacc|].
  apply IH; [intros; apply Hw; right; assumption|].
  destruct (Hw d s (or_introl eq_refl)) as [H0 H1]. destruct Hacc as [A0 A1].
  split; [apply Qmult_le_0_compat; assumption|]. nra.
Qed.

Lemma combo_weight_range pms combo :
  Forall valid_entry pms ->
  In combo (product (map extremes_pure pms)) ->
  forall d s, In d combo -> 0 <= weight d s /\ weight d s <= 1.
Proof.
  intros Hv Hc. apply In_product in Hc.
  remember (map extremes_pure pms) as opts eqn:E. revert pms Hv E.
  induction Hc as [|d0 opt combo opts Hd H IH]; intros pms Hv E d s Hin;
    [destruct Hin|].
  destruct pms as [|pm pms]; simpl in E; [discriminate|].
  injection E as -> ->. inversion Hv as [|? ? Hpm Hpms]; subst.
  destruct Hin as [<-|Hin].
  - apply (extreme_weight_range pm); assumption.
  - apply (IH pms); auto.
Qed.

Lemma visit_prob_range tbl pms x :
  Forall valid_entry pms -> In x (visits tbl pms) ->
  0 <= fst x /\ fst x <= 1.
Proof.
  intros Hv Hin. unfold visits in Hin. apply in_flat_map in Hin.
  destruct Hin as [combo [Hc Hin]]. apply in_map_iff in Hin.
  destruct Hin as [a [<- Ha]]. simpl. unfold prob_pure.
  apply prob_range_from.
  - intros d s Hds. apply in_combine_l in Hds.
    apply (combo_weight_range pms combo); assumption.
  - split; discriminate.
Qed.

Lemma entry_at_valid tbl a : valid_table tbl -> valid_entry (entry_at tbl a).
Proof.
  intros Hv. unfold entry_at.
  destruct (dict_get tuple_eqb tbl a) as [e|] eqn:E.
  - apply (dict_get_In tuple_eqb tuple_eqb_eq) in E. exact (Hv a e E).
  - intros s iv [].
Qed.

Lemma visit_entry_valid tbl pms x :
  valid_table tbl -> In x (visits tbl pms) -> valid_entry (snd x).
Proof.
  intros Hv Hin. unfold visits in Hin. apply in_flat_map in Hin.
  destruct Hin as [combo [Hc Hin]]. apply in_map_iff in Hin.
  destruct Hin as [a [<- Ha]]. simpl. apply entry_at_valid. exact Hv.
Qed.

Lemma at_valid (e : marginal) (s : state) :
  valid_entry e ->
  0 <= low_at e s /\ low_at e s <= high_at e s /\ high_at e s <= 1.
Proof.
  intros Hv. unfold low_at, high_at.
  destruct (dict_get String.eqb e s) as [[l h]|] eqn:E.
  - apply (dict_get_In String.eqb String.eqb_eq) in E.
    exact (Hv s (l, h) E).
  - repeat split; discriminate.
Qed.

Lemma spec_bounds {A} (items : list A) (f g : A -> Q) l h :
  (forall x, In x items -> 0 <= f x /\ f x <= g x /\ g x <= 1) ->
  low_spec (map f items) l -> high_spec (map g items) h ->
  0 <= l /\ l <= h /\ h <= 1.
Proof.
  intros Hr [[El ->]|[Hl Hlmin]] [[Eh ->]|[Hh Hhmax]].
  - repeat split; discriminate.
  - apply map_eq_nil in El. subst items. destruct Hh.
  - apply map_eq_nil in Eh. subst items. destruct Hl.
  - apply in_map_iff in Hl. destruct Hl as [x0 [<- Hx0]].
    apply in_map_iff in Hh. destruct Hh as [x1 [<- Hx1]].
    destruct (Hr x0 Hx0) as (A0 & A1 & A2).
    destruct (Hr x1 Hx1) as (B0 & B1 & B2).
    assert (f x0 <= f x1) by (apply Hlmin; apply in_map; exact Hx1).
    repeat split; [assumption | lra | assumption].
Qed.

Lemma visit_value_range tbl pms s x :
  valid_table tbl -> Forall valid_entry pms -> In x (visits tbl pms) ->
  0 <= fst x * low_at (snd x) s /\
  fst x * low_at (snd x) s <= fst x * high_at (snd x) s /\
  fst x * high_at (snd x) s <= 1.
Proof.
  intros Ht Hp Hin.
  destruct (visit_prob_range tbl pms x Hp Hin) as [P0 P1].
  destruct (at_valid (snd x) s (visit_entry_valid tbl pms x Ht Hin))
    as (E0 & E1 & E2).
  repeat split; nra.
Qed.

(** The marginals of a list of valid parents. *)
Lemma parents_valid ps :
  Forall (fun p => valid_node p ->
            exists m, marginal_of p = OK m /\ keys m = states_of p
                      /\ valid_entry m) ps ->
  valid_nodes ps ->
  exists pms, snd (parent_marginals_of ps) = OK pms /\
    Forall2 (fun p pm => marginal_of p = OK pm /\ keys pm = states_of p
                         /\ valid_entry pm) ps pms.
Proof.
  induction 1 as [|p ps Hp Hps IH]; intros Hv; simpl.
  - exists []. split; [reflexivity | constructor].
  - destruct Hv as [Hvp Hvps].
    destruct (Hp Hvp) as (m & Hm & Hk & Hve).
    destruct (IH Hvps) as (pms & Hpms & Hall).
    unfold marginal_of in Hm.
    destruct (compute_marginal_extreme p) as [log1 r1] eqn:E1.
    simpl in Hm. subst r1.
    destruct (parent_marginals_of ps) as [log2 r2]. simpl in Hpms. subst r2.
    simpl. exists (m :: pms). split; [reflexivity|].
    constructor; [|exact Hall]. unfold marginal_of. rewrite E1. auto.
Qed.

Lemma parents_keys ps pms :
  Forall2 (fun p pm => marginal_of p = OK pm /\ keys pm = states_of p
                       /\ valid_entry pm) ps pms ->
  map keys pms = map states_of ps /\ Forall valid_entry pms.
Proof.
  induction 1 as [|p pm ps pms (Hm & Hk & Hv) H [IH1 IH2]]; simpl.
  - split; [reflexivity | constructor].
  - split; [congruence | constructor; assumption].
Qed.

Lemma first_entry_states_of nm p ps tbl :
  tbl <> [] ->
  first_entry_states tbl = OK (states_of (mkNode nm (p :: ps) tbl)).
Proof.
  intros H. destruct tbl as [|[k e] tbl]; [contradiction | reflexivity].
Qed.

(** A valid node has a marginal, over its own states, with valid bounds. *)
Lemma compute_valid node :
  valid_node node ->
  exists m, marginal_of node = OK m /\ keys m = states_of node
            /\ valid_entry m.
Proof.
  induction node as [nm ps tbl IH] using CredalNode_ind. intros Hv.
  apply valid_node_unfold in Hv. destruct Hv as (Ht & Hc & Hps).
  unfold marginal_of. rewrite compute_unfold.
  destruct ps as [|p ps].
  - destruct Hc as [entry He]. exists entry. simpl.
    unfold getitem. rewrite He. simpl. rewrite copy_entry.
    split; [reflexivity|]. split; [reflexivity|].
    apply (dict_get_In tuple_eqb tuple_eqb_eq) in He. exact (Ht [] entry He).
  - destruct Hc as [Hne Hcov].
    destruct (parents_valid (p :: ps) IH Hps) as (pms & Hpms & Hall).
    destruct (parents_keys _ _ Hall) as [Hk Hvp].
    destruct (parent_marginals_of (p :: ps)) as [log r]. simpl in Hpms.
    subst r. simpl.
    rewrite <- Hk in Hcov.
    destruct (node_marginal_spec tbl pms _
                (first_entry_states_of nm p ps tbl Hne) Hcov)
      as (m & Hm & Hkm & Hspec).
    exists m. split; [exact Hm|]. split; [exact Hkm|].
    intros s [l h] Hin. destruct (Hspec s l h Hin) as [Hl Hh].
    unfold lowvals in Hl. unfold highvals in Hh. unfold valid_interval. simpl.
    apply (spec_bounds (visits tbl pms)
             (fun x => fst x * low_at (snd x) s)
             (fun x => fst x * high_at (snd x) s)); auto.
    intros x Hx. apply (visit_value_range tbl pms s x); assumption.
Qed.

(** C5 — for a node with valid input tables (every interval within
    [0, 1] with low <= high, full coverage, at the node and its ancestors)
    the marginal computation returns, for every state of the node, a pair
    (low, high) with 0 <= low <= high <= 1. *)
Theorem marginal_bounds_valid (node : CredalNode) :
  valid_node node ->
  exists m, marginal_of node = OK m /\ keys m = states_of node /\
    forall s l h, In (s, (l, h)) m -> 0 <= l /\ l <= h /\ h <= 1.
Proof.
  intros Hv. destruct (compute_valid node Hv) as (m & Hm & Hk & Hve).
  exists m. split; [exact Hm|]. split; [exact Hk|].
  intros s l h Hin. exact (Hve s (l, h) Hin).
Qed.

Ltac solve_valid_table :=
  let k := fresh "k" in
  let entry := fresh "entry" in
  let Hin := fresh "Hin" in
  let s := fresh "s" in
  let iv := fresh "iv" in
  let Hs := fresh "Hs" in
  intros k entry Hin s iv Hs; simpl in Hin;
  repeat (destruct Hin as [Hin|Hin];
          [injection Hin as <- <-; simpl in Hs;
           repeat (destruct Hs as [Hs|Hs];
                   [injection Hs as <- <-;
                    repeat split; simpl; discriminate|]);
           destruct Hs|]);
  destruct Hin.

Ltac solve_covers :=
  let a := fresh "a" in
  let Hin := fresh "Hin" in
  let s := fresh "s" in
  let Hs := fresh "Hs" in
  intros a Hin; simpl in Hin;
  repeat (destruct Hin as [Hin|Hin];
          [subst a; eexists; split; [reflexivity|];
           intros s Hs; simpl in Hs;
           repeat (destruct Hs as [Hs|Hs];
                   [subst s; eexists; reflexivity|]);
           destruct Hs|]);
  destruct Hin.

Lemma flu_valid : valid_node flu.
Proof.
  apply valid_node_unfold. split; [solve_valid_table|].
  split; [eexists; reflexivity | exact I].
Qed.

Lemma cold_valid : valid_node cold.
Proof.
  apply valid_node_unfold. split; [solve_valid_table|].
  split; [eexists; reflexivity | exact I].
Qed.

Lemma fever_valid : valid_node fever.
Proof.
  apply valid_node_unfold. split; [solve_valid_table|]. split.
  - split; [discriminate | solve_covers].
  - split; [exact flu_valid|]. split; [exact cold_valid | exact I].
Qed.

Lemma marginal_bounds_valid_witness :
  exists m, marginal_of fever = OK m /\ keys m = states_of fever /\
    forall s l h, In (s, (l, h)) m -> 0 <= l /\ l <= h /\ h <= 1.
Proof.
  exact (marginal_bounds_valid fever fever_valid).
Defined.

(** * Monotonicity under widening *)

(** ** Normalized weights of two corners *)

Definition norm_val (v t : Q) : Q := if gt0 t then v / t else v.

Lemma gt0_compat x y : x == y -> gt0 x = gt0 y.
Proof.
  intros H. destruct (gt0 y) eqn:E.
  - apply gt0_true in E. apply gt0_true. rewrite H. exact E.
  - apply gt0_false in E. apply gt0_false. rewrite H. exact E.
Qed.

Lemma norm_val_mono v v' r r' t t' :
  0 <= v' -> v' <= v -> 0 <= r -> r <= r' ->
  t == v + r -> t' == v' + r' ->
  norm_val v' t' <= norm_val v t.
Proof.
  intros Hv0 Hv Hr0 Hr Ht Ht'. unfold norm_val.
  destruct (gt0 t') eqn:E'; destruct (gt0 t) eqn:E.
  - apply gt0_true in E, E'.
    apply Qle_shift_div_r; [exact E'|].
    assert (Hd : v / t * t' == (v * t') / t) by (field; lra).
    rewrite Hd. apply Qle_shift_div_l; [exact E|]. nra.
  - apply gt0_true in E'. apply gt0_false in E.
    assert (v == 0) by lra. assert (v' == 0) by lra.
    apply Qle_shift_div_r; [exact E'|]. nra.
  - apply gt0_false in E'. apply gt0_true in E.
    assert (v' == 0) by lra.
    apply Qle_shift_div_l; [exact E|]. nra.
  - exact Hv.
Qed.

Lemma weight_norm_pure (d : list (state * Q)) (s : state) :
  weight (norm_pure d) s == norm_val (weight d s) (py_sum (values d)).
Proof.
  unfold norm_pure, norm_val. destruct (gt0 (py_sum (values d))).
  - apply weight_scaled.
  - reflexivity.
Qed.

Lemma norm_val_compat v t t' : t == t' -> norm_val v t == norm_val v t'.
Proof.
  intros H. unfold norm_val. rewrite (gt0_compat t t' H).
  destruct (gt0 t'); [rewrite H|]; reflexivity.
Qed.

Lemma weight_combine_at (ks1 ks2 : list state) (c1 c2 : list Q) s c :
  ~ In s ks1 -> List.length ks1 = List.length c1 ->
  weight (combine (ks1 ++ s :: ks2) (c1 ++ c :: c2)) s = c.
Proof.
  unfold weight. revert c1. induction ks1 as [|k ks1 IH]; intros [|x c1] Hn Hl;
    simpl in Hl; try discriminate; simpl.
  - rewrite String.eqb_refl. reflexivity.
  - destruct (String.eqb k s) eqn:E.
    + apply String.eqb_eq in E. subst. exfalso. apply Hn. left. reflexivity.
    + apply IH; [|lia]. intros H. apply Hn. right. exact H.
Qed.

(** ** Corners of a marginal *)

Definition corners (pm : marginal) : list (list Q) :=
  product (map (fun '(l, u) => [l; u]) (values pm)).

Definition all_low (pm : marginal) : list Q := map (fun x => fst (snd x)) pm.
Definition all_high (pm : marginal) : list Q := map (fun x => snd (snd x)) pm.

Lemma corners_app (pre post : marginal) choice :
  In choice (corners (pre ++ post)) <->
  exists c1 c2, choice = c1 ++ c2 /\ In c1 (corners pre)
                /\ In c2 (corners post).
Proof.
  unfold corners, values. rewrite !map_app. split.
  - intros H. apply In_product in H. apply Forall2_app_inv_r in H.
    destruct H as (c1 & c2 & H1 & H2 & ->). exists c1, c2.
    split; [reflexivity|]. split; apply In_product; assumption.
  - intros (c1 & c2 & -> & H1 & H2). apply In_product.
    apply Forall2_app; apply In_product; assumption.
Qed.

Lemma corners_cons s l u (post : marginal) choice :
  In choice (corners ((s, (l, u)) :: post)) <->
  exists c c2, choice = c :: c2 /\ (c = l \/ c = u) /\ In c2 (corners post).
Proof.
  unfold corners. simpl. rewrite in_app_iff, !in_app_iff. split.
  - intros [H|[H|[]]]; apply in_map_iff in H; destruct H as [c2 [<- H]];
      [exists l, c2 | exists u, c2]; auto.
  - intros (c & c2 & -> & [-> | ->] & H); [left | right; left];
      apply in_map; exact H.
Qed.

Lemma all_low_corner pm : In (all_low pm) (corners pm).
Proof.
  induction pm as [|[s [l u]] pm IH].
  - left. reflexivity.
  - apply corners_cons. exists l, (all_low pm). auto.
Qed.

Lemma all_high_corner pm : In (all_high pm) (corners pm).
Proof.
  induction pm as [|[s [l u]] pm IH].
  - left. reflexivity.
  - apply corners_cons. exists u, (all_high pm). auto.
Qed.

Lemma corner_length' pm choice :
  In choice (corners pm) -> List.length choice = List.length pm.
Proof. apply corner_length. Qed.

Lemma widens_entry_keys e e' : widens_entry e e' -> keys e = keys e'.
Proof.
  unfold keys. induction 1 as [|x x' e e' (Hk & _) H IH]; simpl;
    [reflexivity|].
  f_equal; [exact Hk | exact IH].
Qed.

(** Every corner lies between the all-low corner and the all-high corner
    of a wider marginal. *)
Lemma corner_sum_between (pm pm' : marginal) choice :
  widens_entry pm pm' -> valid_entry pm -> valid_entry pm' ->
  In choice (corners pm) ->
  0 <= sumQ (all_low pm') /\ sumQ (all_low pm') <= sumQ choice
  /\ sumQ choice <= sumQ (all_high pm').
Proof.
  intros Hw. revert choice.
  induction Hw as [|[s [l u]] [s' [l' u']] pm pm' (Hs & Hl & Hu) Hw IH];
    intros choice Hv Hv' Hc.
  - destruct Hc as [<-|[]]. simpl. repeat split; apply Qle_refl.
  - simpl in Hs, Hl, Hu. apply corners_cons in Hc.
    destruct Hc as (c & c2 & -> & Hcc & Hc2).
    destruct (Hv s (l, u) (or_introl eq_refl)) as (A0 & A1 & A2).
    destruct (Hv' s' (l', u') (or_introl eq_refl)) as (B0 & B1 & B2).
    simpl in A0, A1, A2, B0, B1, B2.
    destruct (IH c2) as (I0 & I1 & I2); auto.
    { intros s0 iv H. apply (Hv s0 iv). right. exact H. }
    { intros s0 iv H. apply (Hv' s0 iv). right. exact H. }
    simpl. destruct Hcc as [-> | ->]; repeat split; lra.
Qed.

Lemma widens_entry_split (pm pm' : marginal) s :
  widens_entry pm pm' -> In s (keys pm) ->
  exists pre l u post pre' l' u' post',
    pm = pre ++ (s, (l, u)) :: post /\
    pm' = pre' ++ (s, (l', u')) :: post' /\
    ~ In s (keys pre) /\
    widens_entry pre pre' /\ widens_entry post post' /\
    l' <= l /\ u <= u'.
Proof.
  induction 1 as [|[s0 [l u]] [s0' [l' u']] pm pm' (Hs & Hl & Hu) Hw IH];
    intros Hin; [destruct Hin|].
  simpl in Hs, Hl, Hu. subst s0'.
  destruct (string_dec s0 s) as [->|Hne].
  - exists [], l, u, pm, [], l', u', pm'. simpl.
    repeat split; auto. constructor.
  - destruct Hin as [Hin|Hin]; [contradiction|].
    destruct (IH Hin)
      as (pre & l1 & u1 & post & pre' & l1' & u1' & post' &
          -> & -> & Hn & Hpre & Hpost & Hl1 & Hu1).
    exists ((s0, (l, u)) :: pre), l1, u1, post,
           ((s0, (l', u')) :: pre'), l1', u1', post'.
    repeat split; auto.
    + intros [H|H]; [contradiction | apply Hn; exact H].
    + constructor; [simpl; auto | exact Hpre].
Qed.

Lemma valid_entry_app (pre post : marginal) :
  valid_entry (pre ++ post) -> valid_entry pre /\ valid_entry post.
Proof.
  intros H. split; intros s iv Hin; apply (H s iv); apply in_or_app; auto.
Qed.

Lemma valid_entry_tail x (post : marginal) :
  valid_entry (x :: post) -> valid_entry post.
Proof. intros H s iv Hin. apply (H s iv). right. exact Hin. Qed.

Lemma extreme_of_corner (pm : marginal) choice :
  In choice (corners pm) ->
  In (norm_pure (combine (keys pm) choice)) (extremes_pure pm).
Proof.
  intros H. unfold extremes_pure.
  apply (in_map (fun choice => norm_pure (combine (keys pm) choice))).
  exact H.
Qed.

(** The weight an extreme point gives the state at which the marginal is
    split. *)
Lemma extreme_weight_at (pre post : marginal) s l u c1 c c2 t :
  ~ In s (keys pre) -> In c1 (corners pre) -> In c2 (corners post) ->
  t == c + (sumQ c1 + sumQ c2) ->
  weight (norm_pure (combine (keys (pre ++ (s, (l, u)) :: post))
                             (c1 ++ c :: c2))) s
  == norm_val c t.
Proof.
  intros Hn H1 H2 Ht.
  assert (L1 : List.length (keys pre) = List.length c1).
  { unfold keys. rewrite length_map. symmetry. apply corner_length'. exact H1. }
  assert (L2 : List.length (keys post) = List.length c2).
  { unfold keys. rewrite length_map. symmetry. apply corner_length'. exact H2. }
  assert (Ek : keys (pre ++ (s, (l, u)) :: post) = keys pre ++ s :: keys post).
  { unfold keys. rewrite map_app. reflexivity. }
  rewrite weight_norm_pure, Ek.
  rewrite weight_combine_at by assumption.
  rewrite values_combine.
  - apply norm_val_compat. rewrite py_sum_sumQ, sumQ_app. simpl.
    rewrite Ht. ring.
  - rewrite !length_app. simpl. lia.
Qed.

(** Against a wider marginal, the weight an extreme point gives a state is
    undercut by one extreme point of the wider marginal and exceeded by
    another. *)
Lemma extreme_dominated (pm pm' : marginal) d s :
  widens_entry pm pm' -> valid_entry pm -> valid_entry pm' ->
  In d (extremes_pure pm) -> In s (keys pm) ->
  (exists d', In d' (extremes_pure pm') /\ weight d' s <= weight d s) /\
  (exists d', In d' (extremes_pure pm') /\ weight d s <= weight d' s).
Proof.
  intros Hw Hv Hv' Hd Hs.
  destruct (widens_entry_split pm pm' s Hw Hs)
    as (pre & l & u & post & pre' & l' & u' & post' &
        -> & -> & Hn & Hpre & Hpost & Hl & Hu).
  assert (Hn' : ~ In s (keys pre')).
  { pose proof (widens_entry_keys pre pre' Hpre) as Ek. intros H. apply Hn.
    unfold marginal, interval in *. rewrite Ek. exact H. }
  destruct (valid_entry_app _ _ Hv) as [Vpre Vx].
  destruct (valid_entry_app _ _ Hv') as [Vpre' Vx'].
  pose proof (valid_entry_tail _ _ Vx) as Vpost.
  pose proof (valid_entry_tail _ _ Vx') as Vpost'.
  destruct (Vx s (l, u) (or_introl eq_refl)) as (A0 & A1 & A2).
  destruct (Vx' s (l', u') (or_introl eq_refl)) as (B0 & B1 & B2).
  simpl in A0, A1, A2, B0, B1, B2.
  unfold extremes_pure in Hd. apply in_map_iff in Hd.
  destruct Hd as [choice [<- Hc]]. fold (corners (pre ++ (s, (l, u)) :: post)) in Hc.
  apply corners_app in Hc. destruct Hc as (c1 & cx & -> & H1 & Hcx).
  apply corners_cons in Hcx. destruct Hcx as (c & c2 & -> & Hc & H2).
  destruct (corner_sum_between pre pre' c1 Hpre Vpre Vpre' H1)
    as (P0 & P1 & P2).
  destruct (corner_sum_between post post' c2 Hpost Vpost Vpost' H2)
    as (Q0 & Q1 & Q2).
  assert (Hcl : l <= c /\ c <= u) by (destruct Hc as [-> | ->]; lra).
  pose proof (extreme_weight_at pre post s l u c1 c c2
                (c + (sumQ c1 + sumQ c2)) Hn H1 H2 (Qeq_refl _)) as E0.
  split.
  - exists (norm_pure (combine (keys (pre' ++ (s, (l', u')) :: post'))
                               (all_high pre' ++ l' :: all_high post'))).
    split.
    + apply extreme_of_corner.
      apply corners_app. exists (all_high pre'), (l' :: all_high post').
      split; [reflexivity|]. split; [apply all_high_corner|].
      apply corners_cons. exists l', (all_high post').
      split; [reflexivity|]. split; [left; reflexivity | apply all_high_corner].
    + rewrite E0.
      rewrite (extreme_weight_at pre' post' s l' u' (all_high pre') l'
                 (all_high post')
                 (l' + (sumQ (all_high pre') + sumQ (all_high post')))
                 Hn' (all_high_corner pre') (all_high_corner post')
                 (Qeq_refl _)).
      apply (norm_val_mono c l' (sumQ c1 + sumQ c2)
               (sumQ (all_high pre') + sumQ (all_high post')));
        try reflexivity; lra.
  - exists (norm_pure (combine (keys (pre' ++ (s, (l', u')) :: post'))
                               (all_low pre' ++ u' :: all_low post'))).
    split.
    + apply extreme_of_corner.
      apply corners_app. exists (all_low pre'), (u' :: all_low post').
      split; [reflexivity|]. split; [apply all_low_corner|].
      apply corners_cons. exists u', (all_low post').
      split; [reflexivity|]. split; [right; reflexivity | apply all_low_corner].
    + rewrite E0.
      rewrite (extreme_weight_at pre' post' s l' u' (all_low pre') u'
                 (all_low post')
                 (u' + (sumQ (all_low pre') + sumQ (all_low post')))
                 Hn' (all_low_corner pre') (all_low_corner post')
                 (Qeq_refl _)).
      apply (norm_val_mono u' c (sumQ (all_low pre') + sumQ (all_low post'))
               (sumQ c1 + sumQ c2));
        try reflexivity; lra.
Qed.

(** ** Joint probabilities of two combinations *)

Lemma Qmult_le_mono a a' b b' :
  0 <= a' -> a' <= a -> 0 <= b' -> b' <= b -> a' * b' <= a * b.
Proof.
  intros Ha0 Ha Hb0 Hb. apply Qle_trans with (a * b').
  - apply Qmult_le_compat_r; assumption.
  - rewrite (Qmult_comm a b'), (Qmult_comm a b).
    apply Qmult_le_compat_r; [assumption | lra].
Qed.

Lemma prob_from_scale l acc :
  fold_left (fun p '(d, st) => p * weight d st) l acc
  == acc * fold_left (fun p '(d, st) => p * weight d st) l 1.
Proof.
  revert acc. induction l as [|[d s] l IH]; intros acc; simpl.
  - ring.
  - rewrite IH. rewrite (IH (1 * weight d s)). ring.
Qed.

Lemma prob_cons d combo s a :
  prob_pure (d :: combo) (s :: a) == weight d s * prob_pure combo a.
Proof.
  unfold prob_pure. simpl. rewrite prob_from_scale. ring.
Qed.

Lemma combo_dominated pms pms' :
  Forall2 widens_entry pms pms' ->
  Forall valid_entry pms -> Forall valid_entry pms' ->
  forall combo a,
    In combo (product (map extremes_pure pms)) ->
    In a (product (map keys pms)) ->
    0 <= prob_pure combo a /\
    (exists combo', In combo' (product (map extremes_pure pms')) /\
                    0 <= prob_pure combo' a /\
                    prob_pure combo' a <= prob_pure combo a) /\
    (exists combo', In combo' (product (map extremes_pure pms')) /\
                    prob_pure combo a <= prob_pure combo' a).
Proof.
  induction 1 as [|pm pm' pms pms' Hw Hws IH]; intros Hv Hv' combo a Hc Ha.
  - simpl in Hc, Ha. destruct Hc as [<-|[]]. destruct Ha as [<-|[]].
    split; [discriminate|].
    split; exists []; simpl; repeat split; auto; try discriminate.
  - inversion Hv as [|? ? Vpm Vpms]; subst.
    inversion Hv' as [|? ? Vpm' Vpms']; subst.
    apply In_product in Hc. simpl in Hc.
    inversion Hc as [|d opt combo0 opts Hd Hc0]; subst.
    apply In_product in Ha. simpl in Ha.
    inversion Ha as [|s ks a0 kss Hs Ha0]; subst.
    apply In_product in Hc0. apply In_product in Ha0.
    destruct (IH Vpms Vpms' combo0 a0 Hc0 Ha0)
      as (P0 & (cl & Hcl & Pl0 & Pl) & (ch & Hch & Ph)).
    destruct (extreme_dominated pm pm' d s Hw Vpm Vpm' Hd Hs)
      as ((dl & Hdl & Wl) & (dh & Hdh & Wh)).
    destruct (extreme_weight_range pm d s Vpm Hd) as [W0 _].
    destruct (extreme_weight_range pm' dl s Vpm' Hdl) as [Wl0 _].
    split; [rewrite prob_cons; apply Qmult_le_0_compat; assumption|].
    split.
    + exists (dl :: cl). split.
      * apply In_product. simpl. constructor; [exact Hdl|].
        apply In_product. exact Hcl.
      * rewrite !prob_cons.
        split; [apply Qmult_le_0_compat; assumption|].
        apply Qmult_le_mono; assumption.
    + exists (dh :: ch). split.
      * apply In_product. simpl. constructor; [exact Hdh|].
        apply In_product. exact Hch.
      * rewrite !prob_cons. apply Qmult_le_mono; assumption.
Qed.

(** ** Table entries of two tables *)

Lemma widens_table_get (t t' : table) a :
  widens_table t t' ->
  match dict_get tuple_eqb t a, dict_get tuple_eqb t' a with
  | Some e, Some e' => widens_entry e e'
  | None, None => True
  | _, _ => False
  end.
Proof.
  induction 1 as [|[k e] [k' e'] t t' (Hk & He) H IH]; simpl; [exact I|].
  simpl in Hk, He. subst k'. destruct (tuple_eqb k a); [exact He | exact IH].
Qed.

Lemma widens_entry_get (e e' : marginal) s :
  widens_entry e e' ->
  match dict_get String.eqb e s, dict_get String.eqb e' s with
  | Some iv, Some iv' => fst iv' <= fst iv /\ snd iv <= snd iv'
  | None, None => True
  | _, _ => False
  end.
Proof.
  induction 1 as [|[k iv] [k' iv'] e e' (Hk & He) H IH]; simpl; [exact I|].
  simpl in Hk, He. subst k'. destruct (String.eqb k s); [exact He | exact IH].
Qed.

Lemma entry_at_widens (t t' : table) a s :
  widens_table t t' ->
  low_at (entry_at t' a) s <= low_at (entry_at t a) s /\
  high_at (entry_at t a) s <= high_at (entry_at t' a) s.
Proof.
  intros Hw. pose proof (widens_table_get t t' a Hw) as H.
  unfold entry_at.
  destruct (dict_get tuple_eqb t a) as [e|];
    destruct (dict_get tuple_eqb t' a) as [e'|]; try contradiction.
  - pose proof (widens_entry_get e e' s H) as H1. unfold low_at, high_at.
    destruct (dict_get String.eqb e s) as [[l h]|];
      destruct (dict_get String.eqb e' s) as [[l' h']|]; try contradiction.
    + exact H1.
    + split; apply Qle_refl.
  - split; apply Qle_refl.
Qed.

Lemma widens_parent_keys pms pms' :
  Forall2 widens_entry pms pms' -> map keys pms = map keys pms'.
Proof.
  induction 1 as [|pm pm' pms pms' Hw H IH]; simpl; [reflexivity|].
  rewrite (widens_entry_keys pm pm' Hw), IH. reflexivity.
Qed.

Lemma product_extremes_inhabited pms :
  exists combo, In combo (product (map extremes_pure pms)).
Proof.
  induction pms as [|pm pms [combo Hc]].
  - exists []. left. reflexivity.
  - exists (norm_pure (combine (keys pm) (all_low pm)) :: combo).
    apply In_product. simpl. constructor.
    + apply extreme_of_corner. apply (all_low_corner pm).
    + apply In_product. exact Hc.
Qed.

(** Every visit of the narrower network is undercut (scaled lows) and
    exceeded (scaled highs) by a visit of the wider one. *)
Lemma visits_dominated tbl tbl' pms pms' s x :
  widens_table tbl tbl' -> valid_table tbl -> valid_table tbl' ->
  Forall2 widens_entry pms pms' ->
  Forall valid_entry pms -> Forall valid_entry pms' ->
  In x (visits tbl pms) ->
  (exists x', In x' (visits tbl' pms') /\
              fst x' * low_at (snd x') s <= fst x * low_at (snd x) s) /\
  (exists x', In x' (visits tbl' pms') /\
              fst x * high_at (snd x) s <= fst x' * high_at (snd x') s).
Proof.
  intros Ht Vt Vt' Hp Vp Vp' Hin. unfold visits in Hin.
  apply in_flat_map in Hin. destruct Hin as [combo [Hc Hin]].
  apply in_map_iff in Hin. destruct Hin as [a [<- Ha]]. simpl.
  rewrite (combo_keys pms combo Hc) in Ha.
  destruct (combo_dominated pms pms' Hp Vp Vp' combo a Hc Ha)
    as (P0 & (cl & Hcl & Pl0 & Pl) & (ch & Hch & Ph)).
  destruct (entry_at_widens tbl tbl' a s Ht) as [El Eh].
  destruct (at_valid (entry_at tbl a) s (entry_at_valid tbl a Vt))
    as (A0 & A1 & A2).
  destruct (at_valid (entry_at tbl' a) s (entry_at_valid tbl' a Vt'))
    as (B0 & B1 & B2).
  assert (Hv : forall c, In c (product (map extremes_pure pms')) ->
             In (prob_pure c a, entry_at tbl' a) (visits tbl' pms')).
  { intros c Hcin. unfold visits. apply in_flat_map. exists c.
    split; [exact Hcin|]. apply in_map with (f := fun a => (prob_pure c a, entry_at tbl' a)).
    rewrite (combo_keys pms' c Hcin), <- (widens_parent_keys pms pms' Hp).
    exact Ha. }
  split.
  - exists (prob_pure cl a, entry_at tbl' a). split; [apply Hv; exact Hcl|].
    simpl. apply Qmult_le_mono; assumption.
  - exists (prob_pure ch a, entry_at tbl' a). split; [apply Hv; exact Hch|].
    simpl. apply Qmult_le_mono; try assumption. lra.
Qed.

Lemma visits_inhabited_back tbl tbl' pms pms' x' :
  Forall2 widens_entry pms pms' ->
  In x' (visits tbl' pms') -> exists x, In x (visits tbl pms).
Proof.
  intros Hp Hin. unfold visits in Hin.
  apply in_flat_map in Hin. destruct Hin as [combo' [Hc' Hin]].
  apply in_map_iff in Hin. destruct Hin as [a [_ Ha]].
  rewrite (combo_keys pms' combo' Hc') in Ha.
  rewrite <- (widens_parent_keys pms pms' Hp) in Ha.
  destruct (product_extremes_inhabited pms) as [combo Hc].
  exists (prob_pure combo a, entry_at tbl a). unfold visits.
  apply in_flat_map. exists combo. split; [exact Hc|].
  apply in_map with (f := fun a => (prob_pure combo a, entry_at tbl a)).
  rewrite (combo_keys pms combo Hc). exact Ha.
Qed.

(** ** The marginals of two networks *)

Lemma low_spec_widens {A B} (items : list A) (items' : list B)
      (f : A -> Q) (f' : B -> Q) l l' :
  (forall x, In x items -> exists x', In x' items' /\ f' x' <= f x) ->
  (forall x', In x' items' -> exists x, In x items) ->
  low_spec (map f items) l -> low_spec (map f' items') l' -> l' <= l.
Proof.
  intros Hdom Hback [[E ->]|[Hl _]] [[E' ->]|[Hl' Hmin']].
  - apply Qle_refl.
  - apply map_eq_nil in E. subst items.
    apply in_map_iff in Hl'. destruct Hl' as [x' [_ Hx']].
    destruct (Hback x' Hx') as [x []].
  - apply map_eq_nil in E'. subst items'.
    apply in_map_iff in Hl. destruct Hl as [x [_ Hx]].
    destruct (Hdom x Hx) as [x' [[] _]].
  - apply in_map_iff in Hl. destruct Hl as [x [<- Hx]].
    destruct (Hdom x Hx) as [x' [Hx' Hle]].
    eapply Qle_trans; [|exact Hle]. apply Hmin'. apply in_map. exact Hx'.
Qed.

Lemma high_spec_widens {A B} (items : list A) (items' : list B)
      (g : A -> Q) (g' : B -> Q) h h' :
  (forall x, In x items -> exists x', In x' items' /\ g x <= g' x') ->
  (forall x', In x' items' -> exists x, In x items) ->
  high_spec (map g items) h -> high_spec (map g' items') h' -> h <= h'.
Proof.
  intros Hdom Hback [[E ->]|[Hh _]] [[E' ->]|[Hh' Hmax']].
  - apply Qle_refl.
  - apply map_eq_nil in E. subst items.
    apply in_map_iff in Hh'. destruct Hh' as [x' [_ Hx']].
    destruct (Hback x' Hx') as [x []].
  - apply map_eq_nil in E'. subst items'.
    apply in_map_iff in Hh. destruct Hh as [x [_ Hx]].
    destruct (Hdom x Hx) as [x' [[] _]].
  - apply in_map_iff in Hh. destruct Hh as [x [<- Hx]].
    destruct (Hdom x Hx) as [x' [Hx' Hle]].
    eapply Qle_trans; [exact Hle|]. apply Hmax'. apply in_map. exact Hx'.
Qed.

Lemma widens_entry_from_keys (m m' : marginal) :
  keys m = keys m' ->
  (forall s l h l' h', In (s, (l, h)) m -> In (s, (l', h')) m' ->
                       l' <= l /\ h <= h') ->
  widens_entry m m'.
Proof.
  revert m'. induction m as [|[s [l h]] m IH]; intros [|[s' [l' h']] m'] Hk H;
    simpl in Hk; try discriminate; [constructor|].
  injection Hk as <- Hk. constructor.
  - simpl. split; [reflexivity|].
    apply (H s l h l' h'); left; reflexivity.
  - apply IH; [exact Hk|]. intros s0 l0 h0 l0' h0' Hin Hin'.
    apply (H s0 l0 h0 l0' h0'); right; assumption.
Qed.

Lemma node_marginal_widens tbl tbl' pms pms' ns :
  widens_table tbl tbl' -> valid_table tbl -> valid_table tbl' ->
  Forall2 widens_entry pms pms' ->
  Forall valid_entry pms -> Forall valid_entry pms' ->
  first_entry_states tbl = OK ns -> first_entry_states tbl' = OK ns ->
  covers tbl (map keys pms) ns -> covers tbl' (map keys pms') ns ->
  exists m m', node_marginal tbl pms = OK m /\
               node_marginal tbl' pms' = OK m' /\ widens_entry m m'.
Proof.
  intros Ht Vt Vt' Hp Vp Vp' Hns Hns' Hcov Hcov'.
  destruct (node_marginal_spec tbl pms ns Hns Hcov) as (m & Hm & Hk & Hs).
  destruct (node_marginal_spec tbl' pms' ns Hns' Hcov')
    as (m' & Hm' & Hk' & Hs').
  exists m, m'. split; [exact Hm|]. split; [exact Hm'|].
  apply widens_entry_from_keys; [congruence|].
  intros s l h l' h' Hin Hin'.
  destruct (Hs s l h Hin) as [Hl Hh].
  destruct (Hs' s l' h' Hin') as [Hl' Hh'].
  unfold lowvals in Hl, Hl'. unfold highvals in Hh, Hh'. split.
  - apply (low_spec_widens (visits tbl pms) (visits tbl' pms')
             (fun x => fst x * low_at (snd x) s)
             (fun x => fst x * low_at (snd x) s)); auto.
    + intros x Hx.
      exact (proj1 (visits_dominated tbl tbl' pms pms' s x
                      Ht Vt Vt' Hp Vp Vp' Hx)).
    + intros x' Hx'. apply (visits_inhabited_back tbl tbl' pms pms' x' Hp Hx').
  - apply (high_spec_widens (visits tbl pms) (visits tbl' pms')
             (fun x => fst x * high_at (snd x) s)
             (fun x => fst x * high_at (snd x) s)); auto.
    + intros x Hx.
      exact (proj2 (visits_dominated tbl tbl' pms pms' s x
                      Ht Vt Vt' Hp Vp Vp' Hx)).
    + intros x' Hx'. apply (visits_inhabited_back tbl tbl' pms pms' x' Hp Hx').
Qed.

Lemma widens_states_of n n' : widens n n' -> states_of n = states_of n'.
Proof.
  destruct n as [nm ps tbl], n' as [nm' ps' tbl']. intros H.
  apply widens_unfold in H. destruct H as (_ & Ht & Hps).
  destruct ps as [|p ps]; destruct ps' as [|p' ps']; simpl in Hps;
    try contradiction; simpl.
  - pose proof (widens_table_get tbl tbl' [] Ht) as H.
    destruct (dict_get tuple_eqb tbl []) as [e|];
      destruct (dict_get tuple_eqb tbl' []) as [e'|]; try contradiction;
      [apply widens_entry_keys; exact H | reflexivity].
  - destruct Ht as [|[k e] [k' e'] t t' (_ & He) _]; [reflexivity|].
    apply widens_entry_keys. exact He.
Qed.

Definition widening_monotone_at (p : CredalNode) : Prop :=
  forall p', valid_node p -> valid_node p' -> widens p p' ->
    exists m m', marginal_of p = OK m /\ marginal_of p' = OK m'
                 /\ widens_entry m m'.

Lemma parents_widen ps : forall ps' pms pms',
  Forall widening_monotone_at ps ->
  valid_nodes ps -> valid_nodes ps' -> widens_all ps ps' ->
  Forall2 (fun p pm => marginal_of p = OK pm /\ keys pm = states_of p
                       /\ valid_entry pm) ps pms ->
  Forall2 (fun p pm => marginal_of p = OK pm /\ keys pm = states_of p
                       /\ valid_entry pm) ps' pms' ->
  Forall2 widens_entry pms pms'.
Proof.
  induction ps as [|p ps IH]; intros [|p' ps'] pms pms' HP Hv Hv' Hw H H';
    simpl in Hw; try contradiction.
  - inversion H; inversion H'; subst. constructor.
  - inversion H as [|? pm ? pms0 (Hm & _) Hrest]; subst.
    inversion H' as [|? pm' ? pms0' (Hm' & _) Hrest']; subst.
    inversion HP as [|? ? HPp HPps]; subst.
    destruct Hv as [Hvp Hvps]. destruct Hv' as [Hvp' Hvps'].
    destruct Hw as [Hwp Hwps].
    constructor.
    + destruct (HPp p' Hvp Hvp' Hwp) as (m & m' & E & E' & Hmm).
      congruence.
    + apply (IH ps'); assumption.
Qed.

Lemma widens_all_states ps ps' :
  widens_all ps ps' -> map states_of ps = map states_of ps'.
Proof.
  revert ps'. induction ps as [|p ps IH]; intros [|p' ps'] H;
    simpl in H; try contradiction; [reflexivity|].
  destruct H as [Hp Hps]. simpl.
  rewrite (widens_states_of p p' Hp), (IH ps' Hps). reflexivity.
Qed.

(** Over exact rationals, widening the tables of a node and of its
    ancestors never narrows its bounds. *)
Lemma widening_monotone_all node : widening_monotone_at node.
Proof.
  induction node as [nm ps tbl IH] using CredalNode_ind.
  intros [nm' ps' tbl'] Hv Hv' Hw.
  pose proof (widens_states_of _ _ Hw) as Hst.
  destruct (compute_valid _ Hv) as (m & Hm & Hk & Hve).
  destruct (compute_valid _ Hv') as (m' & Hm' & Hk' & Hve').
  apply widens_unfold in Hw. destruct Hw as (_ & Ht & Hps).
  apply valid_node_unfold in Hv. destruct Hv as (Vt & Hc & Vps).
  apply valid_node_unfold in Hv'. destruct Hv' as (Vt' & Hc' & Vps').
  exists m, m'. split; [exact Hm|]. split; [exact Hm'|].
  unfold marginal_of in Hm, Hm'. rewrite compute_unfold in Hm, Hm'.
  destruct ps as [|p ps]; destruct ps' as [|p' ps']; simpl in Hps;
    try contradiction.
  - simpl in Hm, Hm'. unfold getitem in Hm, Hm'.
    pose proof (widens_table_get tbl tbl' [] Ht) as H.
    destruct (dict_get tuple_eqb tbl []) as [e|]; [|discriminate].
    destruct (dict_get tuple_eqb tbl' []) as [e'|]; [|discriminate].
    simpl in Hm, Hm'. rewrite copy_entry in Hm, Hm'.
    injection Hm as <-. injection Hm' as <-. exact H.
  - destruct Hc as [Hne Hcov]. destruct Hc' as [Hne' Hcov'].
    destruct (parents_valid (p :: ps)) as (pms & Hpms & Hall).
    { apply Forall_forall. intros q _ Hq. apply compute_valid. exact Hq. }
    { exact Vps. }
    destruct (parents_valid (p' :: ps')) as (pms' & Hpms' & Hall').
    { apply Forall_forall. intros q _ Hq. apply compute_valid. exact Hq. }
    { exact Vps'. }
    destruct (parents_keys _ _ Hall) as [Hkp Hvp].
    destruct (parents_keys _ _ Hall') as [Hkp' Hvp'].
    pose proof (parents_widen (p :: ps) (p' :: ps') pms pms' IH Vps Vps'
                  Hps Hall Hall') as Hwp.
    destruct (parent_marginals_of (p :: ps)) as [log r]. simpl in Hpms.
    subst r.
    destruct (parent_marginals_of (p' :: ps')) as [log' r']. simpl in Hpms'.
    subst r'. simpl in Hm, Hm'.
    rewrite <- Hkp in Hcov. rewrite <- Hkp' in Hcov'. rewrite <- Hst in Hcov'.
    pose proof (first_entry_states_of nm p ps tbl Hne) as Hns.
    pose proof (first_entry_states_of nm' p' ps' tbl' Hne') as Hns'.
    rewrite <- Hst in Hns'.
    destruct (node_marginal_widens tbl tbl' pms pms' _
                Ht Vt Vt' Hwp Hvp Hvp' Hns Hns' Hcov Hcov')
      as (m0 & m0' & E & E' & Hmm).
    congruence.
Qed.

Lemma widens_entry_refl (e : marginal) : widens_entry e e.
Proof.
  induction e as [|x e IH]; constructor; [|exact IH].
  split; [reflexivity|]. split; apply Qle_refl.
Qed.

Lemma widens_table_refl (t : table) : widens_table t t.
Proof.
  induction t as [|x t IH]; constructor; [|exact IH].
  split; [reflexivity | apply widens_entry_refl].
Qed.

Lemma widens_refl (node : CredalNode) : widens node node.
Proof.
  induction node as [nm ps tbl IH] using CredalNode_ind.
  apply widens_unfold. split; [reflexivity|].
  split; [apply widens_table_refl|].
  induction IH as [|p ps Hp Hps IHps]; simpl; auto.
Qed.

(** C4, as stated, fails on ancestors: in binary64 the parent marginal
    {s: (1 - 2^-53, 1 - 2^-53), t: (1.5 * 2^-53, 1.5 * 2^-53)} gives the
    child the upper bound 1 - 2^-53, and the wider, valid parent marginal
    {s: (0.5, 1.0), t: unchanged} gives it the smaller upper bound
    1 - 2^-52: the quotient of line 67 is rounded. *)
Lemma ancestor_widening_narrows_in_binary64 :
  CredalBinary64.valid_tables CredalBinary64.child_narrow = true /\
  CredalBinary64.valid_tables CredalBinary64.child_wide = true /\
  CredalBinary64.widens CredalBinary64.child_narrow CredalBinary64.child_wide
  = true /\
  exists lo hi lo' hi',
    CredalBinary64.compute_marginal_extreme CredalBinary64.child_narrow
    = OK [("c", (lo, hi))] /\
    CredalBinary64.compute_marginal_extreme CredalBinary64.child_wide
    = OK [("c", (lo', hi'))] /\
    PrimFloat.ltb hi' hi = true.
Proof.
  split; [vm_compute; reflexivity|].
  split; [vm_compute; reflexivity|].
  split; [vm_compute; reflexivity|].
  do 4 eexists.
  split; [vm_compute; reflexivity|].
  split; vm_compute; reflexivity.
Qed.

(** C4, amended — when every interval of a node's own table is widened
    (each low replaced by a smaller or equal value, each high by a larger
    or equal one, the tables staying valid) and its ancestors are left as
    they are, the computed bounds of the node do not narrow: for every
    state the new low is at most the old low and the new high at least the
    old high. *)
Theorem own_table_widening_never_narrows
        (nm : string) (ps : list CredalNode) (tbl tbl' : table) :
  valid_node (mkNode nm ps tbl) -> valid_node (mkNode nm ps tbl') ->
  widens_table tbl tbl' ->
  exists m m',
    marginal_of (mkNode nm ps tbl) = OK m /\
    marginal_of (mkNode nm ps tbl') = OK m' /\
    Forall2 (fun x x' =>
               fst x = fst x' /\
               fst (snd x') <= fst (snd x) /\ snd (snd x) <= snd (snd x'))
            m m'.
Proof.
  intros Hv Hv' Hw.
  apply (widening_monotone_all (mkNode nm ps tbl) (mkNode nm ps tbl') Hv Hv').
  apply widens_unfold. split; [reflexivity|]. split; [exact Hw|].
  clear. induction ps as [|p ps IH]; simpl; [exact I|].
  split; [apply widens_refl | exact IH].
Qed.

Lemma fever_own_wide_valid : valid_node fever_own_wide.
Proof.
  apply valid_node_unfold. split; [solve_valid_table|]. split.
  - split; [discriminate | solve_covers].
  - split; [exact flu_valid|]. split; [exact cold_valid | exact I].
Qed.

Lemma own_table_widening_never_narrows_witness :
  exists m m',
    marginal_of fever = OK m /\ marginal_of fever_own_wide = OK m' /\
    Forall2 (fun x x' =>
               fst x = fst x' /\
               fst (snd x') <= fst (snd x) /\ snd (snd x) <= snd (snd x'))
            m m'.
Proof.
  apply (own_table_widening_never_narrows
           "Fever" [flu; cold] (credal_table fever)
           (credal_table fever_own_wide)).
  - exact fever_valid.
  - exact fever_own_wide_valid.
  - unfold widens_table, widens_entry. simpl.
    repeat (constructor; simpl); try reflexivity; discriminate.
Defined.

(** * Chains of point-valued tables *)

Ltac solve_degenerate_table :=
  let k := fresh "k" in
  let e := fresh "e" in
  let Hin := fresh "Hin" in
  let s := fresh "s" in
  let l := fresh "l" in
  let h := fresh "h" in
  let Hs := fresh "Hs" in
  intros k e Hin s l h Hs; simpl in Hin;
  repeat (destruct Hin as [Hin|Hin];
          [injection Hin as <- <-; simpl in Hs;
           repeat (destruct Hs as [Hs|Hs];
                   [injection Hs as <- <- <-; reflexivity|]);
           destruct Hs|]);
  destruct Hin.

Lemma chain_C_valid : valid_node chain_C.
Proof.
  apply valid_node_unfold. split; [solve_valid_table|]. split.
  - split; [discriminate | solve_covers].
  - split; [|exact I].
    apply valid_node_unfold. split; [solve_valid_table|]. split.
    + split; [discriminate | solve_covers].
    + split; [|exact I].
      apply valid_node_unfold. split; [solve_valid_table|].
      split; [eexists; reflexivity | exact I].
Qed.

Lemma chain_C_degenerate : degenerate_node chain_C.
Proof.
  simpl. repeat split; solve_degenerate_table.
Qed.

Lemma chain_is_chain : is_chain chain_A chain_B chain_C.
Proof. repeat split. Qed.

(** C2, as stated, fails: in the chain A -> B -> C above, whose tables are
    all points and which is an ordinary Bayesian network, the bounds
    computed for state "t" of B are 0 and 1/2. *)
Lemma chain_bounds_do_not_collapse :
  ~ (forall A B C : CredalNode,
        is_chain A B C -> valid_node C -> degenerate_node C ->
        forall n, In n [A; B; C] ->
          exists m, marginal_of n = OK m /\
            forall s l h, In (s, (l, h)) m ->
              l == h /\ l == weight (forward n) s).
Proof.
  intros H.
  destruct (H chain_A chain_B chain_C chain_is_chain chain_C_valid
              chain_C_degenerate chain_B (or_intror (or_introl eq_refl)))
    as (m & Hm & Hall).
  vm_compute in Hm. injection Hm as <-.
  destruct (Hall "t" _ _ (or_introl eq_refl)) as [E _].
  vm_compute in E. discriminate.
Qed.

(** ** What the engine computes on such a chain *)

Definition same_dist (d d' : list (state * Q)) : Prop :=
  Forall2 (fun x y => fst x = fst y /\ snd x == snd y) d d'.

Lemma same_dist_weight d d' a : same_dist d d' -> weight d a == weight d' a.
Proof.
  unfold weight. induction 1 as [|[k v] [k' v'] d d' (Hk & Hv) H IH]; simpl.
  - reflexivity.
  - simpl in Hk, Hv. subst k'. destruct (String.eqb k a); [exact Hv | exact IH].
Qed.

Lemma same_dist_sum d d' :
  same_dist d d' -> sumQ (values d) == sumQ (values d').
Proof.
  induction 1 as [|[k v] [k' v'] d d' (Hk & Hv) H IH]; simpl.
  - reflexivity.
  - simpl in Hv. rewrite Hv, IH. reflexivity.
Qed.

Lemma norm_val_compat2 v v' t t' :
  v == v' -> t == t' -> norm_val v t == norm_val v' t'.
Proof.
  intros Hv Ht. unfold norm_val. rewrite (gt0_compat t t' Ht).
  destruct (gt0 t'); [rewrite Hv, Ht|rewrite Hv]; reflexivity.
Qed.

Lemma same_dist_norm_weight d d' a :
  same_dist d d' -> weight (norm_pure d) a == weight (norm_pure d') a.
Proof.
  intros H. rewrite !weight_norm_pure. apply norm_val_compat2.
  - apply same_dist_weight. exact H.
  - rewrite !py_sum_sumQ. apply same_dist_sum. exact H.
Qed.

Lemma corner_point (pm : marginal) choice :
  degenerate_entry pm -> In choice (corners pm) ->
  same_dist (combine (keys pm) choice) (point_dist pm).
Proof.
  revert choice. induction pm as [|[s [l u]] pm IH]; intros choice Hd Hc.
  - destruct Hc as [<-|[]]. constructor.
  - apply corners_cons in Hc. destruct Hc as (c & c2 & -> & Hcc & Hc2).
    simpl. constructor.
    + simpl. split; [reflexivity|].
      destruct Hcc as [-> | ->]; [reflexivity|].
      symmetry. apply (Hd s l u). left. reflexivity.
    + apply IH; [|exact Hc2]. intros s0 l0 h0 Hin.
      apply (Hd s0 l0 h0). right. exact Hin.
Qed.

(** Every extreme point of a point-valued marginal is its normalized point
    distribution. *)
Lemma degenerate_extreme_weight (pm : marginal) d a :
  degenerate_entry pm -> In d (extremes_pure pm) ->
  weight d a == weight (norm_pure (point_dist pm)) a.
Proof.
  intros Hd Hin. unfold extremes_pure in Hin. apply in_map_iff in Hin.
  destruct Hin as [choice [<- Hc]]. apply same_dist_norm_weight.
  apply corner_point; assumption.
Qed.

Lemma visits_single tbl (pm : marginal) x :
  In x (visits tbl [pm]) <->
  exists d a, In d (extremes_pure pm) /\ In a (keys pm) /\
              x = (prob_pure [d] [a], entry_at tbl [a]).
Proof.
  unfold visits. rewrite in_flat_map. split.
  - intros [combo [Hc Hin]]. apply in_map_iff in Hin.
    destruct Hin as [a [<- Ha]].
    rewrite (combo_keys [pm] combo Hc) in Ha.
    apply In_product in Hc. simpl in Hc.
    inversion Hc as [|d ? ? ? Hd Hnil]; subst. inversion Hnil; subst.
    apply In_product in Ha. simpl in Ha.
    inversion Ha as [|a0 ? ? ? Ha0 Hnil']; subst. inversion Hnil'; subst.
    exists d, a0. auto.
  - intros (d & a & Hd & Ha & ->). exists [d]. split.
    + apply In_product. simpl. constructor; [exact Hd | constructor].
    + apply in_map with (f := fun a => (prob_pure [d] a, entry_at tbl a)).
      apply In_product. simpl. constructor; [|constructor].
      rewrite (extreme_keys pm d Hd). exact Ha.
Qed.

Lemma prob_single d a : prob_pure [d] [a] == weight d a.
Proof. unfold prob_pure. simpl. ring. Qed.

Lemma extremes_inhabited (pm : marginal) : exists d, In d (extremes_pure pm).
Proof.
  exists (norm_pure (combine (keys pm) (all_low pm))).
  apply extreme_of_corner. apply all_low_corner.
Qed.

(** The marginal of the only child of a point-valued parent marginal: for
    every state the least and the greatest single term of the forward
    sum. *)
Lemma single_parent_degenerate tbl (pm : marginal) ns m :
  degenerate_entry pm -> keys pm <> [] ->
  first_entry_states tbl = OK ns -> covers tbl [keys pm] ns ->
  node_marginal tbl [pm] = OK m ->
  forall s l h, In (s, (l, h)) m ->
    (exists a, In a (keys pm) /\
       l == weight (norm_pure (point_dist pm)) a
            * low_at (entry_at tbl [a]) s) /\
    (forall a, In a (keys pm) ->
       l <= weight (norm_pure (point_dist pm)) a
            * low_at (entry_at tbl [a]) s) /\
    (exists a, In a (keys pm) /\
       h == weight (norm_pure (point_dist pm)) a
            * high_at (entry_at tbl [a]) s) /\
    (forall a, In a (keys pm) ->
       weight (norm_pure (point_dist pm)) a
       * high_at (entry_at tbl [a]) s <= h).
Proof.
  intros Hd Hne Hns Hcov Hm s l h Hin.
  destruct (node_marginal_spec tbl [pm] ns Hns Hcov) as (m0 & Hm0 & _ & Hs).
  assert (m0 = m) by congruence. subst m0.
  destruct (Hs s l h Hin) as [Hl Hh].
  destruct (extremes_inhabited pm) as [d0 Hd0].
  assert (Hvis : forall a, In a (keys pm) ->
            In (prob_pure [d0] [a], entry_at tbl [a]) (visits tbl [pm])).
  { intros a Ha. apply visits_single. exists d0, a. auto. }
  assert (Hw : forall d a, In d (extremes_pure pm) ->
            prob_pure [d] [a] == weight (norm_pure (point_dist pm)) a).
  { intros d a Hdin. rewrite prob_single.
    apply degenerate_extreme_weight; assumption. }
  assert (Hex : exists a0, In a0 (keys pm)).
  { destruct (keys pm) as [|a0 ks]; [contradiction|].
    exists a0. left. reflexivity. }
  destruct Hex as [a0 Ha0].
  unfold lowvals in Hl. unfold highvals in Hh.
  destruct Hl as [[E _]|[Hlin Hlmin]].
  { apply map_eq_nil in E. pose proof (Hvis a0 Ha0) as Hx.
    rewrite E in Hx. destruct Hx. }
  destruct Hh as [[E _]|[Hhin Hhmax]].
  { apply map_eq_nil in E. pose proof (Hvis a0 Ha0) as Hx.
    rewrite E in Hx. destruct Hx. }
  split; [|split; [|split]].
  - apply in_map_iff in Hlin. destruct Hlin as [x [<- Hx]].
    apply visits_single in Hx. destruct Hx as (d & a & Hdin & Ha & ->).
    exists a. split; [exact Ha|]. simpl.
    rewrite (Hw d a Hdin). reflexivity.
  - intros a Ha.
    assert (Hle : l <= prob_pure [d0] [a] * low_at (entry_at tbl [a]) s).
    { apply Hlmin.
      exact (in_map (fun x => fst x * low_at (snd x) s) _ _ (Hvis a Ha)). }
    rewrite (Hw d0 a Hd0) in Hle. exact Hle.
  - apply in_map_iff in Hhin. destruct Hhin as [x [<- Hx]].
    apply visits_single in Hx. destruct Hx as (d & a & Hdin & Ha & ->).
    exists a. split; [exact Ha|]. simpl.
    rewrite (Hw d a Hdin). reflexivity.
  - intros a Ha.
    assert (Hle : prob_pure [d0] [a] * high_at (entry_at tbl [a]) s <= h).
    { apply Hhmax.
      exact (in_map (fun x => fst x * high_at (snd x) s) _ _ (Hvis a Ha)). }
    rewrite (Hw d0 a Hd0) in Hle. exact Hle.
Qed.

Lemma marginal_of_single_parent nb A tb mA :
  marginal_of A = OK mA ->
  marginal_of (mkNode nb [A] tb) = node_marginal tb [mA].
Proof.
  intros H. unfold marginal_of in *. rewrite compute_unfold.
  cbn [parent_marginals_of].
  destruct (compute_marginal_extreme A) as [lg r]. simpl in H. subst r.
  reflexivity.
Qed.

(** C2, amended — in a chain A -> B -> C with valid tables whose intervals
    are all points: the marginal of the root A is its own point
    distribution (low == high), the forward one; at B, when A has a state,
    the low of a state is the least and the high the greatest single term
    w(a) * P(state | a) over the states a of A, with w the normalized point
    distribution of A, not their sum; at C the bounds satisfy
    0 <= low <= high <= 1. Beyond the root, low and high need not be
    equal. *)
Theorem degenerate_chain_bounds (A B C : CredalNode) :
  is_chain A B C -> valid_node C -> degenerate_node C ->
  exists mA mB mC,
    marginal_of A = OK mA /\ marginal_of B = OK mB /\
    marginal_of C = OK mC /\
    (point_dist mA = forward A /\
     forall s l h, In (s, (l, h)) mA -> l == h) /\
    (states_of A <> [] ->
     forall s l h, In (s, (l, h)) mB ->
       (exists a, In a (states_of A) /\
          l == weight (norm_pure (point_dist mA)) a
               * low_at (entry_at (credal_table B) [a]) s) /\
       (forall a, In a (states_of A) ->
          l <= weight (norm_pure (point_dist mA)) a
               * low_at (entry_at (credal_table B) [a]) s) /\
       (exists a, In a (states_of A) /\
          h == weight (norm_pure (point_dist mA)) a
               * high_at (entry_at (credal_table B) [a]) s) /\
       (forall a, In a (states_of A) ->
          weight (norm_pure (point_dist mA)) a
          * high_at (entry_at (credal_table B) [a]) s <= h)) /\
    (forall s l h, In (s, (l, h)) mC -> 0 <= l /\ l <= h /\ h <= 1).
Proof.
  destruct A as [na psA ta], B as [nb psB tb], C as [nc psC tc].
  intros (HA & HB & HC) Hv Hd. simpl in HA, HB, HC. subst psA psB psC.
  destruct (compute_valid _ Hv) as (mC & HmC & _ & HvC).
  apply valid_node_unfold in Hv. destruct Hv as (_ & _ & HvB & _).
  destruct Hd as (_ & (HdB & HdA & _) & _).
  destruct HdA as [HdA _]. clear HdB.
  destruct (compute_valid _ HvB) as (mB & HmB & _ & _).
  apply valid_node_unfold in HvB.
  destruct HvB as (_ & (Hne & Hcov) & HvA & _).
  destruct (compute_valid _ HvA) as (mA & HmA & HkA & _).
  exists mA, mB, mC. split; [exact HmA|]. split; [exact HmB|].
  split; [exact HmC|].
  assert (HgetA : dict_get tuple_eqb ta [] = Some mA).
  { unfold marginal_of in HmA. rewrite compute_unfold in HmA. simpl in HmA.
    unfold getitem in HmA.
    destruct (dict_get tuple_eqb ta []) as [e|]; [|discriminate].
    simpl in HmA. rewrite copy_entry in HmA. injection HmA as ->.
    reflexivity. }
  split; [|split].
  - split.
    + simpl. unfold entry_at. rewrite HgetA. reflexivity.
    + intros s l h Hin.
      apply (HdA [] mA (dict_get_In tuple_eqb tuple_eqb_eq _ _ _ HgetA) s l h).
      exact Hin.
  - intros HneA s l h Hin.
    rewrite (marginal_of_single_parent nb _ tb mA HmA) in HmB.
    change (map states_of [mkNode na [] ta])
      with [states_of (mkNode na [] ta)] in Hcov.
    rewrite <- HkA in *.
    apply (single_parent_degenerate tb mA
             (states_of (mkNode nb [mkNode na [] ta] tb)) mB); auto.
    + intros s0 l0 h0 Hin0.
      apply (HdA [] mA (dict_get_In tuple_eqb tuple_eqb_eq _ _ _ HgetA)
               s0 l0 h0).
      exact Hin0.
    + exact (first_entry_states_of nb (mkNode na [] ta) [] tb Hne).
  - intros s l h Hin. exact (HvC s (l, h) Hin).
Qed.

Lemma degenerate_chain_bounds_witness :
  exists mA mB mC,
    marginal_of chain_A = OK mA /\ marginal_of chain_B = OK mB /\
    marginal_of chain_C = OK mC /\
    (point_dist mA = forward chain_A /\
     forall s l h, In (s, (l, h)) mA -> l == h) /\
    (states_of chain_A <> [] ->
     forall s l h, In (s, (l, h)) mB ->
       (exists a, In a (states_of chain_A) /\
          l == weight (norm_pure (point_dist mA)) a
               * low_at (entry_at (credal_table chain_B) [a]) s) /\
       (forall a, In a (states_of chain_A) ->
          l <= weight (norm_pure (point_dist mA)) a
               * low_at (entry_at (credal_table chain_B) [a]) s) /\
       (exists a, In a (states_of chain_A) /\
          h == weight (norm_pure (point_dist mA)) a
               * high_at (entry_at (credal_table chain_B) [a]) s) /\
       (forall a, In a (states_of chain_A) ->
          weight (norm_pure (point_dist mA)) a
          * high_at (entry_at (credal_table chain_B) [a]) s <= h)) /\
    (forall s l h, In (s, (l, h)) mC -> 0 <= l /\ l <= h /\ h <= 1).
Proof.
  exact (degenerate_chain_bounds chain_A chain_B chain_C
           chain_is_chain chain_C_valid chain_C_degenerate).
Defined.

(** * Further properties of credal.py *)

(** ** Exceptions *)

(** X1 — a node without parents whose table has no entry for the empty
    tuple raises [KeyError] (line 45). *)
Theorem root_without_entry_raises (node : CredalNode) :
  parents node = [] ->
  dict_get tuple_eqb (credal_table node) [] = None ->
  marginal_of node = Raise KeyError.
Proof.
  destruct node as [nm ps tbl]. simpl. intros -> H.
  unfold marginal_of. rewrite compute_unfold. simpl.
  unfold getitem. rewrite H. reflexivity.
Qed.

Lemma root_without_entry_raises_witness :
  marginal_of (mkNode "Flu" [] [(["Present"], [("Present", (0, 1))])])
  = Raise KeyError.
Proof.
  apply root_without_entry_raises; reflexivity.
Defined.

Lemma parent_marginals_OK ps pms :
  Forall2 (fun p pm => marginal_of p = OK pm) ps pms ->
  snd (parent_marginals_of ps) = OK pms.
Proof.
  induction 1 as [|p pm ps pms Hp H IH]; simpl; [reflexivity|].
  unfold marginal_of in Hp.
  destruct (compute_marginal_extreme p) as [log1 r1]. simpl in Hp. subst r1.
  destruct (parent_marginals_of ps) as [log2 r2]. simpl in IH. subst r2.
  reflexivity.
Qed.

Lemma marginal_of_nonroot nm p ps tbl pms :
  Forall2 (fun q pm => marginal_of q = OK pm) (p :: ps) pms ->
  marginal_of (mkNode nm (p :: ps) tbl) = node_marginal tbl pms.
Proof.
  intros H. apply parent_marginals_OK in H.
  unfold marginal_of. rewrite compute_unfold.
  destruct (parent_marginals_of (p :: ps)) as [log r]. simpl in H. subst r.
  reflexivity.
Qed.

(** X2 — a node with parents, all of whose marginals are computed, and an
    empty table raises [StopIteration] (line 53): there is no first entry
    to read the node's states from. *)
Theorem empty_table_raises_StopIteration
        (nm : string) (p : CredalNode) (ps : list CredalNode)
        (pms : list marginal) :
  Forall2 (fun q pm => marginal_of q = OK pm) (p :: ps) pms ->
  marginal_of (mkNode nm (p :: ps) []) = Raise StopIteration.
Proof.
  intros H. rewrite (marginal_of_nonroot nm p ps [] pms H). reflexivity.
Qed.

Lemma empty_table_raises_StopIteration_witness :
  marginal_of (mkNode "Fever" [flu; cold] []) = Raise StopIteration.
Proof.
  eapply (empty_table_raises_StopIteration "Fever" flu [cold]).
  repeat constructor.
Defined.

Lemma mapM_only_raises {A B} (f : A -> result B) (e : exn) xs :
  (forall x, (exists y, f x = OK y) \/ f x = Raise e) ->
  (exists ys, mapM f xs = OK ys) \/ mapM f xs = Raise e.
Proof.
  intros Hf. induction xs as [|x xs IH]; simpl; [left; eauto|].
  destruct (Hf x) as [[y ->]| ->]; simpl; [|auto].
  destruct IH as [[ys ->]| ->]; simpl; eauto.
Qed.

Lemma finalize_cases ns b :
  (exists m, finalize ns b = OK m) \/ finalize ns b = Raise KeyError.
Proof.
  destruct b as [lower upper]. unfold finalize. apply mapM_only_raises.
  intros s.
  destruct (getitem_cases String.eqb lower s) as [[x ->]| ->]; simpl; [|auto].
  destruct (getitem_cases String.eqb upper s) as [[y ->]| ->]; simpl; eauto.
Qed.

Lemma node_marginal_errors tbl pms e :
  node_marginal tbl pms = Raise e -> e = KeyError \/ e = StopIteration.
Proof.
  unfold node_marginal. destruct tbl as [|[k entry] tbl]; simpl.
  - intros H. injection H as <-. right. reflexivity.
  - rewrite all_extreme_points_pure. simpl.
    destruct (foldM_only_raises
                (visit_combo ((k, entry) :: tbl) (keys entry)) KeyError
                (product (map extremes_pure pms))
                (initial_bounds (keys entry))) as [[b ->]| ->].
    + intros. apply visit_combo_cases.
    + simpl. destruct (finalize_cases (keys entry) b) as [[m ->]| ->].
      * discriminate.
      * intros H. injection H as <-. left. reflexivity.
    + simpl. intros H. injection H as <-. left. reflexivity.
Qed.

Lemma parents_errors ps e :
  Forall (fun p => forall e, marginal_of p = Raise e ->
                   e = KeyError \/ e = StopIteration) ps ->
  snd (parent_marginals_of ps) = Raise e ->
  e = KeyError \/ e = StopIteration.
Proof.
  induction 1 as [|p ps Hp Hps IH]; simpl; [discriminate|].
  unfold marginal_of in Hp.
  destruct (compute_marginal_extreme p) as [log1 [pm|e1]]; simpl in *.
  - destruct (parent_marginals_of ps) as [log2 [pms|e2]]; simpl in *.
    + discriminate.
    + intros H. injection H as <-. apply IH. reflexivity.
  - intros H. injection H as <-. apply Hp. reflexivity.
Qed.

Lemma compute_errors node e :
  marginal_of node = Raise e -> e = KeyError \/ e = StopIteration.
Proof.
  revert e. induction node as [nm ps tbl IH] using CredalNode_ind.
  intros e. unfold marginal_of. rewrite compute_unfold.
  destruct ps as [|p ps].
  - simpl. destruct (getitem_cases tuple_eqb tbl []) as [[x ->]| ->]; simpl.
    + discriminate.
    + intros H. injection H as <-. left. reflexivity.
  - pose proof (parents_errors (p :: ps)) as Hp.
    destruct (parent_marginals_of (p :: ps)) as [log [pms|e1]]; simpl in *.
    + apply node_marginal_errors.
    + intros H. injection H as <-. apply Hp; [exact IH | reflexivity].
Qed.

(** X3 — whatever the network, [compute_marginal_extreme] raises nothing
    but the lookup failure [KeyError] and the [StopIteration] of an empty
    table: in particular it never raises [ZeroDivisionError]. *)
Theorem marginal_raises_only_lookup_errors (node : CredalNode) (e : exn) :
  marginal_of node = Raise e -> e = KeyError \/ e = StopIteration.
Proof. apply compute_errors. Qed.

Lemma marginal_raises_only_lookup_errors_witness :
  StopIteration = KeyError \/ StopIteration = StopIteration.
Proof.
  apply (marginal_raises_only_lookup_errors (mkNode "Fever" [flu; cold] [])).
  reflexivity.
Defined.

Lemma parent_marginals_raise pre p post e :
  Forall (fun q => exists pm, marginal_of q = OK pm) pre ->
  marginal_of p = Raise e ->
  snd (parent_marginals_of (pre ++ p :: post)) = Raise e.
Proof.
  intros Hpre Hp. induction Hpre as [|q pre [pm Hq] Hpre IH]; simpl.
  - unfold marginal_of in Hp.
    destruct (compute_marginal_extreme p) as [log1 r1]. simpl in Hp.
    subst r1. reflexivity.
  - unfold marginal_of in Hq.
    destruct (compute_marginal_extreme q) as [log1 r1]. simpl in Hq.
    subst r1.
    destruct (parent_marginals_of (pre ++ p :: post)) as [log2 r2].
    simpl in IH. subst r2. reflexivity.
Qed.

(** X4 — an exception raised while computing a parent's marginal (the
    parents before it having succeeded) is the exception of the node
    itself: line 50 does not catch anything. *)
Theorem parent_exception_propagates
        (nm : string) (pre post : list CredalNode) (p : CredalNode)
        (tbl : table) (e : exn) :
  Forall (fun q => exists pm, marginal_of q = OK pm) pre ->
  marginal_of p = Raise e ->
  marginal_of (mkNode nm (pre ++ p :: post) tbl) = Raise e.
Proof.
  intros Hpre Hp.
  pose proof (parent_marginals_raise pre p post e Hpre Hp) as H.
  unfold marginal_of. rewrite compute_unfold.
  destruct (pre ++ p :: post) as [|q qs] eqn:E.
  - destruct pre; discriminate.
  - destruct (parent_marginals_of (q :: qs)) as [log r]. simpl in H.
    subst r. reflexivity.
Qed.

Lemma parent_exception_propagates_witness :
  marginal_of (mkNode "Fever" [flu; mkNode "Cold" [] []]
                      (credal_table fever))
  = Raise KeyError.
Proof.
  apply (parent_exception_propagates "Fever" [flu] [] (mkNode "Cold" [] [])).
  - constructor; [|constructor]. eexists. reflexivity.
  - reflexivity.
Defined.

(** ** A parent without states *)

Lemma product_empty_pool {A} (pools : list (list A)) :
  In [] pools -> product pools = [].
Proof.
  induction pools as [|pool rest IH]; intros H; [destruct H|].
  simpl. destruct H as [->|H]; [reflexivity|].
  rewrite (IH H). induction pool as [|x pool IHp]; [reflexivity|exact IHp].
Qed.

Lemma foldM_skip {A S} (body : S -> A -> result S) xs s :
  (forall x s, In x xs -> body s x = OK s) -> foldM body xs s = OK s.
Proof.
  induction xs as [|x xs IH]; intros H; simpl; [reflexivity|].
  rewrite (H x s (or_introl eq_refl)). simpl. apply IH.
  intros. apply H. right. assumption.
Qed.

Lemma finalize_initial ns :
  finalize ns (initial_bounds ns) = OK (map (fun s => (s, (0, 1))) ns).
Proof.
  unfold finalize, initial_bounds. apply mapM_pure. intros s Hs.
  assert (E : dict_get String.eqb (map (fun s0 => (s0, @None Q)) ns) s
              = Some None).
  { induction ns as [|s0 ns IH]; [destruct Hs|]. simpl.
    destruct (String.eqb s0 s) eqn:E; [reflexivity|].
    apply IH. destruct Hs as [->|Hs]; [|exact Hs].
    rewrite String.eqb_refl in E. discriminate. }
  unfold getitem. rewrite E. reflexivity.
Qed.

(** X5 — when one of the parents has a marginal without any state, no
    joint assignment is enumerated and the node gets the fallback bounds
    (0, 1) for every state of its first table entry (lines 93-97), whatever
    else its table holds. *)
Theorem parent_without_states_gives_vacuous_bounds
        (nm : string) (p : CredalNode) (ps : list CredalNode) (tbl : table)
        (pms : list marginal) (ns : list state) :
  Forall2 (fun q pm => marginal_of q = OK pm) (p :: ps) pms ->
  In [] pms ->
  first_entry_states tbl = OK ns ->
  marginal_of (mkNode nm (p :: ps) tbl)
  = OK (map (fun s => (s, (0, 1))) ns).
Proof.
  intros Hp Hin Hns. rewrite (marginal_of_nonroot nm p ps tbl pms Hp).
  unfold node_marginal. rewrite Hns. simpl.
  rewrite all_extreme_points_pure. simpl.
  rewrite foldM_skip; [simpl; apply finalize_initial|].
  intros combo b Hc. unfold visit_combo.
  rewrite (combo_keys pms combo Hc).
  rewrite product_empty_pool; [reflexivity|].
  apply (in_map keys) in Hin. exact Hin.
Qed.

Lemma parent_without_states_gives_vacuous_bounds_witness :
  marginal_of (mkNode "Fever" [mkNode "Flu" [] [([], [])]; cold]
                      (credal_table fever))
  = OK [("Present", (0, 1)); ("Absent", (0, 1))].
Proof.
  apply (parent_without_states_gives_vacuous_bounds
           "Fever" (mkNode "Flu" [] [([], [])]) [cold] (credal_table fever)
           [[]; [("Present", (1#10, 2#10)); ("Absent", (8#10, 9#10))]]
           ["Present"; "Absent"]).
  - repeat constructor.
  - left. reflexivity.
  - reflexivity.
Defined.

(** ** Extreme points *)

Lemma product_pairs_length (pm : marginal) :
  List.length (corners pm) = (2 ^ List.length pm)%nat.
Proof.
  unfold corners, values. induction pm as [|[s [l u]] pm IH].
  - reflexivity.
  - change (List.length
              (map (cons l) (product (map (fun '(l0, u0) => [l0; u0])
                                          (map snd pm)))
               ++ (map (cons u) (product (map (fun '(l0, u0) => [l0; u0])
                                              (map snd pm))) ++ []))
            = (2 ^ S (List.length pm))%nat).
    rewrite !length_app, !length_map, IH. simpl. lia.
Qed.

(** X6 — the extreme points of a parent marginal with n states (lines
    60-69): the computation always succeeds and yields 2^n dicts over the
    states of the marginal, in the marginal's order; when the intervals of
    the marginal are valid, every weight of every extreme point lies
    between 0 and 1. *)
Theorem extreme_points_shape (pm : marginal) :
  exists exts,
    extreme_points pm = OK exts /\
    List.length exts = (2 ^ List.length pm)%nat /\
    (forall d, In d exts -> keys d = keys pm) /\
    (valid_entry pm ->
     forall d s, In d exts -> 0 <= weight d s /\ weight d s <= 1).
Proof.
  exists (extremes_pure pm). split; [apply extreme_points_pure|]. split.
  - unfold extremes_pure. rewrite length_map. apply product_pairs_length.
  - split.
    + intros d Hd. apply extreme_keys. exact Hd.
    + intros Hv d s Hd. apply (extreme_weight_range pm d s Hv Hd).
Qed.

(** ** The marginal as a minimum and a maximum *)

(** X7 — for a valid node with parents, the marginal gives every state of
    the node the least of the scaled lows prob * low and the greatest of
    the scaled highs prob * high over everything the enumeration visits:
    every joint parent assignment under every combination of the parents'
    extreme points (lines 75-87); it is (0, 1) when nothing is visited. *)
Theorem marginal_is_min_max
        (nm : string) (p : CredalNode) (ps : list CredalNode) (tbl : table) :
  valid_node (mkNode nm (p :: ps) tbl) ->
  exists pms m,
    Forall2 (fun q pm => marginal_of q = OK pm) (p :: ps) pms /\
    marginal_of (mkNode nm (p :: ps) tbl) = OK m /\
    keys m = states_of (mkNode nm (p :: ps) tbl) /\
    forall s l h, In (s, (l, h)) m ->
      low_spec (lowvals tbl pms s) l /\ high_spec (highvals tbl pms s) h.
Proof.
  intros Hv. apply valid_node_unfold in Hv.
  destruct Hv as (Vt & (Hne & Hcov) & Vps).
  destruct (parents_valid (p :: ps)) as (pms & Hpms & Hall).
  { apply Forall_forall. intros q _ Hq. apply compute_valid. exact Hq. }
  { exact Vps. }
  destruct (parents_keys _ _ Hall) as [Hk _].
  assert (Hok : Forall2 (fun q pm => marginal_of q = OK pm) (p :: ps) pms).
  { clear -Hall. induction Hall as [|q pm qs pms (H & _) _ IH];
      constructor; assumption. }
  rewrite <- Hk in Hcov.
  destruct (node_marginal_spec tbl pms _
              (first_entry_states_of nm p ps tbl Hne) Hcov)
    as (m & Hm & Hkm & Hspec).
  exists pms, m. split; [exact Hok|]. split.
  - rewrite (marginal_of_nonroot nm p ps tbl pms Hok). exact Hm.
  - split; [exact Hkm | exact Hspec].
Qed.

Lemma marginal_is_min_max_witness :
  exists pms m,
    Forall2 (fun q pm => marginal_of q = OK pm) [flu; cold] pms /\
    marginal_of fever = OK m /\
    keys m = states_of fever /\
    forall s l h, In (s, (l, h)) m ->
      low_spec (lowvals (credal_table fever) pms s) l /\
      high_spec (highvals (credal_table fever) pms s) h.
Proof.
  exact (marginal_is_min_max "Fever" flu [cold] (credal_table fever)
           fever_valid).
Defined.

(** X8 — in a valid node with parents, one table entry of a joint parent
    assignment with low 0 for a state is enough to make the computed lower
    bound of that state 0: the minimum is taken over products with
    non-negative factors. *)
Theorem zero_low_entry_forces_zero_lower_bound
        (nm : string) (p : CredalNode) (ps : list CredalNode) (tbl : table)
        (a : list state) (s : state) (m : marginal) (l h : Q) :
  valid_node (mkNode nm (p :: ps) tbl) ->
  In a (product (map states_of (p :: ps))) ->
  low_at (entry_at tbl a) s == 0 ->
  marginal_of (mkNode nm (p :: ps) tbl) = OK m ->
  In (s, (l, h)) m ->
  l == 0.
Proof.
  intros Hv Ha Hz Hm Hin.
  destruct (compute_valid _ Hv) as (m0 & Hm0 & _ & Hve).
  assert (m0 = m) by congruence. subst m0.
  destruct (Hve s (l, h) Hin) as (L0 & _ & _). simpl in L0.
  apply valid_node_unfold in Hv.
  destruct Hv as (Vt & (Hne & Hcov) & Vps).
  destruct (parents_valid (p :: ps)) as (pms & Hpms & Hall).
  { apply Forall_forall. intros q _ Hq. apply compute_valid. exact Hq. }
  { exact Vps. }
  destruct (parents_keys _ _ Hall) as [Hk Hvp].
  assert (Hok : Forall2 (fun q pm => marginal_of q = OK pm) (p :: ps) pms).
  { clear -Hall. induction Hall as [|q pm qs pms (H & _) _ IH];
      constructor; assumption. }
  rewrite <- Hk in Hcov, Ha.
  destruct (node_marginal_spec tbl pms _
              (first_entry_states_of nm p ps tbl Hne) Hcov)
    as (m1 & Hm1 & _ & Hspec).
  rewrite (marginal_of_nonroot nm p ps tbl pms Hok) in Hm.
  assert (m1 = m) by congruence. subst m1.
  destruct (Hspec s l h Hin) as [Hl _].
  destruct (product_extremes_inhabited pms) as [combo Hc].
  assert (Hx : In (prob_pure combo a, entry_at tbl a) (visits tbl pms)).
  { unfold visits. apply in_flat_map. exists combo. split; [exact Hc|].
    apply in_map with (f := fun a => (prob_pure combo a, entry_at tbl a)).
    rewrite (combo_keys pms combo Hc). exact Ha. }
  unfold lowvals in Hl. destruct Hl as [[E _]|[_ Hmin]].
  - apply map_eq_nil in E. rewrite E in Hx. destruct Hx.
  - assert (Hle : l <= prob_pure combo a * low_at (entry_at tbl a) s).
    { apply Hmin.
      exact (in_map (fun x => fst x * low_at (snd x) s) _ _ Hx). }
    rewrite Hz in Hle. apply Qle_antisym; [|exact L0].
    eapply Qle_trans; [exact Hle|]. rewrite Qmult_0_r. apply Qle_refl.
Qed.

Lemma zero_low_entry_forces_zero_lower_bound_witness :
  fst (snd (hd ("", (1, 1)) (get_ok [] (marginal_of fever)))) == 0.
Proof.
  apply (zero_low_entry_forces_zero_lower_bound
           "Fever" flu [cold] (credal_table fever)
           ["Absent"; "Absent"] "Present"
           (get_ok [] (marginal_of fever))
           (fst (snd (hd ("", (1, 1)) (get_ok [] (marginal_of fever)))))
           (snd (snd (hd ("", (1, 1)) (get_ok [] (marginal_of fever)))))).
  - exact fever_valid.
  - simpl. right. right. right. left. reflexivity.
  - reflexivity.
  - vm_compute. reflexivity.
  - vm_compute. left. reflexivity.
Defined.

(** ** The registry and full propagation *)

(** A registry as [add_node] builds it: every node under its own name. *)
Definition registry_ok (net : CredalNetwork) : Prop :=
  (forall k n, In (k, n) net -> k = name n) /\ NoDup (keys net).

Section SetItem.
Context {K V : Type} (eqb : K -> K -> bool).
Hypothesis eqb_eq : forall a b, eqb a b = true <-> a = b.

Lemma setitem_absent (d : list (K * V)) k v :
  ~ In k (keys d) -> setitem eqb d k v = d ++ [(k, v)].
Proof.
  induction d as [|[k0 v0] d IH]; simpl; intros H; [reflexivity|].
  destruct (eqb k0 k) eqn:E.
  - apply eqb_eq in E. subst. exfalso. apply H. left. reflexivity.
  - f_equal. apply IH. intros Hin. apply H. right. exact Hin.
Qed.

Lemma setitem_In (d : list (K * V)) i y k v :
  In (k, v) (setitem eqb d i y) -> (k = i /\ v = y) \/ In (k, v) d.
Proof.
  induction d as [|[k0 v0] d IH]; simpl.
  - intros [H|[]]. injection H as <- <-. left. auto.
  - destruct (eqb k0 i) eqn:E; simpl.
    + apply eqb_eq in E. subst.
      intros [H|H]; [injection H as <- <-; left; auto | right; right; exact H].
    + intros [H|H]; [right; left; exact H|].
      destruct (IH H) as [H1|H1]; [left | right; right]; assumption.
Qed.

Lemma setitem_keys (d : list (K * V)) k v :
  keys (setitem eqb d k v) = keys d \/
  (~ In k (keys d) /\ keys (setitem eqb d k v) = keys d ++ [k]).
Proof.
  induction d as [|[k0 v0] d IH]; simpl.
  - right. split; [intros []|reflexivity].
  - destruct (eqb k0 k) eqn:E; simpl; [left; reflexivity|].
    destruct IH as [IH|[Hn IH]].
    + left. f_equal. exact IH.
    + right. split.
      * intros [H|H]; [|exact (Hn H)].
        subst. rewrite (eqb_refl' eqb eqb_eq) in E. discriminate.
      * f_equal. exact IH.
Qed.

Lemma setitem_NoDup (d : list (K * V)) k v :
  NoDup (keys d) -> NoDup (keys (setitem eqb d k v)).
Proof.
  intros H. destruct (setitem_keys d k v) as [-> | [Hn ->]]; [exact H|].
  apply NoDup_app; [exact H | constructor; [intros [] | constructor] |].
  intros x Hx [<-|[]]. exact (Hn Hx).
Qed.
End SetItem.

Lemma add_node_registry_ok (net : CredalNetwork) (node : CredalNode) :
  registry_ok net -> registry_ok (add_node net node).
Proof.
  unfold add_node. intros [Hn Hd]. split.
  - intros k n Hin. apply (setitem_In String.eqb String.eqb_eq) in Hin.
    destruct Hin as [[-> ->]|Hin]; [reflexivity | exact (Hn k n Hin)].
  - apply (setitem_NoDup String.eqb String.eqb_eq). exact Hd.
Qed.

(** X9 — [add_node] stores the node under its name, replacing a node
    registered earlier under the same name and leaving every other name as
    it is; the registry stays a dictionary from names to nodes of that
    name. *)
Theorem add_node_lookup (net : CredalNetwork) (node : CredalNode) :
  dict_get String.eqb (add_node net node) (name node) = Some node /\
  (forall nm, nm <> name node ->
     dict_get String.eqb (add_node net node) nm
     = dict_get String.eqb net nm) /\
  (registry_ok net -> registry_ok (add_node net node)).
Proof.
  unfold add_node. split; [apply (get_set_same String.eqb String.eqb_eq)|].
  split.
  - intros nm Hne.
    apply (get_set_other String.eqb String.eqb_eq). congruence.
  - apply add_node_registry_ok.
Qed.

Lemma add_node_lookup_witness :
  dict_get String.eqb (add_node (add_node [] flu) cold) "Flu"
  = dict_get String.eqb (add_node [] flu) "Flu".
Proof.
  apply (proj1 (proj2 (add_node_lookup (add_node [] flu) cold))).
  discriminate.
Defined.

Lemma propagate_from_collects l : forall acc m,
  NoDup (map name l) ->
  (forall n, In n l -> ~ In (name n) (keys acc)) ->
  snd (propagate_from l acc) = OK m ->
  exists new, m = acc ++ new /\
    Forall2 (fun n e => fst e = name n /\ marginal_of n = OK (snd e)) l new.
Proof.
  induction l as [|n l IH]; intros acc m Hd Hacc H.
  - simpl in H. injection H as <-. exists []. rewrite app_nil_r.
    split; [reflexivity | constructor].
  - simpl in H. unfold marginal_of in *.
    destruct (compute_marginal_extreme n) as [log1 [mg|e]] eqn:E;
      [|discriminate].
    rewrite (setitem_absent String.eqb String.eqb_eq) in H
      by (apply Hacc; left; reflexivity).
    inversion Hd as [|? ? Hn Hd']; subst.
    destruct (propagate_from l (acc ++ [(name n, mg)])) as [log2 r] eqn:E2.
    simpl in H. subst r.
    destruct (IH (acc ++ [(name n, mg)]) m Hd') as (new & -> & Hall).
    + intros n' Hin' Hk. unfold keys in Hk. rewrite map_app in Hk.
      apply in_app_or in Hk. destruct Hk as [Hk|[Hk|[]]].
      * apply (Hacc n' (or_intror Hin')). exact Hk.
      * simpl in Hk. apply Hn. rewrite Hk. apply in_map. exact Hin'.
    + rewrite E2. reflexivity.
    + exists ((name n, mg) :: new). rewrite <- app_assoc. simpl.
      split; [reflexivity|]. constructor; [|exact Hall].
      simpl. rewrite E. auto.
Qed.

Lemma registry_names (net : CredalNetwork) :
  registry_ok net -> map name (values net) = keys net.
Proof.
  intros [Hn _]. unfold values, keys. rewrite map_map.
  apply map_ext_in. intros [k n] Hin. simpl. symmetry. exact (Hn k n Hin).
Qed.

(** X10 — on a registry built by [add_node], a [propagate] call that
    completes returns exactly one entry per registered node, in
    registration order, holding the node's name and its marginal. *)
Theorem propagate_collects_marginals
        (net : CredalNetwork) (m : list (string * marginal)) :
  registry_ok net ->
  snd (propagate net) = OK m ->
  Forall2 (fun n e => fst e = name n /\ marginal_of n = OK (snd e))
          (values net) m.
Proof.
  intros Hr H. unfold propagate in H.
  destruct (propagate_from_collects (values net) [] m) as (new & -> & Hall).
  - rewrite (registry_names net Hr). exact (proj2 Hr).
  - intros n _ [].
  - exact H.
  - exact Hall.
Qed.

Lemma medical_network_ok : registry_ok medical_network.
Proof.
  repeat (apply add_node_registry_ok). split; [intros k n []|constructor].
Qed.

Lemma propagate_collects_marginals_witness :
  Forall2 (fun n e => fst e = name n /\ marginal_of n = OK (snd e))
          (values medical_network)
          (get_ok [] (snd (propagate medical_network))).
Proof.
  apply (propagate_collects_marginals medical_network).
  - exact medical_network_ok.
  - vm_compute. reflexivity.
Defined.

Lemma propagate_from_raises pre n post e : forall acc,
  Forall (fun q => exists mg, marginal_of q = OK mg) pre ->
  marginal_of n = Raise e ->
  snd (propagate_from (pre ++ n :: post) acc) = Raise e.
Proof.
  intros acc Hpre Hn. revert acc.
  induction Hpre as [|q pre [mg Hq] Hpre IH]; intros acc; simpl.
  - unfold marginal_of in Hn.
    destruct (compute_marginal_extreme n) as [log1 r1]. simpl in Hn.
    subst r1. reflexivity.
  - unfold marginal_of in Hq.
    destruct (compute_marginal_extreme q) as [log1 r1]. simpl in Hq.
    subst r1. specialize (IH (setitem String.eqb acc (name q) mg)).
    destruct (propagate_from (pre ++ n :: post) _) as [log2 r2].
    simpl in IH. subst r2. reflexivity.
Qed.

(** X11 — [propagate] stops at the first registered node whose marginal
    raises and raises that exception: no partial result is returned. *)
Theorem propagate_raises_first_exception
        (net : CredalNetwork) (pre post : list CredalNode) (n : CredalNode)
        (e : exn) :
  values net = pre ++ n :: post ->
  Forall (fun q => exists mg, marginal_of q = OK mg) pre ->
  marginal_of n = Raise e ->
  snd (propagate net) = Raise e.
Proof.
  intros Hv Hpre Hn. unfold propagate. rewrite Hv.
  apply propagate_from_raises; assumption.
Qed.

Lemma propagate_raises_first_exception_witness :
  snd (propagate (add_node (add_node [] flu) (mkNode "Fever" [flu] [])))
  = Raise StopIteration.
Proof.
  apply (propagate_raises_first_exception _ [flu] []
           (mkNode "Fever" [flu] [])).
  - reflexivity.
  - constructor; [|constructor]. eexists. reflexivity.
  - reflexivity.
Defined.

(** * Further properties of dempster_shafer.py *)

Module DSMore.
Import DempsterShafer.

Lemma mem_In x xs : mem x xs = true <-> In x xs.
Proof.
  unfold mem. rewrite existsb_exists. split.
  - intros [y [Hy E]]. apply String.eqb_eq in E. subst. exact Hy.
  - intros H. exists x. split; [exact H | apply String.eqb_refl].
Qed.

(** ** Intersections of focal elements *)

Lemma In_insert_sorted x y xs : In y (insert_sorted x xs) <-> y = x \/ In y xs.
Proof.
  induction xs as [|z xs IH]; simpl.
  - split; [intros [H|[]]; auto | intros [H|[]]; auto].
  - destruct (String.leb x z); simpl; [split; intros [H|H]; auto|].
    rewrite IH. split; [intros [H|[H|H]] | intros [H|[H|H]]]; auto.
Qed.

Lemma In_sorted y xs : In y (sorted xs) <-> In y xs.
Proof.
  unfold sorted. induction xs as [|x xs IH]; simpl; [reflexivity|].
  rewrite In_insert_sorted, IH. split; intros [H|H]; auto.
Qed.

Lemma In_distinct y xs : In y (distinct xs) <-> In y xs.
Proof.
  induction xs as [|x xs IH]; simpl; [reflexivity|].
  destruct (mem x xs) eqn:E.
  - rewrite IH. split; [auto|]. intros [<-|H]; [|exact H].
    apply mem_In. exact E.
  - simpl. rewrite IH. reflexivity.
Qed.

Lemma NoDup_distinct xs : NoDup (distinct xs).
Proof.
  induction xs as [|x xs IH]; simpl; [constructor|].
  destruct (mem x xs) eqn:E; [exact IH|].
  constructor; [|exact IH]. rewrite In_distinct. intros H.
  apply mem_In in H. congruence.
Qed.

Lemma NoDup_insert_sorted x xs :
  ~ In x xs -> NoDup xs -> NoDup (insert_sorted x xs).
Proof.
  induction xs as [|z xs IH]; simpl; intros Hn Hd.
  - constructor; [intros [] | constructor].
  - destruct (String.leb x z); [constructor; assumption|].
    inversion Hd as [|? ? Hz Hd']; subst. constructor.
    + rewrite In_insert_sorted. intros [->|H]; [|exact (Hz H)].
      apply Hn. left. reflexivity.
    + apply IH; [|exact Hd']. intros H. apply Hn. right. exact H.
Qed.

Lemma NoDup_sorted xs : NoDup xs -> NoDup (sorted xs).
Proof.
  unfold sorted. induction 1 as [|x xs Hx Hd IH]; simpl; [constructor|].
  apply NoDup_insert_sorted; [|exact IH]. fold (sorted xs).
  rewrite In_sorted. exact Hx.
Qed.

(** Neighbours in increasing order. *)
Fixpoint ascending (xs : list string) : Prop :=
  match xs with
  | [] => True
  | x :: rest =>
      match rest with
      | [] => True
      | y :: _ => String.leb x y = true
      end /\ ascending rest
  end.

Lemma ascending_insert x xs : ascending xs -> ascending (insert_sorted x xs).
Proof.
  induction xs as [|z xs IH]; intros H; [simpl; auto|].
  simpl insert_sorted. destruct (String.leb x z) eqn:E.
  - split; [exact E | exact H].
  - destruct H as [Hz Hrest]. specialize (IH Hrest).
    assert (Hzx : String.leb z x = true).
    { destruct (String.leb_total x z) as [H|H]; [congruence | exact H]. }
    split; [|exact IH].
    destruct xs as [|w xs]; simpl; [exact Hzx|].
    destruct (String.leb x w); [exact Hzx | exact Hz].
Qed.

Lemma ascending_sorted xs : ascending (sorted xs).
Proof.
  unfold sorted. induction xs as [|x xs IH]; [exact I|].
  simpl. apply ascending_insert. exact IH.
Qed.

Lemma In_intersect (k1 k2 : focal) x :
  In x (intersect k1 k2) <-> In x k1 /\ In x k2.
Proof.
  unfold intersect.
  rewrite In_sorted, filter_In, In_distinct, mem_In. reflexivity.
Qed.

(** X12 — [tuple(sorted(set(k1) & set(k2)))] (line 26): the labels of the
    result are exactly the labels common to both tuples, each once, in
    increasing order. *)
Theorem intersect_spec (k1 k2 : focal) :
  (forall x, In x (intersect k1 k2) <-> In x k1 /\ In x k2) /\
  NoDup (intersect k1 k2) /\
  ascending (intersect k1 k2).
Proof.
  unfold intersect. split; [|split].
  - intros x. apply In_intersect.
  - apply NoDup_sorted. apply NoDup_filter. apply NoDup_distinct.
  - apply ascending_sorted.
Qed.

(** ** Combination *)

Definition focal_ok (m : mass) : Prop :=
  (forall k v, In (k, v) m -> k <> []) /\ NoDup (keys m).

Lemma combine_step_focal_ok c k p :
  focal_ok c -> focal_ok (fst (combine_step (c, k) p)).
Proof.
  destruct p as [[k1 v1] [k2 v2]]. intros [Hne Hd]. simpl.
  destruct (intersect k1 k2) as [|x i] eqn:E; simpl; [split; assumption|].
  split.
  - intros k0 v0 Hin. apply (setitem_In tuple_eqb tuple_eqb_eq) in Hin.
    destruct Hin as [[-> _]|Hin]; [discriminate | exact (Hne k0 v0 Hin)].
  - apply (setitem_NoDup tuple_eqb tuple_eqb_eq). exact Hd.
Qed.

Lemma accumulate_focal_ok l : forall c k,
  focal_ok c -> focal_ok (fst (fold_left combine_step l (c, k))).
Proof.
  induction l as [|p l IH]; intros c k H; [exact H|].
  change (fold_left combine_step (p :: l) (c, k))
    with (fold_left combine_step l (combine_step (c, k) p)).
  pose proof (combine_step_focal_ok c k p H) as H1.
  destruct (combine_step (c, k) p) as [c1 k1]. apply IH. exact H1.
Qed.

Lemma combine_mass_OK m1 m2 m :
  combine_mass m1 m2 = OK m ->
  snd (accumulate m1 m2) < 1 /\
  m = map (fun '(f, v) => (f, v / (1 - snd (accumulate m1 m2))))
          (fst (accumulate m1 m2)).
Proof.
  unfold combine_mass. destruct (accumulate m1 m2) as [c k]. simpl.
  destruct (lt1 k) eqn:E; [|discriminate].
  apply lt1_true in E. rewrite (DSFacts.normalize_combined c k E).
  intros H. injection H as <-. split; [exact E | reflexivity].
Qed.

(** X13 — a combination that succeeds never gives mass to the empty focal
    element (line 27 sends it to the conflict), and its focal elements are
    pairwise distinct. *)
Theorem combine_mass_focal_elements (m1 m2 m : mass) :
  combine_mass m1 m2 = OK m ->
  (forall k v, In (k, v) m -> k <> []) /\ NoDup (keys m).
Proof.
  intros H. apply combine_mass_OK in H. destruct H as [_ ->].
  assert (Hok : focal_ok (fst (accumulate m1 m2))).
  { unfold accumulate. apply accumulate_focal_ok.
    split; [intros k v [] | constructor]. }
  destruct Hok as [Hne Hd]. split.
  - intros k v Hin. apply in_map_iff in Hin.
    destruct Hin as [[k0 v0] [E Hin]]. injection E as <- _.
    exact (Hne k0 v0 Hin).
  - unfold keys in *. rewrite map_map.
    erewrite map_ext; [exact Hd|]. intros [k0 v0]. reflexivity.
Qed.

Lemma combine_mass_focal_elements_witness :
  (forall k v, In (k, v) (get_ok [] (combine_mass m_flu m_flu)) -> k <> [])
  /\ NoDup (keys (get_ok [] (combine_mass m_flu m_flu))).
Proof.
  apply (combine_mass_focal_elements m_flu m_flu).
  vm_compute. reflexivity.
Defined.

Lemma accumulate_nonneg (m1 m2 : mass) :
  nonneg_mass m1 -> nonneg_mass m2 ->
  nonneg_mass (fst (accumulate m1 m2)) /\ 0 <= snd (accumulate m1 m2).
Proof.
  intros Hn1 Hn2. unfold accumulate.
  destruct (fold_left combine_step (list_prod m1 m2) ([], 0)) as [c k] eqn:E.
  destruct (DSFacts.accumulate_inv _ _ _ _ _ E) as (_ & Hc & Hk).
  - intros k0 v0 [].
  - apply Qle_refl.
  - intros p Hp. apply (DSFacts.pair_weight_nonneg m1 m2); assumption.
  - split; assumption.
Qed.

(** X14 — Dempster's rule on non-negative weights either returns
    non-negative weights or raises the total-conflict [ValueError] of
    line 36; nothing else is raised. *)
Theorem combine_mass_nonneg (m1 m2 : mass) :
  nonneg_mass m1 -> nonneg_mass m2 ->
  match combine_mass m1 m2 with
  | OK m => nonneg_mass m
  | Raise e => e = ValueError total_conflict_msg
  end.
Proof.
  intros H1 H2. destruct (accumulate_nonneg m1 m2 H1 H2) as [Hc Hk].
  unfold combine_mass. destruct (accumulate m1 m2) as [c k].
  simpl in Hc, Hk.
  destruct (lt1 k) eqn:E; [|reflexivity].
  apply lt1_true in E. rewrite (DSFacts.normalize_combined c k E).
  intros f v Hin. apply in_map_iff in Hin.
  destruct Hin as [[f0 v0] [Ef Hin]]. injection Ef as _ <-.
  apply Qle_shift_div_l; [lra|]. pose proof (Hc f0 v0 Hin). lra.
Qed.

Lemma combine_mass_nonneg_witness :
  nonneg_mass m_flu /\
  match combine_mass m_flu m_flu with
  | OK m => nonneg_mass m
  | Raise e => e = ValueError total_conflict_msg
  end.
Proof.
  split; [exact (proj1 DSFacts.m_flu_valid)|].
  apply (combine_mass_nonneg m_flu m_flu);
    exact (proj1 DSFacts.m_flu_valid).
Defined.

(** ** Marginalization *)

Lemma Qplus_nonneg a b : 0 <= a -> 0 <= b -> 0 <= a + b.
Proof. intros. lra. Qed.

Definition marginalize_step (target_vars : list string) (acc : mass)
           (x : focal * Q) : mass :=
  let proj := filter (fun v => mem v target_vars) (fst x) in
  setitem tuple_eqb acc proj (get_or_zero acc proj + snd x).

Lemma marginalize_fold (t : list string) (m : mass) : forall acc : mass,
  fold_left
    (fun marginalized '(subset, w) =>
       let proj := filter (fun v => mem v t) subset in
       setitem tuple_eqb marginalized proj (get_or_zero marginalized proj + w))
    m acc
  = fold_left (marginalize_step t) m acc.
Proof.
  induction m as [|[k w] m IH]; intros acc; [reflexivity|]. simpl. apply IH.
Qed.

Lemma marginalize_unfold m t :
  marginalize_mass m t = fold_left (marginalize_step t) m [].
Proof. unfold marginalize_mass. apply marginalize_fold. Qed.

Lemma marginalize_inv t m : forall acc,
  nonneg_mass acc -> NoDup (keys acc) ->
  (forall k v x, In (k, v) acc -> In x k -> In x t) ->
  nonneg_mass m ->
  let r := fold_left (marginalize_step t) m acc in
  sumQ (values r) == sumQ (values acc) + sumQ (values m) /\
  nonneg_mass r /\ NoDup (keys r) /\
  (forall k v x, In (k, v) r -> In x k -> In x t).
Proof.
  induction m as [|[k w] m IH]; intros acc Hn Hd Ht Hm; simpl.
  - repeat split; auto. ring.
  - assert (Hw : 0 <= w) by (apply (Hm k w); left; reflexivity).
    set (proj := filter (fun v => mem v t) k).
    destruct (IH (marginalize_step t acc (k, w))) as (E & Hn' & Hd' & Ht').
    + intros k0 v0 Hin. apply (setitem_In tuple_eqb tuple_eqb_eq) in Hin.
      destruct Hin as [[_ ->]|Hin]; [|exact (Hn k0 v0 Hin)].
      apply Qplus_nonneg; [|exact Hw].
      apply DSFacts.get_or_zero_nonneg. exact Hn.
    + apply (setitem_NoDup tuple_eqb tuple_eqb_eq). exact Hd.
    + intros k0 v0 x Hin Hx.
      apply (setitem_In tuple_eqb tuple_eqb_eq) in Hin.
      destruct Hin as [[-> _]|Hin]; [|exact (Ht k0 v0 x Hin Hx)].
      apply filter_In in Hx. apply mem_In. exact (proj2 Hx).
    + intros k0 v0 Hin. apply (Hm k0 v0). right. exact Hin.
    + repeat split; auto. rewrite E. unfold marginalize_step. simpl.
      rewrite DSFacts.sum_setitem. ring.
Qed.

(** X15 — [marginalize_mass] keeps weights non-negative, and its focal
    elements are pairwise distinct and mention target variables only. *)
Theorem marginalize_mass_keeps_signs (m : mass) (target_vars : list string) :
  nonneg_mass m ->
  nonneg_mass (marginalize_mass m target_vars) /\
  NoDup (keys (marginalize_mass m target_vars)) /\
  forall k v x, In (k, v) (marginalize_mass m target_vars) ->
                In x k -> In x target_vars.
Proof.
  intros Hn. rewrite marginalize_unfold.
  destruct (marginalize_inv target_vars m []) as (_ & Hn' & Hd' & Ht').
  - intros k v [].
  - constructor.
  - intros k v x [].
  - exact Hn.
  - split; [exact Hn' | split; [exact Hd' | exact Ht']].
Qed.

Lemma marginalize_mass_keeps_signs_witness :
  nonneg_mass m_flu /\
  (nonneg_mass (marginalize_mass m_flu ["Flu"]) /\
   NoDup (keys (marginalize_mass m_flu ["Flu"])) /\
   forall k v x, In (k, v) (marginalize_mass m_flu ["Flu"]) ->
                 In x k -> In x ["Flu"]).
Proof.
  split; [exact (proj1 DSFacts.m_flu_valid)|].
  apply (marginalize_mass_keeps_signs m_flu ["Flu"]).
  exact (proj1 DSFacts.m_flu_valid).
Defined.

(** ** Belief and plausibility as conditional sums *)

Definition cond_sum (f : focal -> bool) (m : mass) : Q :=
  sumQ (values (filter (fun x => f (fst x)) m)).

Lemma fold_cond_sum (f : focal -> bool) (m : mass) (a : Q) :
  fold_left (fun acc '(subset, w) => if f subset then acc + w else acc) m a
  == a + cond_sum f m.
Proof.
  unfold cond_sum. revert a. induction m as [|[k w] m IH]; intros a; simpl.
  - ring.
  - rewrite IH. destruct (f k); simpl; ring.
Qed.

Lemma belief_cond_sum m A :
  belief m A == cond_sum (forallb (fun x => mem x A)) m.
Proof. unfold belief. rewrite fold_cond_sum. ring. Qed.

Lemma plausibility_cond_sum m A :
  plausibility m A == cond_sum (existsb (fun x => mem x A)) m.
Proof. unfold plausibility. rewrite fold_cond_sum. ring. Qed.

Lemma cond_sum_mono (f g : focal -> bool) (m : mass) :
  nonneg_mass m ->
  (forall k v, In (k, v) m -> f k = true -> g k = true) ->
  cond_sum f m <= cond_sum g m.
Proof.
  unfold cond_sum. induction m as [|[k w] m IH]; intros Hn Hfg; simpl.
  - apply Qle_refl.
  - assert (Hw : 0 <= w) by (apply (Hn k w); left; reflexivity).
    assert (IH' : sumQ (values (filter (fun x => f (fst x)) m))
                  <= sumQ (values (filter (fun x => g (fst x)) m))).
    { apply IH; [intros k0 v0 H; apply (Hn k0 v0); right; exact H|].
      intros k0 v0 H. apply (Hfg k0 v0). right. exact H. }
    pose proof (Hfg k w (or_introl eq_refl)) as Hk.
    destruct (f k); destruct (g k); simpl; try lra;
      discriminate (Hk eq_refl).
Qed.

Lemma cond_sum_range (f : focal -> bool) (m : mass) :
  nonneg_mass m -> 0 <= cond_sum f m /\ cond_sum f m <= sumQ (values m).
Proof.
  unfold cond_sum. induction m as [|[k w] m IH]; intros Hn; simpl.
  - split; apply Qle_refl.
  - assert (Hw : 0 <= w) by (apply (Hn k w); left; reflexivity).
    destruct IH as [I0 I1];
      [intros k0 v0 H; apply (Hn k0 v0); right; exact H|].
    destruct (f k); simpl; split; lra.
Qed.

(** X16 — belief and plausibility grow with the set: for non-negative
    weights and A included in A', belief(A) <= belief(A') and
    plausibility(A) <= plausibility(A'). *)
Theorem belief_plausibility_monotone (m : mass) (A A' : list string) :
  nonneg_mass m ->
  (forall x, In x A -> In x A') ->
  belief m A <= belief m A' /\ plausibility m A <= plausibility m A'.
Proof.
  intros Hn Hsub.
  assert (Hmem : forall x, mem x A = true -> mem x A' = true).
  { intros x H. apply mem_In. apply Hsub. apply mem_In. exact H. }
  rewrite !belief_cond_sum, !plausibility_cond_sum. split.
  - apply cond_sum_mono; [exact Hn|]. intros k v _ H.
    rewrite forallb_forall in *. intros x Hx. apply Hmem. apply H. exact Hx.
  - apply cond_sum_mono; [exact Hn|]. intros k v _ H.
    rewrite existsb_exists in *. destruct H as [x [Hx Hm]].
    exists x. split; [exact Hx | apply Hmem; exact Hm].
Qed.

Lemma belief_plausibility_monotone_witness :
  belief m_flu ["Flu"] <= belief m_flu ["Flu"; "No Flu"] /\
  plausibility m_flu ["Flu"] <= plausibility m_flu ["Flu"; "No Flu"].
Proof.
  apply (belief_plausibility_monotone m_flu ["Flu"] ["Flu"; "No Flu"]).
  - exact (proj1 DSFacts.m_flu_valid).
  - intros x [<-|[]]. left. reflexivity.
Defined.

(** The weights added one by one to 0.0 in the order of the items, as the
    loops of [belief] and [plausibility] add those that pass their test. *)
Definition added_up (m : mass) : Q :=
  fold_left (fun total '(_, w) => total + w) m 0.

Lemma added_up_from (m : mass) (a : Q) :
  fold_left (fun total '(_, w) => total + w) m a == a + sumQ (values m).
Proof.
  revert a. induction m as [|[k w] m IH]; intros a; simpl.
  - ring.
  - rewrite IH. ring.
Qed.

Lemma added_up_sum (m : mass) : added_up m == sumQ (values m).
Proof. unfold added_up. rewrite added_up_from. ring. Qed.

(** X17 — for non-negative weights, belief and plausibility of any set lie
    between 0 and the weights of all the focal elements added up in the
    same order. *)
Theorem belief_plausibility_range (m : mass) (A : list string) :
  nonneg_mass m ->
  (0 <= belief m A /\ belief m A <= added_up m) /\
  (0 <= plausibility m A /\ plausibility m A <= added_up m).
Proof.
  intros Hn.
  rewrite belief_cond_sum, plausibility_cond_sum, added_up_sum.
  split; apply cond_sum_range; exact Hn.
Qed.

Lemma belief_plausibility_range_witness :
  nonneg_mass m_flu /\
  ((0 <= belief m_flu ["Flu"] /\ belief m_flu ["Flu"] <= added_up m_flu) /\
   (0 <= plausibility m_flu ["Flu"] /\
    plausibility m_flu ["Flu"] <= added_up m_flu)).
Proof.
  split; [exact (proj1 DSFacts.m_flu_valid)|].
  exact (belief_plausibility_range m_flu ["Flu"] (proj1 DSFacts.m_flu_valid)).
Defined.

(** ** The propagation of the example *)

Lemma propagate_from_acc (scale : Q) (ms : mass) : forall acc,
  NoDup (keys acc ++ keys ms) ->
  fold_left (fun propagated '(subset, w) =>
               setitem tuple_eqb propagated subset (w * scale)) ms acc
  = acc ++ map (fun '(subset, w) => (subset, w * scale)) ms.
Proof.
  induction ms as [|[k w] ms IH]; intros acc Hd; simpl.
  - rewrite app_nil_r. reflexivity.
  - simpl in Hd.
    rewrite (setitem_absent tuple_eqb tuple_eqb_eq).
    + rewrite IH.
      * rewrite <- app_assoc. reflexivity.
      * unfold keys. rewrite map_app. simpl. rewrite <- app_assoc. exact Hd.
    + apply NoDup_remove_2 in Hd. intros Hin. apply Hd.
      apply in_or_app. left. exact Hin.
Qed.

(** X19 — the local [propagate] of the example scales every mass of the
    symptom by the belief that the disease is present, keeping the focal
    elements and their order. *)
Theorem propagate_scales (m_disease m_symptom : mass) (disease : string) :
  NoDup (keys m_symptom) ->
  propagate m_disease m_symptom disease
  = map (fun '(subset, w) => (subset, w * belief m_disease [disease]))
        m_symptom.
Proof.
  intros Hd. unfold propagate.
  rewrite propagate_from_acc; [reflexivity | exact Hd].
Qed.

Lemma propagate_scales_witness :
  NoDup (keys m_fever_given_flu) /\
  propagate m_flu m_fever_given_flu "Flu"
  = map (fun '(subset, w) => (subset, w * belief m_flu ["Flu"]))
        m_fever_given_flu.
Proof.
  assert (Hd : NoDup (keys m_fever_given_flu))
    by (repeat constructor; simpl; intuition discriminate).
  split; [exact Hd|].
  exact (propagate_scales m_flu m_fever_given_flu "Flu" Hd).
Defined.

End DSMore.

(** * Binary64 subtraction from 1

    The one fact about rounding that [combine_mass] relies on: when
    [conflict < 1] holds of a binary64 number, [1 - conflict] is not a
    zero, so the division of line 34 cannot raise. Proved from the
    specification of the primitive floats. *)

Module Binary64Facts.
Import Stdlib.Floats.Floats.
Local Open Scope Z_scope.

Definition is_zero_sf (x : spec_float) : bool :=
  match x with S754_zero _ => true | _ => false end.

Lemma digits2_pos_bounds (m : positive) :
  2 ^ (Zpos (digits2_pos m) - 1) <= Zpos m < 2 ^ Zpos (digits2_pos m).
Proof.
  induction m as [m IH|m IH|]; cbn [digits2_pos].
  - rewrite Pos2Z.inj_succ.
    replace (Z.succ (Zpos (digits2_pos m)) - 1)
      with (Z.succ (Zpos (digits2_pos m) - 1)) by lia.
    rewrite !Z.pow_succ_r by lia. lia.
  - rewrite Pos2Z.inj_succ.
    replace (Z.succ (Zpos (digits2_pos m)) - 1)
      with (Z.succ (Zpos (digits2_pos m) - 1)) by lia.
    rewrite !Z.pow_succ_r by lia. lia.
  - simpl. lia.
Qed.

Lemma shr_1_m (r : shr_record) :
  0 <= shr_m r -> shr_m (shr_1 r) = shr_m r / 2.
Proof.
  destruct r as [m r s]. cbn [shr_m]. intros H.
  destruct m as [|p|p]; [reflexivity| |lia].
  destruct p as [p|p|]; cbn [shr_1 shr_m].
  - rewrite (Pos2Z.inj_xI p). apply Z.div_unique with 1; lia.
  - rewrite (Pos2Z.inj_xO p). apply Z.div_unique with 0; lia.
  - reflexivity.
Qed.

Lemma iter_shr_1_m (p : positive) :
  forall r, 0 <= shr_m r ->
    shr_m (iter_pos shr_1 p r) = shr_m r / 2 ^ Zpos p.
Proof.
  induction p as [p IH|p IH|]; intros r H; cbn [iter_pos].
  - assert (H1 : 0 <= shr_m (shr_1 r)).
    { rewrite shr_1_m by exact H. apply Z.div_pos; lia. }
    assert (H2 : 0 <= shr_m (iter_pos shr_1 p (shr_1 r))).
    { rewrite IH by exact H1. apply Z.div_pos; [exact H1|].
      apply Z.pow_pos_nonneg; lia. }
    rewrite IH by exact H2. rewrite IH by exact H1.
    rewrite shr_1_m by exact H.
    rewrite !Z.div_div by (try apply Z.pow_pos_nonneg; lia).
    f_equal. rewrite (Pos2Z.inj_xI p).
    replace (2 * Zpos p + 1) with (Z.succ (2 * Zpos p)) by lia.
    rewrite Z.pow_succ_r by lia. rewrite Z.pow_twice_r. reflexivity.
  - assert (H2 : 0 <= shr_m (iter_pos shr_1 p r)).
    { rewrite IH by exact H. apply Z.div_pos; [exact H|].
      apply Z.pow_pos_nonneg; lia. }
    rewrite IH by exact H2. rewrite IH by exact H.
    rewrite !Z.div_div by (try apply Z.pow_pos_nonneg; lia).
    f_equal. rewrite (Pos2Z.inj_xO p). rewrite Z.pow_twice_r. reflexivity.
  - rewrite shr_1_m by exact H. rewrite Z.pow_1_r. reflexivity.
Qed.

Lemma shr_record_of_loc_m m l : shr_m (shr_record_of_loc m l) = m.
Proof. destruct l as [|[]]; reflexivity. Qed.

(** Shifting a positive mantissa to its canonical exponent leaves a
    positive mantissa, when the exponent is not below [emin]. *)
Lemma shr_fexp_pos (q : positive) (e : Z) (l : location) :
  emin <= e ->
  0 < shr_m (fst (shr_fexp prec emax (Zpos q) e l)) /\
  emin <= snd (shr_fexp prec emax (Zpos q) e l).
Proof.
  intros He. unfold shr_fexp, shr. cbn [Zdigits2].
  pose proof (digits2_pos_bounds q) as [Hlo Hhi].
  remember (Zpos (digits2_pos q)) as d eqn:Ed.
  destruct (fexp prec emax (d + e) - e) as [|n|n] eqn:En; cbn [fst snd];
    try (rewrite shr_record_of_loc_m; split; [lia | exact He]).
  assert (Hn : Zpos n = d - 53).
  { unfold fexp, SpecFloat.emin in En. unfold SpecFloat.emin in He.
    change prec with 53 in *. change emax with 1024 in *. lia. }
  split.
  - rewrite iter_shr_1_m by (rewrite shr_record_of_loc_m; lia).
    rewrite shr_record_of_loc_m.
    apply Z.lt_le_trans with (2 ^ 52); [reflexivity|].
    apply Z.div_le_lower_bound; [apply Z.pow_pos_nonneg; lia|].
    rewrite <- Z.pow_add_r by lia.
    replace (Zpos n + 52) with (d - 1) by lia. exact Hlo.
  - lia.
Qed.

Lemma round_nearest_even_pos m l : 0 < m -> 0 < round_nearest_even m l.
Proof.
  intros H. destruct l as [|[]]; cbn [round_nearest_even]; try lia.
  destruct (Z.even m); lia.
Qed.

Lemma binary_round_aux_nonzero s (q : positive) e l :
  emin <= e -> is_zero_sf (binary_round_aux prec emax s (Zpos q) e l) = false.
Proof.
  intros He. unfold binary_round_aux.
  destruct (shr_fexp_pos q e l He) as [H1 H2].
  destruct (shr_fexp prec emax (Zpos q) e l) as [mrs' e'].
  cbn [fst snd] in H1, H2.
  pose proof (round_nearest_even_pos (shr_m mrs') (loc_of_shr_record mrs') H1)
    as H3.
  destruct (round_nearest_even (shr_m mrs') (loc_of_shr_record mrs'))
    as [|q'|q']; try lia.
  destruct (shr_fexp_pos q' e' loc_Exact H2) as [H4 _].
  destruct (shr_fexp prec emax (Zpos q') e' loc_Exact) as [mrs'' e''].
  cbn [fst] in H4.
  destruct (shr_m mrs'') as [|m|m]; try lia.
  destruct (e'' <=? emax - prec); reflexivity.
Qed.

(** Rounding a non-zero number whose exponent is not below [emin] never
    gives a zero. *)
Lemma binary_round_nonzero s (m : positive) e :
  emin <= e -> is_zero_sf (binary_round prec emax s m e) = false.
Proof.
  intros He. unfold binary_round, shl_align.
  destruct (fexp prec emax (Zpos (digits2_pos m) + e) - e) as [|n|n] eqn:En;
    try (apply binary_round_aux_nonzero; exact He).
  apply binary_round_aux_nonzero.
  unfold fexp. lia.
Qed.

Lemma iter_xO_ge (p k : positive) : (p~0 <= Pos.iter xO p k)%positive.
Proof.
  apply (Pos.iter_ind _ xO p (fun _ a => (p~0 <= a)%positive)).
  - apply Pos.le_refl.
  - intros _ a H. apply Pos.le_trans with a; [exact H|].
    apply Pos.lt_le_incl. rewrite <- Pos.add_diag. apply Pos.lt_add_r.
Qed.

Lemma valid_exponent s m e :
  valid_binary (S754_finite s m e) = true ->
  emin <= e /\ Zpos (digits2_pos m) <= 53.
Proof.
  cbn [SpecFloat.valid_binary]. unfold bounded, canonical_mantissa, fexp.
  intros H. apply andb_prop in H. destruct H as [H _].
  apply Z.eqb_eq in H. unfold SpecFloat.emin in *.
  change prec with 53 in *. change emax with 1024 in *. lia.
Qed.

(** [1 - y] is not a zero when [y < 1]. *)
Lemma SFsub_one_nonzero (y : spec_float) :
  valid_binary y = true ->
  SFltb y (Prim2SF one) = true ->
  is_zero_sf (SF64sub (Prim2SF one) y) = false.
Proof.
  intros Hv Hlt.
  change (Prim2SF one) with (S754_finite false 4503599627370496 (-52)) in *.
  destruct y as [s|s| |s m e].
  - reflexivity.
  - destruct s; [reflexivity | discriminate].
  - discriminate.
  - destruct (valid_exponent s m e Hv) as [He Hd].
    pose proof (digits2_pos_bounds m) as [_ Hm].
    assert (Hm' : Zpos m < 2 ^ 53).
    { eapply Z.lt_le_trans; [exact Hm|]. apply Z.pow_le_mono_r; lia. }
    change (2 ^ 53) with 9007199254740992 in Hm'.
    unfold SF64sub, SFsub.
    assert (Hz : emin <= Z.min (-52) e)
      by (change emin with (-1074) in *; lia).
    set (ez := Z.min (-52) e) in *.
    set (A := Zpos (fst (shl_align 4503599627370496 (-52) ez))).
    set (B := Zpos (fst (shl_align m e ez))).
    assert (HA : 0 < A) by (unfold A; lia).
    assert (HB : 0 < B) by (unfold B; lia).
    assert (Hne : cond_Zopp false A - cond_Zopp s B <> 0).
    { destruct s; cbn [cond_Zopp]; [lia|].
      unfold SFltb, SFcompare in Hlt.
      destruct (e ?= -52) eqn:Ec.
      - apply Z.compare_eq in Ec. subst e.
        assert (Em : (m < 4503599627370496)%positive).
        { unfold Pos.lt, Pos.compare.
          destruct (Pos.compare_cont Eq m 4503599627370496);
            [discriminate | reflexivity | discriminate]. }
        unfold A, B, ez. rewrite Z.min_id. unfold shl_align.
        rewrite !Z.sub_diag. cbn [fst].
        apply Pos2Z.pos_lt_pos in Em. clear Hlt. lia.
      - change (e < -52) in Ec.
        unfold A, B, ez. rewrite Z.min_r by lia.
        unfold shl_align. rewrite Z.sub_diag.
        destruct (e - -52) as [|k|k] eqn:Ek; try lia.
        cbn [fst].
        pose proof (iter_xO_ge 4503599627370496 k) as Hk.
        apply Pos2Z.pos_le_pos in Hk. clear Hlt. lia.
      - discriminate. }
    unfold binary_normalize.
    destruct (cond_Zopp false A - cond_Zopp s B) as [|p|p];
      [contradiction| |]; apply binary_round_nonzero; exact Hz.
Qed.

Lemma SFeqb_zero (x : spec_float) :
  SFeqb x (S754_zero false) = is_zero_sf x.
Proof. destruct x as [s|[]| |[] m e]; reflexivity. Qed.

(** In binary64, [c < 1] implies [1 - c != 0]. *)
Lemma sub_one_nonzero (c : float) :
  PrimFloat.ltb c one = true ->
  PrimFloat.eqb (PrimFloat.sub one c) zero = false.
Proof.
  intros H. rewrite ltb_spec in H.
  rewrite eqb_spec, sub_spec.
  change (Prim2SF zero) with (S754_zero false).
  rewrite SFeqb_zero.
  apply SFsub_one_nonzero; [apply Prim2SF_valid | exact H].
Qed.

(** In binary64, [1 <= c] excludes [c < 1]. *)
Lemma one_le_not_lt (c : float) :
  PrimFloat.leb one c = true -> PrimFloat.ltb c one = false.
Proof.
  rewrite leb_spec, ltb_spec.
  change (Prim2SF one) with (S754_finite false 4503599627370496 (-52)).
  destruct (Prim2SF c) as [s|s| |s m e]; try discriminate; try reflexivity.
  - destruct s; [discriminate | reflexivity].
  - destruct s; [discriminate|].
    unfold SFleb, SFltb, SFcompare.
    assert (Ea : Pos.compare_cont Eq 4503599627370496 m
                 = CompOpp (Pos.compare_cont Eq m 4503599627370496))
      by (symmetry; apply (Pos.compare_cont_antisym m 4503599627370496 Eq)).
    rewrite (Z.compare_antisym e (-52)), Ea.
    destruct (e ?= -52); cbn [CompOpp]; try discriminate; try reflexivity.
    destruct (Pos.compare_cont Eq m 4503599627370496); cbn [CompOpp];
      try discriminate; reflexivity.
Qed.

End Binary64Facts.

(** * Dempster's rule over binary64 *)

Module DSBinary64.
Import DempsterShaferBinary64.

Lemma is_empty_eqb (i key : focal) :
  key <> [] -> is_empty i = true -> tuple_eqb i key = false.
Proof.
  intros Hk Hi. destruct i; [|discriminate].
  destruct key; [contradiction | reflexivity].
Qed.

Lemma combine_step_conflict (c : mass) (k : PrimFloat.float)
      (k1 : focal) (v1 : PrimFloat.float) (k2 : focal) (v2 : PrimFloat.float) :
  DempsterShafer.intersect k1 k2 = [] ->
  combine_step (c, k) ((k1, v1), (k2, v2))
  = (c, PrimFloat.add k (PrimFloat.mul v1 v2)).
Proof. intros E. unfold combine_step. rewrite E. reflexivity. Qed.

Lemma combine_step_meet (c : mass) (k : PrimFloat.float)
      (k1 : focal) (v1 : PrimFloat.float) (k2 : focal) (v2 : PrimFloat.float)
      x i :
  DempsterShafer.intersect k1 k2 = x :: i ->
  combine_step (c, k) ((k1, v1), (k2, v2))
  = (setitem tuple_eqb c (x :: i)
       (PrimFloat.add (get_or_zero c (x :: i)) (PrimFloat.mul v1 v2)), k).
Proof. intros E. unfold combine_step. rewrite E. reflexivity. Qed.

(** The accumulation of lines 25-30 from any state: the conflict is
    extended by the products of the pairs with an empty intersection, and
    every focal element by the products of the pairs that meet in it. *)
Lemma combine_steps_spec (l : list ((focal * PrimFloat.float) * (focal * PrimFloat.float))) :
  forall (c : mass) (k : PrimFloat.float),
    snd (fold_left combine_step l (c, k))
    = fold_left PrimFloat.add
        (map pair_weight (filter (fun p => is_empty (meet p)) l)) k /\
    forall key, key <> [] ->
      dict_get tuple_eqb (fst (fold_left combine_step l (c, k))) key
      = match dict_get tuple_eqb c key with
        | Some v =>
            Some (fold_left PrimFloat.add
                    (map pair_weight
                         (filter (fun p => tuple_eqb (meet p) key) l)) v)
        | None =>
            if existsb (fun p => tuple_eqb (meet p) key) l
            then Some (fold_left PrimFloat.add
                         (map pair_weight
                              (filter (fun p => tuple_eqb (meet p) key) l))
                         PrimFloat.zero)
            else None
        end.
Proof.
  induction l as [|p l IH]; intros c k.
  - simpl. split; [reflexivity|]. intros key _.
    destruct (dict_get tuple_eqb c key); reflexivity.
  - change (fold_left combine_step (p :: l) (c, k))
      with (fold_left combine_step l (combine_step (c, k) p)).
    destruct p as [[k1 v1] [k2 v2]].
    cbn [filter existsb].
    change (meet (k1, v1, (k2, v2))) with (DempsterShafer.intersect k1 k2).
    destruct (DempsterShafer.intersect k1 k2) as [|x i] eqn:Ei.
    + rewrite (combine_step_conflict c k k1 v1 k2 v2 Ei).
      destruct (IH c (PrimFloat.add k (PrimFloat.mul v1 v2))) as [IHk IHc].
      split; [exact IHk|].
      intros key Hkey. etransitivity; [exact (IHc key Hkey)|].
      destruct key as [|y key]; [contradiction | reflexivity].
    + rewrite (combine_step_meet c k k1 v1 k2 v2 x i Ei).
      destruct (IH (setitem tuple_eqb c (x :: i)
                      (PrimFloat.add (get_or_zero c (x :: i))
                                     (PrimFloat.mul v1 v2))) k)
        as [IHk IHc].
      split; [exact IHk|].
      intros key Hkey. etransitivity; [exact (IHc key Hkey)|].
      destruct (tuple_eqb (x :: i) key) eqn:E.
      * apply tuple_eqb_eq in E. subst key.
        rewrite (get_set_same tuple_eqb tuple_eqb_eq).
        unfold get_or_zero.
        destruct (dict_get tuple_eqb c (x :: i)); reflexivity.
      * rewrite (get_set_other tuple_eqb tuple_eqb_eq).
        -- reflexivity.
        -- intros H. rewrite H, tuple_eqb_refl in E. discriminate.
Qed.

Definition focal_ok (m : mass) : Prop :=
  (forall k v, In (k, v) m -> k <> []) /\ NoDup (keys m).

Lemma combine_step_ok c k p :
  focal_ok c -> focal_ok (fst (combine_step (c, k) p)).
Proof.
  destruct p as [[k1 v1] [k2 v2]]. intros [Hne Hd].
  destruct (DempsterShafer.intersect k1 k2) as [|x i] eqn:E.
  - rewrite (combine_step_conflict c k k1 v1 k2 v2 E). split; assumption.
  - rewrite (combine_step_meet c k k1 v1 k2 v2 x i E). cbn [fst]. split.
    + intros k0 v0 Hin. apply (setitem_In tuple_eqb tuple_eqb_eq) in Hin.
      destruct Hin as [[-> _]|Hin]; [discriminate | exact (Hne k0 v0 Hin)].
    + apply (setitem_NoDup tuple_eqb tuple_eqb_eq). exact Hd.
Qed.

Lemma accumulate_steps_ok l : forall c k,
  focal_ok c -> focal_ok (fst (fold_left combine_step l (c, k))).
Proof.
  induction l as [|p l IH]; intros c k H; [exact H|].
  change (fold_left combine_step (p :: l) (c, k))
    with (fold_left combine_step l (combine_step (c, k) p)).
  pose proof (combine_step_ok c k p H) as H1.
  destruct (combine_step (c, k) p) as [c1 k1]. apply IH. exact H1.
Qed.

Lemma accumulate_ok (m1 m2 : mass) : focal_ok (fst (accumulate m1 m2)).
Proof.
  unfold accumulate. apply accumulate_steps_ok.
  split; [intros k v [] | constructor].
Qed.

Lemma conflict_mass_accumulated (m1 m2 : mass) :
  snd (accumulate m1 m2) = conflict_mass m1 m2.
Proof.
  exact (proj1 (combine_steps_spec (list_prod m1 m2) [] PrimFloat.zero)).
Qed.

Lemma mass_on_accumulated (m1 m2 : mass) key :
  dict_get tuple_eqb (fst (accumulate m1 m2)) key
  = if focal_of key m1 m2 then Some (mass_on key m1 m2) else None.
Proof.
  unfold focal_of. destruct key as [|x key].
  - simpl.
    pose proof (accumulate_ok m1 m2) as Hok.
    destruct (dict_get tuple_eqb (fst (accumulate m1 m2)) []) as [v|] eqn:E;
      [|reflexivity].
    apply (dict_get_In tuple_eqb tuple_eqb_eq) in E.
    destruct (proj1 Hok [] v E). reflexivity.
  - simpl negb. simpl andb.
    exact (proj2 (combine_steps_spec (list_prod m1 m2) [] PrimFloat.zero)
                 (x :: key) ltac:(discriminate)).
Qed.

Lemma dict_get_divided (c : mass) (t : PrimFloat.float) key :
  dict_get tuple_eqb (map (fun '(f, v) => (f, PrimFloat.div v t)) c) key
  = match dict_get tuple_eqb c key with
    | Some v => Some (PrimFloat.div v t)
    | None => None
    end.
Proof.
  induction c as [|[f v] c IH]; simpl; [reflexivity|].
  destruct (tuple_eqb f key); [reflexivity | exact IH].
Qed.

(** Lines 33-34 divide every combined mass, and raise nothing, when the
    divisor is not a zero. *)
Lemma divide_combined (c : mass) (t : PrimFloat.float) :
  PrimFloat.eqb t PrimFloat.zero = false ->
  mapM (fun '(f, v) => q <- CredalBinary64.py_div v t ;; OK (f, q)) c
  = OK (map (fun '(f, v) => (f, PrimFloat.div v t)) c).
Proof.
  intros H. apply mapM_pure. intros [f v] _.
  unfold CredalBinary64.py_div. rewrite H. reflexivity.
Qed.

(** C9 — over binary64, [combine_mass] raises the total-conflict
    [ValueError], dividing nothing, exactly when the test [conflict < 1]
    fails on the accumulated conflict (the products of the pairs with an
    empty intersection, added up in order), in particular whenever that
    conflict is at least 1; when the conflict is below 1 it raises nothing
    (the divisor [1 - conflict] is not zero) and returns every combined
    mass (the products of the pairs meeting in that focal element, added
    up in order) divided by [1 - conflict]. *)
Theorem combine_mass_total_conflict (m1 m2 : mass) :
  (combine_mass m1 m2 = Raise (ValueError DempsterShafer.total_conflict_msg)
   <-> PrimFloat.ltb (conflict_mass m1 m2) PrimFloat.one = false) /\
  (PrimFloat.leb PrimFloat.one (conflict_mass m1 m2) = true ->
   combine_mass m1 m2 = Raise (ValueError DempsterShafer.total_conflict_msg)) /\
  (PrimFloat.ltb (conflict_mass m1 m2) PrimFloat.one = true ->
   exists m,
     combine_mass m1 m2 = OK m /\ NoDup (keys m) /\
     forall k,
       dict_get tuple_eqb m k
       = if focal_of k m1 m2
         then Some (PrimFloat.div (mass_on k m1 m2)
                      (PrimFloat.sub PrimFloat.one (conflict_mass m1 m2)))
         else None).
Proof.
  pose proof (conflict_mass_accumulated m1 m2) as Ek.
  pose proof (mass_on_accumulated m1 m2) as Ec.
  pose proof (accumulate_ok m1 m2) as Hok.
  unfold combine_mass. destruct (accumulate m1 m2) as [c K].
  cbn [fst snd] in Ek, Ec, Hok. subst K.
  destruct (PrimFloat.ltb (conflict_mass m1 m2) PrimFloat.one) eqn:E.
  - rewrite (divide_combined c _ (Binary64Facts.sub_one_nonzero _ E)).
    split; [|split].
    + split; discriminate.
    + intros H. apply Binary64Facts.one_le_not_lt in H. congruence.
    + intros _. eexists. split; [reflexivity|]. split.
      * unfold keys in *. rewrite map_map.
        erewrite map_ext; [exact (proj2 Hok)|]. intros [k0 v0]. reflexivity.
      * intros k. rewrite dict_get_divided, Ec.
        destruct (focal_of k m1 m2); reflexivity.
  - split; [|split].
    + split; reflexivity.
    + reflexivity.
    + discriminate.
Qed.

Lemma accumulate_disjoint l : forall c k,
  (forall p, In p l -> meet p = []) ->
  fst (fold_left combine_step l (c, k)) = c.
Proof.
  induction l as [|p l IH]; intros c k H; [reflexivity|].
  change (fold_left combine_step (p :: l) (c, k))
    with (fold_left combine_step l (combine_step (c, k) p)).
  pose proof (H p (or_introl eq_refl)) as Hp.
  destruct p as [[k1 v1] [k2 v2]].
  change (DempsterShafer.intersect k1 k2 = []) in Hp.
  rewrite (combine_step_conflict c k k1 v1 k2 v2 Hp).
  apply IH. intros q Hq. apply H. right. exact Hq.
Qed.

(** X20 — two mass functions whose focal elements share no label (evidence
    about different variables, as the masses of Flu and of Cold in the
    example) combine to nothing: every product goes to the conflict, and
    [combine_mass] either raises the [ValueError] of line 36 or, when the
    conflict was rounded below 1, returns the empty dict. *)
Theorem disjoint_frames_combine_to_nothing (m1 m2 : mass) :
  (forall k1 v1 k2 v2 x,
      In (k1, v1) m1 -> In (k2, v2) m2 -> In x k1 -> ~ In x k2) ->
  combine_mass m1 m2 = OK [] \/
  combine_mass m1 m2 = Raise (ValueError DempsterShafer.total_conflict_msg).
Proof.
  intros Hdis.
  assert (E : fst (accumulate m1 m2) = []).
  { unfold accumulate. apply accumulate_disjoint.
    intros [[k1 v1] [k2 v2]] Hin. apply in_prod_iff in Hin.
    destruct Hin as [H1 H2].
    change (DempsterShafer.intersect k1 k2 = []).
    destruct (DempsterShafer.intersect k1 k2) as [|x i] eqn:Ei;
      [reflexivity|].
    assert (Hx : In x (DempsterShafer.intersect k1 k2))
      by (rewrite Ei; left; reflexivity).
    apply DSMore.In_intersect in Hx. destruct Hx as [Hx1 Hx2].
    destruct (Hdis k1 v1 k2 v2 x H1 H2 Hx1 Hx2). }
  unfold combine_mass. destruct (accumulate m1 m2) as [c k].
  cbn [fst] in E. subst c.
  destruct (PrimFloat.ltb k PrimFloat.one); [left | right]; reflexivity.
Qed.

Lemma disjoint_frames_combine_to_nothing_witness :
  (combine_mass m_flu m_cold = OK [] \/
   combine_mass m_flu m_cold
   = Raise (ValueError DempsterShafer.total_conflict_msg)) /\
  combine_mass m_flu m_cold = OK [].
Proof.
  split; [|vm_compute; reflexivity].
  apply (disjoint_frames_combine_to_nothing m_flu m_cold).
  intros k1 v1 k2 v2 x H1 H2 Hx1 Hx2. simpl in H1, H2.
  destruct H1 as [H1|[H1|[H1|[]]]]; injection H1 as <- _;
    destruct H2 as [H2|[H2|[H2|[]]]]; injection H2 as <- _;
    simpl in Hx1, Hx2;
    repeat (destruct Hx1 as [Hx1|Hx1]; [subst x|]); try (destruct Hx1);
    repeat (destruct Hx2 as [Hx2|Hx2]; [discriminate|]); destruct Hx2.
Defined.

End DSBinary64.
